(** * word-ruby: the match-and-splice engine of [ruby_processor.py]

    A shallow embedding of [create_ruby_element] and
    [apply_ruby_to_document] together with the small part of python-docx
    and lxml the two functions call, followed by the properties of the
    engine.

    Modelling conventions.
    - A Python [str] is a list of Unicode code points ([str := list N]);
      [len], slicing and [find] therefore count code points, as Python
      does.  Tag and attribute names are written in prefixed form
      (["w:r"], ["w:val"]) as Rocq strings.
    - An lxml element is a tag, an ordered attribute list, an optional
      text and an ordered list of children.  Tail text is not modelled:
      the engine never sets it and the parts of a document are written
      without text between elements.
    - A paragraph is the list of children of its [w:p] element; a document
      is the list of its body paragraphs ([doc.paragraphs]).  In-place
      mutation of the tree is rendered by returning the new child list.
    - The two dictionaries are [gmap]s; a failing dictionary lookup is the
      error [KeyError].  lxml refuses a string that XML cannot hold as
      the text of an element: the assignment raises [ValueError] (for a
      surrogate its subclass [UnicodeEncodeError]), which nothing in the
      engine catches.  The [while] loop takes a fuel argument, the same
      for every paragraph; running out of fuel is the outcome [Diverges].
      The index [i] is a natural number: [i = -1] followed by [i += 1]
      is the restart at 0.
    - Loading and saving the file ([Document(doc_path)], [doc.save]) are
      outside the model: the engine maps a document to a document, or
      ends in an error, and then no document is saved.
    - The library functions follow python-docx 1.x: [Run.text] reads
      [w:t], [w:tab], [w:br], [w:cr], [w:noBreakHyphen] and [w:ptab], and
      assigning to it clears the run content and writes [w:t], [w:tab]
      and [w:br] elements. *)

From Stdlib Require Import String Ascii.
From stdpp Require Import base decidable option list gmap pretty sorting.

Set Warnings "-register-all,-clear-no-such-hyp".
Local Open Scope string_scope.
Local Open Scope list_scope.
Local Open Scope N_scope.

(** ** Python strings *)

Module PyStr.

Abbreviation char := N.
Abbreviation str := (list N).

(** An ASCII literal as a Python string. *)
Definition u (s : string) : str :=
  List.map N_of_ascii (list_ascii_of_string s).

(** [prefixb w s]: [s.startswith(w)]. *)
Fixpoint prefixb (w s : str) : bool :=
  match w, s with
  | [], _ => true
  | _ :: _, [] => false
  | a :: w', b :: s' => bool_decide (a = b) && prefixb w' s'
  end.

Fixpoint find_from (w s : str) (n : nat) : option nat :=
  if prefixb w s then Some n
  else match s with
       | [] => None
       | _ :: s' => find_from w s' (S n)
       end.

(** [find s w]: [s.find(w)], the lowest index where [w] occurs in [s], or
    [-1]. *)
Definition find (s w : str) : Z :=
  match find_from w s 0 with
  | Some n => Z.of_nat n
  | None => (-1)%Z
  end.

(** [contains w s]: [w in s]. *)
Definition contains (w s : str) : bool :=
  bool_decide (find s w ≠ (-1)%Z).

(** [s[:i]] and [s[j:]] for indices that are not negative. *)
Definition slice_to (s : str) (i : Z) : str := take (Z.to_nat i) s.
Definition slice_from (s : str) (j : Z) : str := drop (Z.to_nat j) s.

(** [len(s)]. *)
Definition len (s : str) : Z := Z.of_nat (length s).

(** [str.isspace] on one code point, the characters [str.strip] removes. *)
Definition isspace (c : char) : bool :=
  ((9 <=? c) && (c <=? 13)) || ((28 <=? c) && (c <=? 32))
  || (c =? 133) || (c =? 160) || (c =? 5760)
  || ((8192 <=? c) && (c <=? 8202))
  || (c =? 8232) || (c =? 8233) || (c =? 8239) || (c =? 8287)
  || (c =? 12288).

Fixpoint lstrip (s : str) : str :=
  match s with
  | c :: s' => if isspace c then lstrip s' else s
  | [] => []
  end.

(** [s.strip()]. *)
Definition strip (s : str) : str := rev (lstrip (rev (lstrip s))).

End PyStr.
Import PyStr.

(** ** Outcomes

    The exceptions the two functions can end in, and running out of
    fuel. *)

Inductive error : Type :=
| KeyError (key : str)
| ValueError
| Diverges.

Definition M (A : Type) : Type := error + A.
Definition ret {A} (a : A) : M A := inr a.
Definition bind {A B} (m : M A) (k : A → M B) : M B :=
  match m with
  | inl e => inl e
  | inr a => k a
  end.

Notation "'let*' x ':=' m 'in' k" := (bind m (λ x, k))
  (at level 10, x name, m at level 100, k at level 200).
Notation "'let*' ' p ':=' m 'in' k" := (bind m (λ x, let 'p := x in k))
  (at level 10, p pattern, m at level 100, k at level 200).

(** ** lxml elements *)

Inductive elem : Type :=
  Elem (tag : string) (attrs : list (string * str))
       (text : option str) (children : list elem).

Definition tag (e : elem) : string := let '(Elem t _ _ _) := e in t.
Definition attrs (e : elem) : list (string * str) :=
  let '(Elem _ a _ _) := e in a.
Definition etext (e : elem) : option str := let '(Elem _ _ x _) := e in x.
Definition children (e : elem) : list elem :=
  let '(Elem _ _ _ cs) := e in cs.

(** [OxmlElement(tag)]: a new element with no attribute, text or child. *)
Definition OxmlElement (t : string) : elem := Elem t [] None [].

(** [e.set(name, value)]. *)
Fixpoint set_assoc (name : string) (value : str) (a : list (string * str))
  : list (string * str) :=
  match a with
  | [] => [(name, value)]
  | (k, v) :: a' =>
      if decide (k = name) then (k, value) :: a'
      else (k, v) :: set_assoc name value a'
  end.

Definition set_attr (name : string) (value : str) (e : elem) : elem :=
  Elem (tag e) (set_assoc name value (attrs e)) (etext e) (children e).

(** [e.get(name)]. *)
Fixpoint get_assoc (name : string) (a : list (string * str)) : option str :=
  match a with
  | [] => None
  | (k, v) :: a' => if decide (k = name) then Some v else get_assoc name a'
  end.

Definition get_attr (name : string) (e : elem) : option str :=
  get_assoc name (attrs e).

(** The strings lxml takes as text: every character is a tab, a newline,
    a carriage return or at least U+0020, none is a surrogate
    (U+D800-U+DFFF), and none is U+FFFE or U+FFFF. *)
Definition xml_char (c : char) : bool :=
  ((c =? 9) || (c =? 10) || (c =? 13) || (32 <=? c))
  && negb ((55296 <=? c) && (c <=? 57343))
  && negb ((c =? 65534) || (c =? 65535)).

Definition xml_compatible (s : str) : bool := forallb xml_char s.

(** [e.text = s]: lxml raises [ValueError] for a string that is not XML
    compatible and leaves the element as it was. *)
Definition set_etext (s : str) (e : elem) : M elem :=
  if xml_compatible s
  then ret (Elem (tag e) (attrs e) (Some s) (children e))
  else inl ValueError.

(** [e.append(c)]. *)
Definition append (c : elem) (e : elem) : elem :=
  Elem (tag e) (attrs e) (etext e) (children e ++ [c]).

Definition has_tag (t : string) (e : elem) : bool := bool_decide (tag e = t).

(** *** Serialisation: [etree.tostring(e).decode('utf-8')]

    [tostring] without an encoding argument writes ASCII: a character
    above 127 becomes a numeric character reference.  The namespace
    declarations lxml adds to the outermost tag are left out; they hold
    neither of the two marker strings the engine searches for. *)

Definition escape_text (c : char) : str :=
  if c =? 38 then u "&amp;"
  else if c =? 60 then u "&lt;"
  else if c =? 62 then u "&gt;"
  else if c =? 13 then u "&#13;"
  else if c <? 128 then [c]
  else u "&#" ++ u (pretty c) ++ u ";".

Definition escape_attr (c : char) : str :=
  if c =? 34 then u "&quot;"
  else if c =? 9 then u "&#9;"
  else if c =? 10 then u "&#10;"
  else escape_text c.

Definition dquote : str := [34].

Definition attr_to_str (kv : string * str) : str :=
  u " " ++ u kv.1 ++ u "=" ++ dquote
    ++ List.flat_map escape_attr kv.2 ++ dquote.

Fixpoint tostring (e : elem) : str :=
  match e with
  | Elem t a x cs =>
      let inner :=
        List.flat_map escape_text (default [] x)
          ++ List.flat_map tostring cs in
      match x, cs with
      | None, [] => u "<" ++ u t ++ List.flat_map attr_to_str a ++ u "/>"
      | _, _ =>
          u "<" ++ u t ++ List.flat_map attr_to_str a ++ u ">"
            ++ inner ++ u "</" ++ u t ++ u ">"
      end
  end.

(** ** python-docx: runs and paragraphs *)

Module Docx.

(** The text equivalent of one child of a run ([str(e)] in [CT_R.text]):
    [w:t] gives its text, [w:tab] and [w:ptab] a tab, [w:cr] and a
    line-wrapping [w:br] a newline, [w:noBreakHyphen] a hyphen; a page or
    column [w:br] and every other element give nothing. *)
Definition text_equiv (e : elem) : str :=
  if has_tag "w:t" e then default [] (etext e)
  else if has_tag "w:tab" e then [9]
  else if has_tag "w:br" e then
    match get_attr "w:type" e with
    | None => [10]
    | Some v => if decide (v = u "textWrapping") then [10] else []
    end
  else if has_tag "w:cr" e then [10]
  else if has_tag "w:noBreakHyphen" e then [45]
  else if has_tag "w:ptab" e then [9]
  else [].

(** [run.text] (getter). *)
Definition run_text (r : elem) : str := List.flat_map text_equiv (children r).

(** [CT_R.clear_content]: remove every child except [w:rPr]. *)
Definition clear_content (r : elem) : elem :=
  Elem (tag r) (attrs r) (etext r)
       (filter (λ c, tag c = "w:rPr") (children r)).

(** [CT_R.add_t]: a new [w:t] with the text, marked
    [xml:space="preserve"] when the text has leading or trailing
    whitespace, appended to the run.  The text is assigned before the
    element is inserted. *)
Definition add_t (text : str) (r : elem) : M elem :=
  let* t := set_etext text (OxmlElement "w:t") in
  let t := if (len (strip text) <? len text)%Z
           then set_attr "xml:space" (u "preserve") t else t in
  ret (append t r).

Definition add_tab (r : elem) : elem := append (OxmlElement "w:tab") r.
Definition add_br (r : elem) : elem := append (OxmlElement "w:br") r.

(** [_RunContentAppender]: [flush] writes the buffered characters as one
    [w:t]; a tab becomes [w:tab], a newline or carriage return [w:br]. *)
Definition flush (bfr : str) (r : elem) : M elem :=
  match bfr with
  | [] => ret r
  | _ :: _ => add_t bfr r
  end.

Fixpoint add_text (text bfr : str) (r : elem) : M elem :=
  match text with
  | [] => flush bfr r
  | c :: rest =>
      if decide (c = 9)
      then let* r := flush bfr r in add_text rest [] (add_tab r)
      else if decide (c = 13 ∨ c = 10)
           then let* r := flush bfr r in add_text rest [] (add_br r)
           else add_text rest (bfr ++ [c]) r
  end.

(** [run.text = text] (setter). *)
Definition set_run_text (text : str) (r : elem) : M elem :=
  add_text text [] (clear_content r).

(** [run_xml.rPr]: the first [w:rPr] child, or [None]. *)
Definition rPr (r : elem) : option elem :=
  List.find (has_tag "w:rPr") (children r).

(** [paragraph.runs]: the [w:r] elements that are direct children of the
    paragraph, recomputed at every access. *)
Definition runs (p : list elem) : list elem :=
  filter (λ c, tag c = "w:r") p.

(** Replace the [i]-th run of a paragraph by the elements [new]: the run
    mutated in place followed by the siblings [addnext] inserted. *)
Fixpoint replace_run (i : nat) (new : list elem) (p : list elem)
  : list elem :=
  match p with
  | [] => []
  | c :: p' =>
      if decide (tag c = "w:r") then
        match i with
        | O => new ++ p'
        | S i' => c :: replace_run i' new p'
        end
      else c :: replace_run i new p'
  end.

End Docx.
Import Docx.

(** ** [create_ruby_element] *)

Definition create_ruby_element (text ruby_text : str) : M elem :=
  let ruby := OxmlElement "w:ruby" in
  let rubyPr := OxmlElement "w:rubyPr" in
  let rubyAlign := OxmlElement "w:rubyAlign" in
  let rubyAlign := set_attr "w:val" (u "distributeSpace") rubyAlign in
  let rubyPr := append rubyAlign rubyPr in
  let ruby := append rubyPr ruby in
  let rt := OxmlElement "w:rt" in
  let r_rt := OxmlElement "w:r" in
  let t_rt := OxmlElement "w:t" in
  let* t_rt := set_etext ruby_text t_rt in
  let r_rt := append t_rt r_rt in
  let rt := append r_rt rt in
  let ruby := append rt ruby in
  let rubyBase := OxmlElement "w:rubyBase" in
  let r_base := OxmlElement "w:r" in
  let t_base := OxmlElement "w:t" in
  let* t_base := set_etext text t_base in
  let r_base := append t_base r_base in
  let rubyBase := append r_base rubyBase in
  let ruby := append rubyBase ruby in
  ret ruby.

(** ** [apply_ruby_to_document] *)

(** One entry of [ruby_settings]: [{'word': ..., 'ruby': ...}]. *)
Record setting : Type := Setting { word : str; ruby : str }.

Abbreviation dict := (gmap str bool).
Abbreviation paragraph := (list elem).
Abbreviation document := (list (list elem)).

(** [d[k]]. *)
Definition getitem (d : dict) (k : str) : M bool :=
  match d !! k with
  | Some b => ret b
  | None => inl (KeyError k)
  end.

(** [{item['word']: False for item in settings}]. *)
Definition all_false (settings : list setting) : dict :=
  foldl (λ d item, <[word item := false]> d) ∅ settings.

(** [sorted(ruby_settings, key=lambda x: len(x['word']), reverse=True)]:
    a stable sort, entries of equal length keep their order. *)
Fixpoint insert_desc (x : setting) (l : list setting) : list setting :=
  match l with
  | [] => [x]
  | y :: l' =>
      if (len (word y) <=? len (word x))%Z then x :: y :: l'
      else y :: insert_desc x l'
  end.

Definition sorted_desc (l : list setting) : list setting :=
  foldr insert_desc [] l.

(** Lines 131-132, the two marker strings of the page-break test and
    the test itself. *)
Definition marker_rendered : str := u "w:lastRenderedPageBreak".
Definition marker_page : str := u "w:type=" ++ dquote ++ u "page" ++ dquote.

Definition has_page_break (run_xml : elem) : bool :=
  let xml_str := tostring run_xml in
  contains marker_rendered xml_str || contains marker_page xml_str.

(** The state the loops thread: the paragraph being rewritten and the two
    trackers. *)
Record state : Type := State {
  para : paragraph;
  global_applied : dict;
  items_applied_on_page : dict
}.

(** Lines 169-200: what the matched run becomes, [run_xml] truncated to
    the text before the match, then the ruby element, then a new run for
    the text after the match when there is one.  Each of the three
    assignments of a text can raise. *)
Definition split_run (run_xml : elem) (original_text : str) (idx : Z)
    (word ruby : str) : M (list elem) :=
  let text_before := slice_to original_text idx in
  let text_after := slice_from original_text (idx + len word)%Z in
  let* run_xml := set_run_text text_before run_xml in
  let* ruby_elem := create_ruby_element word ruby in
  match text_after with
  | [] => ret [run_xml; ruby_elem]
  | _ :: _ =>
      let new_run := OxmlElement "w:r" in
      let new_run :=
        match rPr run_xml with
        | Some p => append p new_run
        | None => new_run
        end in
      let t_u := OxmlElement "w:t" in
      let t_u :=
        if (0 <? len text_after)%Z
           && (bool_decide (head text_after = Some 32)
               || bool_decide (last text_after = Some 32))
        then set_attr "xml:space" (u "preserve") t_u else t_u in
      let* t_u := set_etext text_after t_u in
      let new_run := append t_u new_run in
      ret [run_xml; ruby_elem; new_run]
  end.

(** Lines 156-200, the body of [if idx != -1] before the [break]: the
    trackers are updated for [mode] and the run at index [i] is split. *)
Definition apply_match (mode : string) (i : nat) (run_xml : elem)
    (original_text : str) (idx : Z) (s : setting) (st : state) : M state :=
  let ga := if bool_decide (mode = "once")
            then <[word s := true]> (global_applied st)
            else global_applied st in
  let pg := if bool_decide (mode = "per_page")
            then <[word s := true]> (items_applied_on_page st)
            else items_applied_on_page st in
  let* new := split_run run_xml original_text idx (word s) (ruby s) in
  ret (State (replace_run i new (para st)) ga pg).

(** Lines 142-221, the [for setting in sorted_settings] loop on the run
    at index [i], with its two [continue] tests and its [break].  It
    returns [match_found] and the state. *)
Fixpoint for_settings (mode : string) (i : nat) (run_xml : elem)
    (original_text : str) (settings : list setting) (st : state)
  : M (bool * state) :=
  match settings with
  | [] => ret (false, st)
  | s :: rest =>
      let* skip_once := (if bool_decide (mode = "once")
                         then getitem (global_applied st) (word s)
                         else ret false) in
      if (skip_once : bool)
      then for_settings mode i run_xml original_text rest st else
      let* skip_page := (if bool_decide (mode = "per_page")
                         then getitem (items_applied_on_page st) (word s)
                         else ret false) in
      if (skip_page : bool)
      then for_settings mode i run_xml original_text rest st else
      let idx := find original_text (word s) in
      if bool_decide (idx ≠ (-1)%Z)
      then let* st := apply_match mode i run_xml original_text idx s st in
           ret (true, st)
      else for_settings mode i run_xml original_text rest st
  end.

(** Lines 126-236, one pass through the body of the [while] loop for the
    run at index [i]: the page-break test, the empty-text test, the scan,
    and the restart.  It returns the next value of [i] and the state. *)
Definition loop_body (mode : string) (sorted_settings : list setting)
    (i : nat) (run_xml : elem) (st : state) : M (nat * state) :=
  let pg := if has_page_break run_xml
            then all_false sorted_settings
            else items_applied_on_page st in
  let st := State (para st) (global_applied st) pg in
  let original_text := run_text run_xml in
  match original_text with
  | [] => ret (S i, st)
  | _ :: _ =>
      let* '(match_found, st) :=
         for_settings mode i run_xml original_text sorted_settings st in
      if (match_found : bool) then ret (O, st) else ret (S i, st)
  end.

(** Lines 124-125, [while i < len(paragraph.runs)]: the guard and the
    access [paragraph.runs[i]] are one lookup. *)
Fixpoint while_runs (fuel : nat) (mode : string)
    (sorted_settings : list setting) (i : nat) (st : state) : M state :=
  match runs (para st) !! i with
  | None => ret st
  | Some run_xml =>
      match fuel with
      | O => inl Diverges
      | S fuel' =>
          let* '(i', st') := loop_body mode sorted_settings i run_xml st in
          while_runs fuel' mode sorted_settings i' st'
      end
  end.

(** Line 97, [for paragraph in doc.paragraphs], with the two trackers
    carried from one paragraph to the next. *)
Fixpoint for_paragraphs (fuel : nat) (mode : string)
    (sorted_settings : list setting) (ps : document) (ga pg : dict)
  : M (document * dict * dict) :=
  match ps with
  | [] => ret ([], ga, pg)
  | p :: ps' =>
      let* st := while_runs fuel mode sorted_settings O (State p ga pg) in
      let* '(ps'', ga', pg') :=
         for_paragraphs fuel mode sorted_settings ps'
           (global_applied st) (items_applied_on_page st) in
      ret (para st :: ps'', ga', pg')
  end.

(** Lines 73-97: the trackers and the sorted settings are set up and the
    paragraphs processed.  [run_engine] also returns the final trackers;
    [apply_ruby_to_document] is the engine proper. *)
Definition run_engine (fuel : nat) (doc : document)
    (ruby_settings : list setting) (mode : string)
  : M (document * dict * dict) :=
  let global_applied := all_false ruby_settings in
  let sorted_settings := sorted_desc ruby_settings in
  let items_applied_on_page := all_false sorted_settings in
  for_paragraphs fuel mode sorted_settings doc
    global_applied items_applied_on_page.

Definition apply_ruby_to_document (fuel : nat) (doc : document)
    (ruby_settings : list setting) (mode : string) : M document :=
  let* '(doc', _, _) := run_engine fuel doc ruby_settings mode in
  ret doc'.

(** ** The engine with every string accepted

    [Lax] holds the builders and the loops as they run when lxml accepts
    every string: the same code with the check of [set_etext] left out.
    They are not the engine; they say what a split builds when it
    completes, and the engine is compared with them in the proofs (it
    gives the same result, or ends in [ValueError]). *)

Module Lax.

(** [e.text = s], [CT_R.add_t], the content appender and the setter of
    [run.text]. *)
Definition set_etext (s : str) (e : elem) : elem :=
  Elem (tag e) (attrs e) (Some s) (children e).

Definition add_t (text : str) (r : elem) : elem :=
  let t := set_etext text (OxmlElement "w:t") in
  let t := if (len (strip text) <? len text)%Z
           then set_attr "xml:space" (u "preserve") t else t in
  append t r.

Definition flush (bfr : str) (r : elem) : elem :=
  match bfr with
  | [] => r
  | _ :: _ => add_t bfr r
  end.

Fixpoint add_text (text bfr : str) (r : elem) : elem :=
  match text with
  | [] => flush bfr r
  | c :: rest =>
      if decide (c = 9) then add_text rest [] (add_tab (flush bfr r))
      else if decide (c = 13 ∨ c = 10)
           then add_text rest [] (add_br (flush bfr r))
           else add_text rest (bfr ++ [c]) r
  end.

Definition set_run_text (text : str) (r : elem) : elem :=
  add_text text [] (clear_content r).

(** [create_ruby_element]. *)
Definition create_ruby_element (text ruby_text : str) : elem :=
  let ruby := OxmlElement "w:ruby" in
  let rubyPr := OxmlElement "w:rubyPr" in
  let rubyAlign := OxmlElement "w:rubyAlign" in
  let rubyAlign := set_attr "w:val" (u "distributeSpace") rubyAlign in
  let rubyPr := append rubyAlign rubyPr in
  let ruby := append rubyPr ruby in
  let rt := OxmlElement "w:rt" in
  let r_rt := OxmlElement "w:r" in
  let t_rt := OxmlElement "w:t" in
  let t_rt := set_etext ruby_text t_rt in
  let r_rt := append t_rt r_rt in
  let rt := append r_rt rt in
  let ruby := append rt ruby in
  let rubyBase := OxmlElement "w:rubyBase" in
  let r_base := OxmlElement "w:r" in
  let t_base := OxmlElement "w:t" in
  let t_base := set_etext text t_base in
  let r_base := append t_base r_base in
  let rubyBase := append r_base rubyBase in
  let ruby := append rubyBase ruby in
  ruby.

(** Lines 169-200: what the matched run becomes, [run_xml] truncated to
    the text before the match, then the ruby element, then a new run for
    the text after the match when there is one. *)
Definition split_run (run_xml : elem) (original_text : str) (idx : Z)
    (word ruby : str) : list elem :=
  let text_before := slice_to original_text idx in
  let text_after := slice_from original_text (idx + len word)%Z in
  let run_xml := set_run_text text_before run_xml in
  let ruby_elem := create_ruby_element word ruby in
  match text_after with
  | [] => [run_xml; ruby_elem]
  | _ :: _ =>
      let new_run := OxmlElement "w:r" in
      let new_run :=
        match rPr run_xml with
        | Some p => append p new_run
        | None => new_run
        end in
      let t_u := OxmlElement "w:t" in
      let t_u :=
        if (0 <? len text_after)%Z
           && (bool_decide (head text_after = Some 32)
               || bool_decide (last text_after = Some 32))
        then set_attr "xml:space" (u "preserve") t_u else t_u in
      let t_u := set_etext text_after t_u in
      let new_run := append t_u new_run in
      [run_xml; ruby_elem; new_run]
  end.

(** Lines 156-200, the body of [if idx != -1] before the [break]: the
    trackers are updated for [mode] and the run at index [i] is split. *)
Definition apply_match (mode : string) (i : nat) (run_xml : elem)
    (original_text : str) (idx : Z) (s : setting) (st : state) : state :=
  let ga := if bool_decide (mode = "once")
            then <[word s := true]> (global_applied st)
            else global_applied st in
  let pg := if bool_decide (mode = "per_page")
            then <[word s := true]> (items_applied_on_page st)
            else items_applied_on_page st in
  let new := split_run run_xml original_text idx (word s) (ruby s) in
  State (replace_run i new (para st)) ga pg.

(** Lines 142-221, the [for setting in sorted_settings] loop on the run
    at index [i], with its two [continue] tests and its [break].  It
    returns [match_found] and the state. *)
Fixpoint for_settings (mode : string) (i : nat) (run_xml : elem)
    (original_text : str) (settings : list setting) (st : state)
  : M (bool * state) :=
  match settings with
  | [] => ret (false, st)
  | s :: rest =>
      let* skip_once := (if bool_decide (mode = "once")
                         then getitem (global_applied st) (word s)
                         else ret false) in
      if (skip_once : bool)
      then for_settings mode i run_xml original_text rest st else
      let* skip_page := (if bool_decide (mode = "per_page")
                         then getitem (items_applied_on_page st) (word s)
                         else ret false) in
      if (skip_page : bool)
      then for_settings mode i run_xml original_text rest st else
      let idx := find original_text (word s) in
      if bool_decide (idx ≠ (-1)%Z)
      then ret (true, apply_match mode i run_xml original_text idx s st)
      else for_settings mode i run_xml original_text rest st
  end.

(** Lines 126-236, one pass through the body of the [while] loop for the
    run at index [i]: the page-break test, the empty-text test, the scan,
    and the restart.  It returns the next value of [i] and the state. *)
Definition loop_body (mode : string) (sorted_settings : list setting)
    (i : nat) (run_xml : elem) (st : state) : M (nat * state) :=
  let pg := if has_page_break run_xml
            then all_false sorted_settings
            else items_applied_on_page st in
  let st := State (para st) (global_applied st) pg in
  let original_text := run_text run_xml in
  match original_text with
  | [] => ret (S i, st)
  | _ :: _ =>
      let* '(match_found, st) :=
         for_settings mode i run_xml original_text sorted_settings st in
      if (match_found : bool) then ret (O, st) else ret (S i, st)
  end.

(** Lines 124-125, [while i < len(paragraph.runs)]: the guard and the
    access [paragraph.runs[i]] are one lookup. *)
Fixpoint while_runs (fuel : nat) (mode : string)
    (sorted_settings : list setting) (i : nat) (st : state) : M state :=
  match runs (para st) !! i with
  | None => ret st
  | Some run_xml =>
      match fuel with
      | O => inl Diverges
      | S fuel' =>
          let* '(i', st') := loop_body mode sorted_settings i run_xml st in
          while_runs fuel' mode sorted_settings i' st'
      end
  end.

(** Line 97, [for paragraph in doc.paragraphs], with the two trackers
    carried from one paragraph to the next. *)
Fixpoint for_paragraphs (fuel : nat) (mode : string)
    (sorted_settings : list setting) (ps : document) (ga pg : dict)
  : M (document * dict * dict) :=
  match ps with
  | [] => ret ([], ga, pg)
  | p :: ps' =>
      let* st := while_runs fuel mode sorted_settings O (State p ga pg) in
      let* '(ps'', ga', pg') :=
         for_paragraphs fuel mode sorted_settings ps'
           (global_applied st) (items_applied_on_page st) in
      ret (para st :: ps'', ga', pg')
  end.

(** Lines 73-97: the trackers and the sorted settings are set up and the
    paragraphs processed.  [run_engine] also returns the final trackers;
    [apply_ruby_to_document] is the engine proper. *)
Definition run_engine (fuel : nat) (doc : document)
    (ruby_settings : list setting) (mode : string)
  : M (document * dict * dict) :=
  let global_applied := all_false ruby_settings in
  let sorted_settings := sorted_desc ruby_settings in
  let items_applied_on_page := all_false sorted_settings in
  for_paragraphs fuel mode sorted_settings doc
    global_applied items_applied_on_page.

Definition apply_ruby_to_document (fuel : nat) (doc : document)
    (ruby_settings : list setting) (mode : string) : M document :=
  let* '(doc', _, _) := run_engine fuel doc ruby_settings mode in
  ret doc'.

End Lax.

(** ** [app.py]: the handler of the conversion button

    Lines 148-188.  The uploaded file is the document or nothing, the
    rule list holds (noun, reading) pairs that are already strings, so
    that [str(item['noun'])] is the item itself.  The handler reports
    a missing file, then an empty rule list, and otherwise calls the
    engine with the rules as [{'word': noun, 'ruby': reading}]:
    [Converted (inr doc')] is the success message with the download of
    the saved document, [Converted (inl e)] the exception [e] caught by
    [except Exception] and shown as an error, [Converted (inl Diverges)]
    a handler that does not come back. *)
Inductive button_outcome : Type :=
| ErrorNoFile
| ErrorEmptySettings
| Converted (result : M document).

Definition on_convert (fuel : nat) (uploaded_file : option document)
    (ruby_list : list (str * str)) (mode : string) : button_outcome :=
  match uploaded_file with
  | None => ErrorNoFile
  | Some doc =>
      match ruby_list with
      | [] => ErrorEmptySettings
      | _ :: _ =>
          let ruby_settings :=
            List.map (λ item, Setting item.1 item.2) ruby_list in
          Converted (apply_ruby_to_document fuel doc ruby_settings mode)
      end
  end.

(** ** Observations on documents used in the statements *)

(** The scannable text of a paragraph: the text of its runs, in order. *)
Definition visible_text (p : paragraph) : str :=
  List.flat_map run_text (runs p).

(** The base word an annotation node carries: the text of the runs inside
    its [w:rubyBase]. *)
Definition ruby_base_text (e : elem) : str :=
  List.flat_map (λ b, List.flat_map run_text (runs (children b)))
    (filter (λ c, tag c = "w:rubyBase") (children e)).

(** The reading an annotation node carries. *)
Definition ruby_reading_text (e : elem) : str :=
  List.flat_map (λ b, List.flat_map run_text (runs (children b)))
    (filter (λ c, tag c = "w:rt") (children e)).

(** The text of a paragraph with every annotation node read as its base
    word: a run gives its text, a [w:ruby] its base, anything else
    nothing. *)
Definition piece (c : elem) : str :=
  if has_tag "w:r" c then run_text c
  else if has_tag "w:ruby" c then ruby_base_text c
  else [].

Definition restored_text (p : paragraph) : str := List.flat_map piece p.

(** A carriage return read back as the newline of the [w:br] the text
    setter writes for it. *)
Definition norm_cr (s : str) : str :=
  List.map (λ c : char, if decide (c = 13) then 10 else c) s.

(** [removal orig ws res]: [res] is [orig] with the words [ws] taken out,
    each once, at places that follow one another in [orig]. *)
Inductive removal : str → list str → str → Prop :=
| removal_done t : removal t [] t
| removal_word t w orig ws res :
    removal orig ws res → removal (t ++ w ++ orig) (w :: ws) (t ++ res).

(** The annotation nodes for [w] among the children of a paragraph, and
    their number in a document. *)
Definition is_annotation_of (w : str) (c : elem) : Prop :=
  tag c = "w:ruby" ∧ ruby_base_text c = w.

Definition annotations_of (w : str) (p : paragraph) : nat :=
  length (filter (is_annotation_of w) p).

Definition count_annotations (w : str) (doc : document) : nat :=
  sum_list (annotations_of w <$> doc).

(** All annotation nodes of a paragraph, whatever their word. *)
Definition annotation_nodes (p : paragraph) : list elem :=
  filter (λ c, tag c = "w:ruby") p.

(** Eligibility of a word under [mode] in a state, as the two [continue]
    tests decide it. *)
Definition eligible (mode : string) (st : state) (w : str) : Prop :=
  ¬ (mode = "once" ∧ global_applied st !! w = Some true)
  ∧ ¬ (mode = "per_page" ∧ items_applied_on_page st !! w = Some true).

(** Both trackers have an entry for every word of the settings. *)
Definition keys_ok (settings : list setting) (st : state) : Prop :=
  ∀ s, s ∈ settings →
    is_Some (global_applied st !! word s)
    ∧ is_Some (items_applied_on_page st !! word s).

(** The state after the page-break test of the loop body on [run_xml]. *)
Definition reset_page (sorted_settings : list setting) (run_xml : elem)
    (st : state) : state :=
  State (para st) (global_applied st)
        (if has_page_break run_xml then all_false sorted_settings
         else items_applied_on_page st).

(** Longest first: no entry of the list is followed by a longer one. *)
Definition longest_first (l : list setting) : Prop :=
  ∀ pre s post s', l = pre ++ s :: post → s' ∈ post →
    (length (word s') ≤ length (word s))%nat.





(** A paragraph is clean up to index [i]: no word of the settings is
    found in a non-empty run before that index. *)
Definition clean_upto (sorted : list setting) (i : nat) (p : paragraph)
  : Prop :=
  ∀ j run s, (j < i)%nat → runs p !! j = Some run → s ∈ sorted →
    run_text run ≠ [] → find (run_text run) (word s) = (-1)%Z.

(** [w] occurs in [s]. *)
Definition occurs (w s : str) : Prop := ∃ a b, s = a ++ w ++ b.

(** The content the text setter writes for a text it accepts, on its
    own. *)
Definition content_of_text (text : str) : list elem :=
  children (Lax.add_text text [] (OxmlElement "w:r")).

(** An element the text setter can write: a [w:t] with no child and at
    most the [xml:space] attribute, or a bare [w:tab], or a bare [w:br]. *)
Definition plain_text_child (c : elem) : Prop :=
  children c = []
  ∧ ((tag c = "w:t" ∧ (attrs c = [] ∨ attrs c = [("xml:space", u "preserve")]))
     ∨ (tag c = "w:tab" ∧ attrs c = [] ∧ etext c = None)
     ∨ (tag c = "w:br" ∧ attrs c = [] ∧ etext c = None)).

(** ** Example data *)

Module Ex.

(** 鍵, かぎ, 運, 命, 運命, いのち, さだめ as code points. *)
Definition kagi : str := [38261].
Definition kagi_yomi : str := [12363; 12366].
Definition unmei : str := [36939; 21629].
Definition inochi_word : str := [21629].
Definition inochi_yomi : str := [12356; 12398; 12385].
Definition sadame_yomi : str := [12373; 12384; 12417].

Definition t_ (s : str) : elem := Elem "w:t" [] (Some s) [].
Definition r_ (cs : list elem) : elem := Elem "w:r" [] None cs.
Definition bold : elem := Elem "w:rPr" [] None [OxmlElement "w:b"].
Definition lrpb : elem := OxmlElement "w:lastRenderedPageBreak".
Definition br_page : elem := Elem "w:br" [("w:type", u "page")] None [].
Definition tab : elem := OxmlElement "w:tab".

Definition kagi_rule : list setting := [Setting kagi kagi_yomi].

(** Two rules whose words overlap in the text "abc". *)
Definition overlap_rules : list setting :=
  [Setting (u "ab") (u "x"); Setting (u "bc") (u "y")].
Definition unmei_rules : list setting :=
  [Setting inochi_word inochi_yomi; Setting unmei sadame_yomi].

(** The annotation node for a word and a reading, and the one for
    鍵/かぎ. *)
Definition ruby_ (base reading : str) : elem :=
  Elem "w:ruby" [] None
    [Elem "w:rubyPr" [] None
       [Elem "w:rubyAlign" [("w:val", u "distributeSpace")] None []];
     Elem "w:rt" [] None [r_ [t_ reading]];
     Elem "w:rubyBase" [] None [r_ [t_ base]]].

Definition kagi_ruby : elem := ruby_ kagi kagi_yomi.

(** A rule whose word is empty, the annotation node it produces, and the
    paragraphs the loop runs through on the one-run paragraph "a": [n]
    emptied runs, each followed by an annotation node, then the run "a"
    again. *)
Definition empty_rule : list setting := [Setting [] kagi_yomi].
Definition empty_ruby : elem := ruby_ [] kagi_yomi.

Fixpoint blocks (n : nat) : paragraph :=
  match n with
  | O => []
  | S n' => blocks n' ++ [r_ []; empty_ruby]
  end.

Definition looping (n : nat) : paragraph := blocks n ++ [r_ [t_ (u "a")]].

End Ex.


(** ** Further observations *)

(** A run the scan cannot match: its text is empty or holds none of the
    words. *)
Definition unmatchable (settings : list setting) (c : elem) : Prop :=
  run_text c = []
  ∨ Forall (λ s, find (run_text c) (word s) = (-1)%Z) settings.

(** A child of a paragraph the engine has no reason to touch: anything
    that is not a run, and every run that cannot be matched. *)
Definition kept (settings : list setting) (c : elem) : Prop :=
  tag c ≠ "w:r" ∨ unmatchable settings c.

(** [s] is the first entry of the settings with its word. *)
Definition first_with_word (settings : list setting) (s : setting) : Prop :=
  head (filter (λ x, word x = word s) settings) = Some s.

(** [s.count(w)] for a word that is not empty: the occurrences of [w] in
    [s] counted from the left without overlap. *)
Fixpoint count_from (fuel : nat) (s w : str) : nat :=
  match fuel with
  | O => O
  | S fuel' =>
      if bool_decide (find s w = (-1)%Z) then O
      else S (count_from fuel' (slice_from s (find s w + len w)) w)
  end.

Definition count (s w : str) : nat := count_from (length s) s w.

(** The occurrences of [w] in the runs of a paragraph, run by run. *)
Definition occurrences (w : str) (p : paragraph) : nat :=
  sum_list ((λ run, count (run_text run) w) <$> runs p).

(** [app.py], lines 76-84: the add form appends the pair when both fields
    are filled in and leaves the list alone otherwise. *)
Definition form_submit (noun ruby : str) (ruby_list : list (str * str))
  : list (str * str) :=
  match noun, ruby with
  | _ :: _, _ :: _ => ruby_list ++ [(noun, ruby)]
  | _, _ => ruby_list
  end.

(** Line 37 and the form: the rule list of a session that starts empty
    and receives the given submissions of the form, in order. *)
Definition form_entries (submissions : list (str * str))
  : list (str * str) :=
  foldl (λ ruby_list entry, form_submit entry.1 entry.2 ruby_list)
    [] submissions.

(** Every run of [p'] has the formatting properties of a run of [p]. *)
Definition formatting_from (p p' : paragraph) : Prop :=
  ∀ run', run' ∈ runs p' → ∃ run, run ∈ runs p ∧ rPr run' = rPr run.

(** Every annotation node of [p'] is one of [p] or the node built for a
    setting that is the first of the list with its word. *)
Definition annotations_from (settings : list setting) (p p' : paragraph)
  : Prop :=
  ∀ c, c ∈ annotation_nodes p' →
    c ∈ annotation_nodes p
    ∨ ∃ s, s ∈ settings ∧ first_with_word settings s
           ∧ create_ruby_element (word s) (ruby s) = inr c.

(** [p'] is [p] grown by [k] annotation nodes and [j] runs, at most one
    run for each annotation node. *)
Definition grown_by (p p' : paragraph) : Prop :=
  ∃ k j : nat,
    (j ≤ k)%nat
    ∧ length (annotation_nodes p') = (length (annotation_nodes p) + k)%nat
    ∧ length (runs p') = (length (runs p) + j)%nat
    ∧ length p' = (length p + k + j)%nat.

(** The four strings a split of [text] at [idx] for the word [w] and the
    reading [r] assigns are all XML compatible. *)
Definition splittable (text : str) (idx : Z) (w r : str) : bool :=
  xml_compatible (slice_to text idx) && xml_compatible r
  && xml_compatible w && xml_compatible (slice_from text (idx + len w)).

(** Every reading of the rules is XML compatible. *)
Definition xml_readings (settings : list setting) : Prop :=
  Forall (λ s, xml_compatible (ruby s) = true) settings.

(** Every run of the paragraph, of the document, has a text that is XML
    compatible, as the runs of a document read from a file have. *)
Definition xml_runs (p : paragraph) : Prop :=
  Forall (λ run, xml_compatible (run_text run) = true) (runs p).

Definition xml_texts (doc : document) : Prop := Forall xml_runs doc.
Local Close Scope N_scope.
Local Open Scope nat_scope.

(** ** The definitions on small inputs *)

Section Checks.

Import Ex.

Example find_first_occurrence : find (u "abcabc") (u "bc") = 1%Z.
Proof. reflexivity. Qed.

Example find_absent : find (u "abc") (u "cb") = (-1)%Z.
Proof. reflexivity. Qed.

Example find_empty_word : find (u "abc") [] = 0%Z.
Proof. reflexivity. Qed.

Example strip_both_ends : strip (u "  a b ") = u "a b".
Proof. reflexivity. Qed.

Example sorted_desc_is_stable :
  word <$> sorted_desc [Setting (u "a") []; Setting (u "bcd") [];
                        Setting (u "e") []; Setting (u "fg") []]
  = [u "bcd"; u "fg"; u "a"; u "e"].
Proof. reflexivity. Qed.

Example run_text_reads_tab_and_breaks :
  run_text (r_ [bold; t_ (u "a"); tab; t_ (u "b"); OxmlElement "w:br";
                br_page; lrpb; t_ (u "c")])
  = u "a" ++ [9%N] ++ u "b" ++ [10%N] ++ u "c".
Proof. reflexivity. Qed.

Example set_run_text_rebuilds_content :
  set_run_text (u "a" ++ [9%N] ++ u "b ") (r_ [bold; lrpb; t_ (u "old")])
  = inr (r_ [bold; t_ (u "a"); tab;
             Elem "w:t" [("xml:space", u "preserve")] (Some (u "b ")) []]).
Proof. reflexivity. Qed.

Example set_run_text_refuses_control_character :
  set_run_text (u "a" ++ [1%N]) (r_ [bold]) = inl ValueError.
Proof. reflexivity. Qed.

Example create_ruby_element_on_kagi :
  create_ruby_element kagi kagi_yomi = inr kagi_ruby.
Proof. reflexivity. Qed.

Example tostring_of_a_run :
  tostring (r_ [lrpb; t_ (u "a<b")])
  = u "<w:r><w:lastRenderedPageBreak/><w:t>a&lt;b</w:t></w:r>".
Proof. reflexivity. Qed.

Example page_break_markers :
  has_page_break (r_ [lrpb; t_ kagi]) = true
  ∧ has_page_break (r_ [br_page]) = true
  ∧ has_page_break (r_ [OxmlElement "w:br"; t_ kagi]) = false
  ∧ has_page_break (r_ [t_ (u "w:lastRenderedPageBreak")]) = true.
Proof. repeat split; vm_compute; reflexivity. Qed.

Example all_mode_annotates_three_times :
  apply_ruby_to_document 10
    [[r_ [t_ (kagi ++ kagi)]]; [r_ [lrpb; t_ kagi]]] kagi_rule "all"
  = inr [[r_ []; kagi_ruby; r_ []; kagi_ruby]; [r_ []; kagi_ruby]].
Proof. vm_compute. reflexivity. Qed.

End Checks.

(** ** Facts about Python strings *)

Section StrFacts.

Implicit Types (w s a b : str).

Lemma prefixb_spec w s : prefixb w s = true ↔ ∃ t, s = w ++ t.
Proof.
  revert s. induction w as [|c w IH]; intros s; simpl.
  - split; eauto.
  - destruct s as [|d s]; simpl.
    + split; [done | intros [t Ht]; discriminate].
    + rewrite andb_true_iff, bool_decide_eq_true, IH. split.
      * intros [-> [t ->]]. eauto.
      * intros [t Ht]. injection Ht as -> ->. eauto.
Qed.

Lemma find_from_Some w s n m :
  find_from w s n = Some m →
  ∃ k, m = n + k ∧ k ≤ length s ∧ prefixb w (drop k s) = true
       ∧ ∀ j, j < k → prefixb w (drop j s) = false.
Proof.
  revert n. induction s as [|c s IH]; intros n; simpl.
  - destruct (prefixb w []) eqn:E; [|done]. intros [= <-].
    exists 0. split_and!; [lia | simpl; lia | done | intros; lia].
  - destruct (prefixb w (c :: s)) eqn:E.
    + intros [= <-]. exists 0.
      split_and!; [lia | simpl; lia | done | intros; lia].
    + intros H. apply IH in H as (k & -> & Hk & Hp & Hmin).
      exists (S k). split_and!; [lia | simpl; lia | done |].
      intros [|j] Hj; [done | simpl; apply Hmin; lia].
Qed.

Lemma find_from_None w s n :
  find_from w s n = None → ∀ j, prefixb w (drop j s) = false.
Proof.
  revert n. induction s as [|c s IH]; intros n; simpl.
  - destruct (prefixb w []) eqn:E; [done|]. intros _ j. by rewrite drop_nil.
  - destruct (prefixb w (c :: s)) eqn:E; [done|].
    intros H [|j]; [done | simpl; eauto].
Qed.

(** A hit of [find]: the index is in range, the text splits around the
    word there, and no occurrence starts earlier. *)
Lemma find_hit s w :
  find s w ≠ (-1)%Z →
  (0 ≤ find s w)%Z
  ∧ s = slice_to s (find s w) ++ w ++ slice_from s (find s w + len w)
  ∧ ∀ a b, s = a ++ w ++ b → (find s w ≤ len a)%Z.
Proof.
  unfold find, slice_to, slice_from, len.
  destruct (find_from w s 0) as [m|] eqn:E; [|done]. intros _.
  apply find_from_Some in E as (k & -> & Hk & Hp & Hmin). simpl.
  apply prefixb_spec in Hp as [t Ht].
  split; [lia|]. split.
  - rewrite Nat2Z.id.
    replace (Z.to_nat (Z.of_nat k + Z.of_nat (length w))) with (k + length w) by lia.
    rewrite <- drop_drop, Ht, drop_app_length, <- Ht.
    by rewrite take_drop.
  - intros a b Hs.
    destruct (decide (length a < k)) as [Hlt|]; [|lia].
    specialize (Hmin _ Hlt). rewrite Hs, drop_app_length in Hmin.
    assert (prefixb w (w ++ b) = true) by (apply prefixb_spec; eauto).
    congruence.
Qed.

Lemma find_miss s w : find s w = (-1)%Z ↔ ¬ occurs w s.
Proof.
  unfold find, occurs. destruct (find_from w s 0) as [m|] eqn:E.
  - split; [lia|]. intros Hn. exfalso. apply Hn.
    apply find_from_Some in E as (k & _ & _ & Hp & _).
    apply prefixb_spec in Hp as [t Ht].
    exists (take k s), t. by rewrite <- Ht, take_drop.
  - split; [|done]. intros _ (a & b & ->).
    pose proof (find_from_None _ _ _ E (length a)) as H.
    rewrite drop_app_length in H.
    assert (prefixb w (w ++ b) = true) by (apply prefixb_spec; eauto).
    congruence.
Qed.

Lemma find_nil_word s : find s [] = 0%Z.
Proof. unfold find. by destruct s. Qed.




End StrFacts.

(** ** Facts about runs and paragraphs *)

Section DocxFacts.

Implicit Types (r c : elem) (p : paragraph) (text bfr : str).

Lemma run_text_append c r : run_text (append c r) = run_text r ++ text_equiv c.
Proof.
  destruct r as [t a x cs]. unfold run_text, append. simpl.
  rewrite flat_map_app. simpl. by rewrite app_nil_r.
Qed.

Lemma tag_add_t text r : tag (Lax.add_t text r) = tag r.
Proof. by destruct r. Qed.

Lemma tag_flush bfr r : tag (Lax.flush bfr r) = tag r.
Proof. destruct bfr; [done | apply tag_add_t]. Qed.

Lemma tag_add_text text bfr r : tag (Lax.add_text text bfr r) = tag r.
Proof.
  revert bfr r. induction text as [|c text IH]; intros bfr r; simpl.
  - apply tag_flush.
  - repeat case_decide; rewrite IH; try done;
      destruct (Lax.flush bfr r) eqn:E; simpl;
      pose proof (tag_flush bfr r) as Ht; rewrite E in Ht; exact Ht.
Qed.

Lemma tag_set_run_text text r : tag (Lax.set_run_text text r) = tag r.
Proof. unfold Lax.set_run_text. rewrite tag_add_text. by destruct r. Qed.

Lemma text_equiv_new_t text :
  text_equiv
    (if (len (strip text) <? len text)%Z
     then set_attr "xml:space" (u "preserve") (Lax.set_etext text (OxmlElement "w:t"))
     else Lax.set_etext text (OxmlElement "w:t")) = text.
Proof. by destruct (len (strip text) <? len text)%Z. Qed.

Lemma run_text_add_t text r : run_text (Lax.add_t text r) = run_text r ++ text.
Proof. unfold Lax.add_t. by rewrite run_text_append, text_equiv_new_t. Qed.

Lemma run_text_flush bfr r : run_text (Lax.flush bfr r) = run_text r ++ bfr.
Proof.
  destruct bfr; simpl; [by rewrite app_nil_r | apply run_text_add_t].
Qed.

(** Reading back what the appender wrote: the buffered characters, then
    the text with each carriage return turned into a newline. *)
Lemma run_text_add_text text bfr r :
  run_text (Lax.add_text text bfr r) = run_text r ++ bfr ++ norm_cr text.
Proof.
  revert bfr r. induction text as [|c text IH]; intros bfr r; simpl.
  - by rewrite run_text_flush, app_nil_r.
  - case_decide as H9; [|case_decide as H13].
    + rewrite IH. unfold add_tab. rewrite run_text_append, run_text_flush.
      subst c. simpl. by rewrite <- !app_assoc.
    + rewrite IH. unfold add_br. rewrite run_text_append, run_text_flush.
      simpl. rewrite <- !app_assoc. simpl.
      destruct H13 as [-> | ->]; by simpl.
    + rewrite IH. rewrite <- !app_assoc. simpl.
      case_decide; [|done]. tauto.
Qed.

Lemma text_equiv_rPr c : tag c = "w:rPr" → text_equiv c = [].
Proof.
  intros H. unfold text_equiv, has_tag. rewrite H.
  repeat (case_bool_decide; [discriminate|]). done.
Qed.

Lemma run_text_clear_content r : run_text (clear_content r) = [].
Proof.
  destruct r as [t a x cs]. unfold run_text, clear_content. simpl.
  induction cs as [|c cs IH]; [done|].
  rewrite filter_cons. case_decide as Hc; [|done].
  simpl. by rewrite text_equiv_rPr, IH.
Qed.

(** The getter after the setter. *)
Lemma run_text_set_run_text text r :
  run_text (Lax.set_run_text text r) = norm_cr text.
Proof.
  unfold Lax.set_run_text. by rewrite run_text_add_text, run_text_clear_content.
Qed.

Lemma children_append c r : children (append c r) = children r ++ [c].
Proof. by destruct r. Qed.

Lemma children_flush bfr r :
  children (Lax.flush bfr r) = children r ++ children (Lax.flush bfr (OxmlElement "w:r")).
Proof.
  destruct bfr; [simpl; by rewrite app_nil_r|].
  unfold Lax.flush, Lax.add_t. by rewrite !children_append.
Qed.

Lemma children_add_text text bfr r :
  children (Lax.add_text text bfr r)
  = children r ++ children (Lax.add_text text bfr (OxmlElement "w:r")).
Proof.
  revert bfr r. induction text as [|c text IH]; intros bfr r; simpl.
  - apply children_flush.
  - repeat case_decide.
    + rewrite IH. rewrite (IH _ (add_tab _)). unfold add_tab.
      rewrite !children_append, (children_flush bfr r).
      by rewrite <- !app_assoc.
    + rewrite IH. rewrite (IH _ (add_br _)). unfold add_br.
      rewrite !children_append, (children_flush bfr r).
      by rewrite <- !app_assoc.
    + apply IH.
Qed.

(** [run.text = text] keeps the [w:rPr] children and replaces everything
    else by the content written for [text]. *)
Lemma children_set_run_text text r :
  children (Lax.set_run_text text r)
  = filter (λ c, tag c = "w:rPr") (children r) ++ content_of_text text.
Proof.
  unfold Lax.set_run_text, content_of_text. rewrite children_add_text.
  by destruct r.
Qed.

Lemma plain_new_t text :
  plain_text_child
    (if (len (strip text) <? len text)%Z
     then set_attr "xml:space" (u "preserve") (Lax.set_etext text (OxmlElement "w:t"))
     else Lax.set_etext text (OxmlElement "w:t")).
Proof.
  unfold plain_text_child.
  destruct (len (strip text) <? len text)%Z; simpl; split; eauto.
Qed.

Lemma plain_flush bfr r :
  Forall plain_text_child (children r) →
  Forall plain_text_child (children (Lax.flush bfr r)).
Proof.
  intros H. destruct bfr; [done|]. unfold Lax.flush, Lax.add_t.
  rewrite children_append. apply Forall_app. split; [done|].
  apply Forall_singleton, plain_new_t.
Qed.

Lemma plain_add_text text bfr r :
  Forall plain_text_child (children r) →
  Forall plain_text_child (children (Lax.add_text text bfr r)).
Proof.
  revert bfr r. induction text as [|c text IH]; intros bfr r H; simpl.
  - by apply plain_flush.
  - repeat case_decide; apply IH; try done.
    + unfold add_tab. rewrite children_append. apply Forall_app.
      split; [by apply plain_flush|]. apply Forall_singleton.
      unfold plain_text_child. simpl. eauto 10.
    + unfold add_br. rewrite children_append. apply Forall_app.
      split; [by apply plain_flush|]. apply Forall_singleton.
      unfold plain_text_child. simpl. eauto 10.
Qed.

Lemma plain_content_of_text text :
  Forall plain_text_child (content_of_text text).
Proof. apply plain_add_text. constructor. Qed.

Lemma plain_not_rPr c : plain_text_child c → has_tag "w:rPr" c = false.
Proof.
  intros [_ [[H _]|[[H _]|[H _]]]]; unfold has_tag; rewrite H;
    by case_bool_decide.
Qed.

Lemma find_filter_rPr (cs new : list elem) :
  Forall (λ c, has_tag "w:rPr" c = false) new →
  List.find (has_tag "w:rPr") (filter (λ c, tag c = "w:rPr") cs ++ new)
  = List.find (has_tag "w:rPr") cs.
Proof.
  intros Hnew. induction cs as [|c cs IH]; simpl.
  - induction Hnew as [|d new Hd _ IH]; [done|]. simpl. by rewrite Hd.
  - rewrite filter_cons. unfold has_tag at 2.
    case_decide as Hc.
    + simpl. unfold has_tag at 1. by rewrite !bool_decide_eq_true_2.
    + by rewrite bool_decide_eq_false_2.
Qed.

(** The truncated run keeps its formatting properties. *)
Lemma rPr_set_run_text text r : rPr (Lax.set_run_text text r) = rPr r.
Proof.
  unfold rPr. rewrite children_set_run_text. apply find_filter_rPr.
  eapply Forall_impl; [apply plain_content_of_text|].
  intros c. apply plain_not_rPr.
Qed.

Lemma runs_app p q : runs (p ++ q) = runs p ++ runs q.
Proof. apply filter_app. Qed.

Lemma elem_of_runs r p : r ∈ runs p ↔ tag r = "w:r" ∧ r ∈ p.
Proof. unfold runs. by rewrite list_elem_of_filter. Qed.

Lemma runs_lookup_tag p i r : runs p !! i = Some r → tag r = "w:r".
Proof.
  intros H. apply list_elem_of_lookup_2 in H. by apply elem_of_runs in H as [? _].
Qed.

(** The [i]-th run sits between a prefix holding [i] runs and a suffix,
    and [replace_run] rewrites exactly that position. *)
Lemma replace_run_split i r p new :
  runs p !! i = Some r →
  ∃ pre post, p = pre ++ r :: post ∧ length (runs pre) = i
              ∧ replace_run i new p = pre ++ new ++ post.
Proof.
  revert i. induction p as [|c p IH]; intros i; [done|].
  unfold runs. rewrite filter_cons. simpl. case_decide as Hc.
  - destruct i as [|i]; simpl.
    + intros [= ->]. by exists [], p.
    + intros H. apply IH in H as (pre & post & -> & Hlen & Hrep).
      exists (c :: pre), post. split_and!; [done | | by rewrite Hrep].
      unfold runs. rewrite filter_cons. rewrite decide_True by done.
      simpl. by f_equal.
  - intros H. apply IH in H as (pre & post & -> & Hlen & Hrep).
    exists (c :: pre), post. split_and!; [done | | by rewrite Hrep].
    unfold runs. rewrite filter_cons. by rewrite decide_False by done.
Qed.

End DocxFacts.

(** ** Facts about the settings and the trackers *)

Section SettingsFacts.

Implicit Types (settings l : list setting) (d : dict) (w : str).

Lemma foldl_all_false_lookup l d w :
  foldl (λ d item, <[word item := false]> d) d l !! w
  = if decide (w ∈ word <$> l) then Some false else d !! w.
Proof.
  revert d. induction l as [|x l IH]; intros d.
  - case_decide as H; [|done]. rewrite fmap_nil in H. set_solver.
  - cbn [foldl]. rewrite IH, fmap_cons.
    destruct (decide (w ∈ word <$> l)) as [Hin|Hnin].
    + rewrite decide_True; [done | set_solver].
    + destruct (decide (w = word x)) as [->|Hne].
      * rewrite lookup_insert_eq. rewrite decide_True; [done | set_solver].
      * rewrite lookup_insert_ne by done.
        rewrite decide_False; [done | set_solver].
Qed.

Lemma all_false_lookup settings w :
  all_false settings !! w
  = if decide (w ∈ word <$> settings) then Some false else None.
Proof. unfold all_false. by rewrite foldl_all_false_lookup, lookup_empty. Qed.

Lemma all_false_in settings s :
  s ∈ settings → all_false settings !! word s = Some false.
Proof.
  intros H. rewrite all_false_lookup. rewrite decide_True; [done|].
  apply list_elem_of_fmap. eauto.
Qed.


Lemma insert_desc_perm x l : insert_desc x l ≡ₚ x :: l.
Proof.
  induction l as [|y l IH]; simpl; [done|].
  destruct (len (word y) <=? len (word x))%Z; [done|].
  rewrite IH. apply Permutation_swap.
Qed.

Lemma sorted_desc_perm l : sorted_desc l ≡ₚ l.
Proof.
  induction l as [|x l IH]; simpl; [done|].
  unfold sorted_desc in *. simpl. by rewrite insert_desc_perm, IH.
Qed.

Lemma elem_of_sorted_desc s l : s ∈ sorted_desc l ↔ s ∈ l.
Proof. by rewrite sorted_desc_perm. Qed.

Lemma all_false_sorted_desc l : all_false (sorted_desc l) = all_false l.
Proof.
  apply map_eq. intros w. rewrite !all_false_lookup.
  assert (w ∈ word <$> sorted_desc l ↔ w ∈ word <$> l) as Hiff.
  { by rewrite sorted_desc_perm. }
  repeat case_decide; tauto.
Qed.

Lemma insert_desc_longest_first x l :
  longest_first l → longest_first (insert_desc x l).
Proof.
  induction l as [|y l IH]; intros Hl; simpl.
  - intros pre s post s' Heq Hin.
    destruct pre as [|? [|]]; simplify_eq/=; set_solver.
  - destruct (len (word y) <=? len (word x))%Z eqn:E.
    + intros pre s post s' Heq Hin. destruct pre as [|z pre]; simplify_eq/=.
      * apply Z.leb_le in E. unfold len in E.
        apply elem_of_cons in Hin as [->|Hin]; [lia|].
        specialize (Hl [] y l s' eq_refl Hin). lia.
      * eapply (Hl pre); eauto.
    + assert (longest_first l) as Hl'.
      { intros pre s post s' -> Hin. eapply (Hl (y :: pre)); eauto. }
      intros pre s post s' Heq Hin. destruct pre as [|z pre]; simplify_eq/=.
      * assert (s' ∈ insert_desc x l) as Hin' by done.
        rewrite insert_desc_perm in Hin'.
        apply Z.leb_gt in E. unfold len in E.
        apply elem_of_cons in Hin' as [->|Hin']; [lia|].
        apply list_elem_of_split in Hin' as (l1 & l2 & ->).
        eapply (Hl [] s); [done|]. set_solver.
      * eapply (IH Hl' pre); eauto.
Qed.

Lemma sorted_desc_longest_first l : longest_first (sorted_desc l).
Proof.
  induction l as [|x l IH]; simpl.
  - intros [|] ????; simplify_eq/=.
  - by apply insert_desc_longest_first.
Qed.

End SettingsFacts.
(** ** The lax loops

    From here on the facts are about the loops of [Lax], the engine with
    every string accepted.  The engine inherits them through the
    comparison made further down. *)

Section EngineFacts.

Implicit Types (st : state) (settings sorted : list setting).

Lemma keys_ok_cons s settings st :
  keys_ok (s :: settings) st → keys_ok settings st.
Proof. intros H x Hx. apply H. set_solver. Qed.

(** One turn of the [for] loop, with the two lookups resolved. *)
Lemma for_settings_cons mode i run text s rest st b1 b2 :
  global_applied st !! word s = Some b1 →
  items_applied_on_page st !! word s = Some b2 →
  Lax.for_settings mode i run text (s :: rest) st
  = if (bool_decide (mode = "once") && b1)
       || (bool_decide (mode = "per_page") && b2)
    then Lax.for_settings mode i run text rest st
    else if bool_decide (find text (word s) ≠ (-1)%Z)
         then inr (true, Lax.apply_match mode i run text
                           (find text (word s)) s st)
         else Lax.for_settings mode i run text rest st.
Proof.
  intros Hb1 Hb2. cbn [Lax.for_settings]. unfold getitem. rewrite Hb1, Hb2.
  destruct (bool_decide (mode = "once")), (bool_decide (mode = "per_page")),
    b1, b2; done.
Qed.

Lemma eligible_bool mode st w b1 b2 :
  global_applied st !! w = Some b1 →
  items_applied_on_page st !! w = Some b2 →
  eligible mode st w
  ↔ (bool_decide (mode = "once") && b1)
    || (bool_decide (mode = "per_page") && b2) = false.
Proof.
  intros Hb1 Hb2. unfold eligible. rewrite Hb1, Hb2.
  rewrite orb_false_iff, !andb_false_iff, !bool_decide_eq_false.
  split.
  - intros [H1 H2]. split.
    + destruct b1; [left; intros ?; by apply H1 | by right].
    + destruct b2; [left; intros ?; by apply H2 | by right].
  - intros [[H1|H1] [H2|H2]]; split; intros [? ?]; simplify_eq; done.
Qed.

Lemma for_settings_cases mode i run text settings st :
  keys_ok settings st →
  (Lax.for_settings mode i run text settings st = inr (false, st)
   ∧ ∀ s, s ∈ settings → eligible mode st (word s) →
          find text (word s) = (-1)%Z)
  ∨ (∃ pre s post, settings = pre ++ s :: post
       ∧ (∀ s', s' ∈ pre → eligible mode st (word s') →
                find text (word s') = (-1)%Z)
       ∧ eligible mode st (word s) ∧ find text (word s) ≠ (-1)%Z
       ∧ Lax.for_settings mode i run text settings st
         = inr (true, Lax.apply_match mode i run text
                        (find text (word s)) s st)).
Proof.
  induction settings as [|s rest IH]; intros Hk.
  - left. split; [done|]. intros s Hs. by apply elem_of_nil in Hs.
  - destruct (Hk s) as [[b1 Hb1] [b2 Hb2]]; [set_solver|].
    specialize (IH (keys_ok_cons _ _ _ Hk)).
    rewrite (for_settings_cons _ _ _ _ _ _ _ _ _ Hb1 Hb2).
    pose proof (eligible_bool mode st (word s) b1 b2 Hb1 Hb2) as Hel.
    destruct ((bool_decide (mode = "once") && b1)
              || (bool_decide (mode = "per_page") && b2)) eqn:Eskip;
      [|destruct (decide (find text (word s) = (-1)%Z)) as [Hf|Hf];
        [rewrite bool_decide_eq_false_2 by (intros ?; done)
        |rewrite bool_decide_eq_true_2 by done]].
    + destruct IH as [[-> Hall] | (pre & s0 & post & -> & Hpre & He & Hf & ->)].
      * left. split; [done|]. intros s0 [->|Hs0]%elem_of_cons; [|eauto].
        intros He%Hel. congruence.
      * right. exists (s :: pre), s0, post. split_and!; try done.
        intros s' [->|Hs']%elem_of_cons; [|eauto]. intros He'%Hel. congruence.
    + destruct IH as [[-> Hall] | (pre & s0 & post & -> & Hpre & He & Hf' & ->)].
      * left. split; [done|]. intros s0 [->|Hs0]%elem_of_cons; eauto.
      * right. exists (s :: pre), s0, post. split_and!; try done.
        intros s' [->|Hs']%elem_of_cons; eauto.
    + right. exists [], s, rest. split_and!; try done.
      * intros s' Hs'. by apply elem_of_nil in Hs'.
      * by apply Hel.
Qed.

Lemma keys_ok_reset_page sorted run st :
  keys_ok sorted st → keys_ok sorted (reset_page sorted run st).
Proof.
  intros Hk s Hs. destruct (Hk s Hs) as [H1 H2]. unfold reset_page. simpl.
  split; [done|]. destruct (has_page_break run); [|done].
  rewrite all_false_in by done. eauto.
Qed.

Lemma keys_ok_apply_match sorted mode i run text idx s st :
  keys_ok sorted st → keys_ok sorted (Lax.apply_match mode i run text idx s st).
Proof.
  intros Hk x Hx. destruct (Hk x Hx) as [H1 H2]. unfold Lax.apply_match. simpl.
  split; case_bool_decide; try done.
  - destruct (decide (word s = word x)) as [->|Hne].
    + rewrite lookup_insert_eq. eauto.
    + by rewrite lookup_insert_ne.
  - destruct (decide (word s = word x)) as [->|Hne].
    + rewrite lookup_insert_eq. eauto.
    + by rewrite lookup_insert_ne.
Qed.

(** The two ways through the loop body: the index advances and only the
    page tracker may have been reset, or the first eligible setting of
    the list whose word occurs in the run is applied and the index goes
    back to 0. *)
Lemma loop_body_cases mode sorted i run st :
  keys_ok sorted st →
  (Lax.loop_body mode sorted i run st = inr (S i, reset_page sorted run st)
   ∧ (run_text run = []
      ∨ ∀ s, s ∈ sorted → eligible mode (reset_page sorted run st) (word s) →
             find (run_text run) (word s) = (-1)%Z))
  ∨ (∃ pre s post, sorted = pre ++ s :: post
       ∧ run_text run ≠ []
       ∧ (∀ s', s' ∈ pre →
                eligible mode (reset_page sorted run st) (word s') →
                find (run_text run) (word s') = (-1)%Z)
       ∧ eligible mode (reset_page sorted run st) (word s)
       ∧ find (run_text run) (word s) ≠ (-1)%Z
       ∧ Lax.loop_body mode sorted i run st
         = inr (0, Lax.apply_match mode i run (run_text run)
                     (find (run_text run) (word s)) s
                     (reset_page sorted run st))).
Proof.
  intros Hk. apply (keys_ok_reset_page _ run) in Hk.
  unfold Lax.loop_body. fold (reset_page sorted run st).
  destruct (run_text run) as [|c text] eqn:Et; [left; eauto|].
  destruct (for_settings_cases mode i run (c :: text) sorted _ Hk)
    as [[-> Hall] | (pre & s & post & -> & Hpre & He & Hf & ->)].
  - left. eauto.
  - right. exists pre, s, post. split_and!; done.
Qed.

(** *** The [while] loop: fuel, invariants, termination *)

Lemma while_runs_mono mode sorted fuel fuel' i st st' :
  fuel ≤ fuel' →
  Lax.while_runs fuel mode sorted i st = inr st' →
  Lax.while_runs fuel' mode sorted i st = inr st'.
Proof.
  revert fuel' i st. induction fuel as [|fuel IH]; intros fuel' i st Hle.
  - destruct fuel'; simpl; destruct (runs (para st) !! i); done.
  - destruct fuel' as [|fuel']; [lia|]. simpl.
    destruct (runs (para st) !! i) as [run|]; [|done].
    destruct (Lax.loop_body mode sorted i run st) as [e|[i1 st1]]; [done|].
    simpl. apply IH. lia.
Qed.

Lemma while_runs_invariant mode sorted (P : nat → state → Prop) :
  (∀ i run st i' st', P i st → runs (para st) !! i = Some run →
     Lax.loop_body mode sorted i run st = inr (i', st') → P i' st') →
  ∀ fuel i st st', P i st →
    Lax.while_runs fuel mode sorted i st = inr st' →
    ∃ i', P i' st' ∧ runs (para st') !! i' = None.
Proof.
  intros Hstep. induction fuel as [|fuel IH]; intros i st st' HP; simpl.
  - destruct (runs (para st) !! i) eqn:E; [done|]. intros [= <-]. eauto.
  - destruct (runs (para st) !! i) as [run|] eqn:E;
      [|intros [= <-]; eauto].
    destruct (Lax.loop_body mode sorted i run st) as [e|[i1 st1]] eqn:Eb; [done|].
    simpl. apply IH. eapply Hstep; eauto.
Qed.

Lemma while_runs_terminates mode sorted (Inv : state → Prop) (μ : state → nat) :
  (∀ i run st, Inv st → runs (para st) !! i = Some run →
     ∃ i' st', Lax.loop_body mode sorted i run st = inr (i', st') ∧ Inv st'
       ∧ ((i' = S i ∧ runs (para st') = runs (para st) ∧ μ st' ≤ μ st)
          ∨ μ st' < μ st)) →
  ∀ st i, Inv st → ∃ fuel st', Lax.while_runs fuel mode sorted i st = inr st'.
Proof.
  intros Hstep.
  assert (∀ n k st i, μ st ≤ n → length (runs (para st)) - i ≤ k → Inv st →
            ∃ fuel st', Lax.while_runs fuel mode sorted i st = inr st') as H.
  { induction n as [n IHn] using lt_wf_ind.
    induction k as [|k IHk]; intros st i Hn Hk HI.
    - exists 0, st. cbn [Lax.while_runs]. rewrite lookup_ge_None_2; [done | lia].
    - destruct (runs (para st) !! i) as [run|] eqn:E.
      + destruct (Hstep i run st HI E)
          as (i' & st' & Eb & HI' & [(-> & Hr & Hμ) | Hμ]).
        * pose proof (lookup_lt_Some _ _ _ E) as Hlt.
          destruct (IHk st' (S i)) as (fuel & st'' & Hw);
            [lia | rewrite Hr; lia | done |].
          exists (S fuel), st''. cbn [Lax.while_runs]. rewrite E, Eb. exact Hw.
        * destruct (IHn (μ st') ltac:(lia) (length (runs (para st')) - i')
                      st' i') as (fuel & st'' & Hw); [lia | lia | done |].
          exists (S fuel), st''. cbn [Lax.while_runs]. rewrite E, Eb. exact Hw.
      + exists 0, st. cbn [Lax.while_runs]. by rewrite E. }
  intros st i HI. eapply H; eauto.
Qed.

End EngineFacts.
Section SpliceFacts.

Implicit Types (st : state) (p pre post : paragraph) (w r text : str).

(** The run written for the text after the match. *)
Lemma split_run_shape run text idx w r :
  Lax.split_run run text idx w r
  = [Lax.set_run_text (slice_to text idx) run; Lax.create_ruby_element w r]
    ++ match slice_from text (idx + len w) with
       | [] => []
       | after =>
           [Elem "w:r" [] None
              (option_list (rPr run)
               ++ [Elem "w:t"
                     (if bool_decide (head after = Some 32%N)
                         || bool_decide (last after = Some 32%N)
                      then [("xml:space", u "preserve")] else [])
                     (Some after) []])]
       end.
Proof.
  unfold Lax.split_run. destruct (slice_from text (idx + len w)) as [|c after]; [done|].
  rewrite rPr_set_run_text.
  assert ((0 <? len (c :: after))%Z = true) as ->.
  { apply Z.ltb_lt. unfold len. simpl. lia. }
  rewrite andb_true_l. simpl.
  destruct (rPr run);
    destruct (bool_decide (Some c = Some 32%N) || bool_decide (last (c :: after) = Some 32%N));
    done.
Qed.

Lemma rPr_tag run c : rPr run = Some c → tag c = "w:rPr".
Proof.
  unfold rPr. intros H. apply find_some in H as [_ H].
  by apply bool_decide_eq_true in H.
Qed.

Lemma ruby_base_text_create w r : ruby_base_text (Lax.create_ruby_element w r) = w.
Proof.
  change (ruby_base_text (Lax.create_ruby_element w r)) with (((w ++ []) ++ []) ++ []).
  by rewrite !app_nil_r.
Qed.

Lemma visible_text_app p q : visible_text (p ++ q) = visible_text p ++ visible_text q.
Proof. unfold visible_text. by rewrite runs_app, flat_map_app. Qed.


Lemma visible_text_run run p :
  tag run = "w:r" → visible_text (run :: p) = run_text run ++ visible_text p.
Proof.
  intros H. unfold visible_text, runs. rewrite filter_cons.
  by rewrite decide_True.
Qed.

Lemma visible_text_other c p :
  tag c ≠ "w:r" → visible_text (c :: p) = visible_text p.
Proof.
  intros H. unfold visible_text, runs. rewrite filter_cons.
  by rewrite decide_False.
Qed.

Lemma piece_run run : tag run = "w:r" → piece run = run_text run.
Proof. intros H. unfold piece, has_tag. by rewrite bool_decide_eq_true_2. Qed.

Lemma run_text_after_run o (a : list (string * str)) after :
  (∀ c, o = Some c → tag c = "w:rPr") →
  run_text (Elem "w:r" [] None (option_list o ++ [Elem "w:t" a (Some after) []]))
  = after.
Proof.
  intros Ho. unfold run_text. simpl. rewrite flat_map_app. simpl.
  rewrite app_nil_r. destruct o as [c|]; [|done]. simpl.
  by rewrite text_equiv_rPr, app_nil_r by eauto.
Qed.

(** The scannable text after a split: the text before the match, with
    carriage returns read as newlines, then the text after it. *)
Lemma visible_text_split_run run text idx w r :
  tag run = "w:r" →
  visible_text (Lax.split_run run text idx w r)
  = norm_cr (slice_to text idx) ++ slice_from text (idx + len w).
Proof.
  intros Ht. rewrite split_run_shape. cbn [app].
  rewrite visible_text_run by by rewrite tag_set_run_text.
  rewrite run_text_set_run_text. f_equal.
  rewrite visible_text_other by done.
  destruct (slice_from text (idx + len w)) as [|c after] eqn:E; [done|].
  rewrite visible_text_run by done.
  rewrite run_text_after_run by apply rPr_tag.
  unfold visible_text. simpl. by rewrite app_nil_r.
Qed.

(** The same with the annotation read as its base word. *)
Lemma restored_text_split_run run text idx w r :
  tag run = "w:r" →
  restored_text (Lax.split_run run text idx w r)
  = norm_cr (slice_to text idx) ++ w ++ slice_from text (idx + len w).
Proof.
  intros Ht. rewrite split_run_shape. unfold restored_text. cbn [app List.flat_map].
  rewrite piece_run by by rewrite tag_set_run_text.
  rewrite run_text_set_run_text. f_equal.
  replace (piece (Lax.create_ruby_element w r)) with w
    by (symmetry; apply ruby_base_text_create).
  f_equal.
  destruct (slice_from text (idx + len w)) as [|c after] eqn:E; [done|].
  cbn [List.flat_map]. rewrite piece_run by done.
  rewrite run_text_after_run by apply rPr_tag. apply app_nil_r.
Qed.

(** Where a match lands in the paragraph. *)
Lemma apply_match_para mode i run text idx s st :
  runs (para st) !! i = Some run →
  ∃ pre post,
    para st = pre ++ run :: post ∧ length (runs pre) = i
    ∧ para (Lax.apply_match mode i run text idx s st)
      = pre ++ Lax.split_run run text idx (word s) (ruby s) ++ post.
Proof.
  intros H.
  destruct (replace_run_split i run (para st)
              (Lax.split_run run text idx (word s) (ruby s)) H)
    as (pre & post & Hp & Hl & Hr).
  exists pre, post. by rewrite Hp at 1.
Qed.


End SpliceFacts.
Section LoopFacts.

Implicit Types (st : state) (p pre post : paragraph) (sorted : list setting).

(** Everything the proofs below use about one applied match. *)
Lemma splice_texts mode i run s st :
  runs (para st) !! i = Some run →
  find (run_text run) (word s) ≠ (-1)%Z →
  ∃ pre post before after,
    para st = pre ++ run :: post
    ∧ length (runs pre) = i
    ∧ tag run = "w:r"
    ∧ run_text run = before ++ word s ++ after
    ∧ (∀ a b, run_text run = a ++ word s ++ b → length before ≤ length a)
    ∧ para (Lax.apply_match mode i run (run_text run)
              (find (run_text run) (word s)) s st)
      = pre ++ Lax.split_run run (run_text run) (find (run_text run) (word s))
                 (word s) (ruby s) ++ post
    ∧ visible_text (Lax.split_run run (run_text run)
                      (find (run_text run) (word s)) (word s) (ruby s))
      = norm_cr before ++ after
    ∧ restored_text (Lax.split_run run (run_text run)
                       (find (run_text run) (word s)) (word s) (ruby s))
      = norm_cr before ++ word s ++ after.
Proof.
  intros Hi Hf.
  destruct (apply_match_para mode i run (run_text run)
              (find (run_text run) (word s)) s st Hi)
    as (pre & post & Hp & Hl & Hpara).
  destruct (find_hit _ _ Hf) as (Hge & Hsplit & Hfirst).
  pose proof (runs_lookup_tag _ _ _ Hi) as Htag.
  exists pre, post, (slice_to (run_text run) (find (run_text run) (word s))),
    (slice_from (run_text run) (find (run_text run) (word s) + len (word s))).
  split_and!; try done.
  - intros a b Hab. specialize (Hfirst a b Hab).
    unfold slice_to. rewrite length_take. unfold len in Hfirst. lia.
  - by apply visible_text_split_run.
  - by apply restored_text_split_run.
Qed.

Lemma length_norm_cr (s : str) : length (norm_cr s) = length s.
Proof. apply length_map. Qed.

(** The trackers keep an entry for every word throughout the loop. *)
Lemma loop_body_keys_ok mode sorted i run st i' st' :
  keys_ok sorted st →
  Lax.loop_body mode sorted i run st = inr (i', st') → keys_ok sorted st'.
Proof.
  intros Hk Hb.
  destruct (loop_body_cases mode sorted i run st Hk)
    as [[E _] | (pre & s & post & _ & _ & _ & _ & _ & E)];
    rewrite E in Hb; injection Hb as <- <-.
  - by apply keys_ok_reset_page.
  - by apply keys_ok_apply_match, keys_ok_reset_page.
Qed.

(** The loop body never raises. *)
Lemma loop_body_total mode sorted i run st :
  keys_ok sorted st → ∃ i' st', Lax.loop_body mode sorted i run st = inr (i', st').
Proof.
  intros Hk.
  destruct (loop_body_cases mode sorted i run st Hk)
    as [[E _] | (pre & s & post & _ & _ & _ & _ & _ & E)]; eauto.
Qed.

Lemma while_runs_keys_ok mode sorted fuel i st st' :
  keys_ok sorted st →
  Lax.while_runs fuel mode sorted i st = inr st' → keys_ok sorted st'.
Proof.
  intros Hk Hw.
  destruct (while_runs_invariant mode sorted (λ _ st, keys_ok sorted st))
    with (fuel := fuel) (i := i) (st := st) (st' := st') as (i' & H & _);
    try done.
  intros ????? H1 _ H2. eapply loop_body_keys_ok; eauto.
Qed.

(** The loop can only stop by running out of fuel: no [KeyError]. *)
Lemma while_runs_no_KeyError mode sorted fuel i st k :
  keys_ok sorted st → Lax.while_runs fuel mode sorted i st ≠ inl (KeyError k).
Proof.
  revert i st. induction fuel as [|fuel IH]; intros i st Hk;
    cbn [Lax.while_runs]; destruct (runs (para st) !! i) as [run|]; try done.
  destruct (loop_body_total mode sorted i run st Hk) as (i' & st' & E).
  rewrite E. cbn [bind]. apply IH. eapply loop_body_keys_ok; eauto.
Qed.

(** A match of a word that is not empty shortens the scannable text. *)
Lemma splice_shortens mode i run s st :
  runs (para st) !! i = Some run →
  find (run_text run) (word s) ≠ (-1)%Z →
  word s ≠ [] →
  length (visible_text (para (Lax.apply_match mode i run (run_text run)
                                (find (run_text run) (word s)) s st)))
  < length (visible_text (para st)).
Proof.
  intros Hi Hf Hw.
  destruct (splice_texts mode i run s st Hi Hf)
    as (pre & post & before & after & Hp & _ & Htag & Ht & _ & -> & Hv & _).
  rewrite Hp, !visible_text_app, Hv, visible_text_run by done.
  rewrite Ht, !length_app, length_norm_cr.
  destruct (word s); [done|]. simpl. lia.
Qed.

(** Termination of the paragraph loop when no word is empty. *)
Lemma while_runs_terminates_nonempty mode sorted st i :
  (∀ s, s ∈ sorted → word s ≠ []) →
  keys_ok sorted st →
  ∃ fuel st', Lax.while_runs fuel mode sorted i st = inr st'.
Proof.
  intros Hne.
  apply (while_runs_terminates mode sorted (keys_ok sorted)
           (λ st, length (visible_text (para st)))).
  intros j run st0 Hk Hj.
  destruct (loop_body_cases mode sorted j run st0 Hk)
    as [[E _] | (pre & s & post & Hs & _ & _ & _ & Hf & E)].
  - eexists _, _. split; [exact E|]. split; [by apply keys_ok_reset_page|].
    left. done.
  - eexists _, _. split; [exact E|].
    split; [by apply keys_ok_apply_match, keys_ok_reset_page|].
    right. apply (splice_shortens mode j run s (reset_page sorted run st0)); try done.
    apply Hne. rewrite Hs. set_solver.
Qed.

End LoopFacts.
Section DocumentFacts.

Implicit Types (st : state) (p : paragraph) (doc : document)
  (sorted settings : list setting) (ga pg : dict).

Lemma keys_ok_initial settings p :
  keys_ok (sorted_desc settings)
    (State p (all_false settings) (all_false (sorted_desc settings))).
Proof.
  intros s Hs. cbn [global_applied items_applied_on_page].
  rewrite all_false_sorted_desc. apply (proj1 (elem_of_sorted_desc _ _)) in Hs.
  rewrite (all_false_in _ _ Hs). eauto.
Qed.

Lemma for_paragraphs_cons mode sorted fuel p doc ga pg res :
  Lax.for_paragraphs fuel mode sorted (p :: doc) ga pg = inr res →
  ∃ st doc' ga' pg',
    Lax.while_runs fuel mode sorted 0 (State p ga pg) = inr st
    ∧ Lax.for_paragraphs fuel mode sorted doc
        (global_applied st) (items_applied_on_page st) = inr (doc', ga', pg')
    ∧ res = (para st :: doc', ga', pg').
Proof.
  cbn [Lax.for_paragraphs].
  destruct (Lax.while_runs fuel mode sorted 0 (State p ga pg)) as [e|st]; [done|].
  cbn [bind].
  destruct (Lax.for_paragraphs fuel mode sorted doc _ _)
    as [e|[[doc' ga'] pg']] eqn:E; [done|].
  cbn [bind ret]. intros [= <-]. exists st, doc', ga', pg'. done.
Qed.

Lemma for_paragraphs_mono mode sorted fuel fuel' doc ga pg res :
  fuel ≤ fuel' →
  Lax.for_paragraphs fuel mode sorted doc ga pg = inr res →
  Lax.for_paragraphs fuel' mode sorted doc ga pg = inr res.
Proof.
  intros Hle. revert ga pg res. induction doc as [|p doc IH]; intros ga pg res;
    [done|].
  intros (st & doc' & ga' & pg' & Hw & Hd & ->)%for_paragraphs_cons.
  cbn [Lax.for_paragraphs].
  rewrite (while_runs_mono _ _ _ _ _ _ _ Hle Hw). cbn [bind].
  by rewrite (IH _ _ _ Hd).
Qed.

Lemma for_paragraphs_no_KeyError mode sorted fuel doc ga pg k :
  keys_ok sorted (State [] ga pg) →
  Lax.for_paragraphs fuel mode sorted doc ga pg ≠ inl (KeyError k).
Proof.
  revert ga pg. induction doc as [|p doc IH]; intros ga pg Hk; [done|].
  cbn [Lax.for_paragraphs].
  destruct (Lax.while_runs fuel mode sorted 0 (State p ga pg)) as [e|st] eqn:E.
  - cbn [bind]. destruct e; [|done..]. exfalso.
    by eapply (while_runs_no_KeyError mode sorted fuel 0 (State p ga pg)).
  - cbn [bind]. apply while_runs_keys_ok in E; [|done].
    specialize (IH (global_applied st) (items_applied_on_page st) E).
    destruct (Lax.for_paragraphs fuel mode sorted doc _ _) as [e|[[doc' ga'] pg']];
      [|done].
    cbn [bind]. congruence.
Qed.

(** If the paragraph loop terminates from every state with complete
    trackers, so does the pass over the document. *)
Lemma for_paragraphs_terminates mode sorted :
  (∀ st, keys_ok sorted st →
         ∃ fuel st', Lax.while_runs fuel mode sorted 0 st = inr st') →
  ∀ doc ga pg, keys_ok sorted (State [] ga pg) →
    ∃ fuel res, Lax.for_paragraphs fuel mode sorted doc ga pg = inr res.
Proof.
  intros Hpar. induction doc as [|p doc IH]; intros ga pg Hk.
  - by exists 0, ([], ga, pg).
  - destruct (Hpar (State p ga pg) Hk) as (f1 & st & Hw).
    pose proof (while_runs_keys_ok _ _ _ _ (State p ga pg) _ Hk Hw) as Hk'.
    destruct (IH (global_applied st) (items_applied_on_page st) Hk')
      as (f2 & [[doc' ga'] pg'] & Hd).
    exists (f1 `max` f2), (para st :: doc', ga', pg').
    cbn [Lax.for_paragraphs].
    rewrite (while_runs_mono _ _ f1 (f1 `max` f2) _ _ _ ltac:(lia) Hw).
    cbn [bind].
    by rewrite (for_paragraphs_mono _ _ f2 (f1 `max` f2) _ _ _ _ ltac:(lia) Hd).
Qed.

Lemma apply_ruby_to_document_inr fuel doc settings mode doc' :
  Lax.apply_ruby_to_document fuel doc settings mode = inr doc' ↔
  ∃ ga pg, Lax.run_engine fuel doc settings mode = inr (doc', ga, pg).
Proof.
  unfold Lax.apply_ruby_to_document.
  destruct (Lax.run_engine fuel doc settings mode) as [e|[[d ga] pg]]; cbn [bind ret].
  - split; [done | by intros (? & ? & ?)].
  - split; [intros [= <-]; eauto | by intros (? & ? & [= -> _ _])].
Qed.

End DocumentFacts.
Section IdleFacts.

Implicit Types (st : state) (p pre post : paragraph) (sorted : list setting)
  (ga pg : dict).

Lemma replace_run_app pre r post new :
  tag r = "w:r" →
  replace_run (length (runs pre)) new (pre ++ r :: post) = pre ++ new ++ post.
Proof.
  intros Hr. induction pre as [|c pre IH]; simpl.
  - by rewrite decide_True.
  - unfold runs. rewrite filter_cons. case_decide; simpl; by rewrite <- IH.
Qed.

(** A loop with nothing to apply walks to the end of the paragraph and
    leaves it, and the document-wide tracker, as they are. *)
Lemma while_runs_idle mode sorted p ga :
  (∀ run pg s, run ∈ runs p → s ∈ sorted → run_text run ≠ [] →
     keys_ok sorted (State p ga pg) →
     eligible mode (State p ga pg) (word s) →
     find (run_text run) (word s) = (-1)%Z) →
  ∀ k i pg, length (runs p) - i ≤ k → keys_ok sorted (State p ga pg) →
    ∃ pg', keys_ok sorted (State p ga pg')
      ∧ ∀ fuel, k ≤ fuel →
          Lax.while_runs fuel mode sorted i (State p ga pg) = inr (State p ga pg').
Proof.
  intros Hidle. induction k as [|k IH]; intros i pg Hlen Hk.
  - exists pg. split; [done|]. intros fuel _.
    destruct fuel; cbn [Lax.while_runs para];
      rewrite lookup_ge_None_2; done || lia.
  - destruct (runs p !! i) as [run|] eqn:E.
    + pose proof (lookup_lt_Some _ _ _ E) as Hlt.
      pose proof (list_elem_of_lookup_2 _ _ _ E) as Hin.
      assert (Lax.loop_body mode sorted i run (State p ga pg)
              = inr (S i, reset_page sorted run (State p ga pg))) as Hb.
      { destruct (loop_body_cases mode sorted i run (State p ga pg) Hk)
          as [[Eb _] | (pre & s & post & Hs & Hne & _ & He & Hf & _)]; [done|].
        exfalso. apply Hf.
        eapply (Hidle run _ s); [done | rewrite Hs; set_solver | done | | exact He].
        by apply (keys_ok_reset_page _ run) in Hk. }
      destruct (IH (S i) (items_applied_on_page
                            (reset_page sorted run (State p ga pg))))
        as (pg' & Hk' & Hw); [lia | by apply (keys_ok_reset_page _ run) in Hk |].
      exists pg'. split; [done|]. intros [|fuel] Hfuel; [lia|].
      cbn [Lax.while_runs para]. rewrite E, Hb. cbn [bind]. apply Hw. lia.
    + exists pg. split; [done|]. intros fuel _.
      destruct fuel; cbn [Lax.while_runs para]; by rewrite E.
Qed.

End IdleFacts.
Section TextFacts.

Implicit Types (st : state) (p pre post : paragraph) (sorted : list setting).



Lemma annotation_nodes_cons c p :
  annotation_nodes (c :: p)
  = if decide (tag c = "w:ruby") then c :: annotation_nodes p
    else annotation_nodes p.
Proof. unfold annotation_nodes. by rewrite filter_cons. Qed.






End TextFacts.
Section OtherModes.

Context (mode : string) (Honce : mode ≠ "once") (Hpage : mode ≠ "per_page").

Implicit Types (st : state) (p : paragraph) (sorted settings : list setting)
  (ga pg : dict).

Lemma apply_match_other i run text idx s st :
  Lax.apply_match mode i run text idx s st
  = State (replace_run i (Lax.split_run run text idx (word s) (ruby s)) (para st))
          (global_applied st) (items_applied_on_page st).
Proof. unfold Lax.apply_match. by rewrite !bool_decide_eq_false_2. Qed.

Lemma for_settings_other_cons i run text s rest st :
  Lax.for_settings mode i run text (s :: rest) st
  = if bool_decide (find text (word s) ≠ (-1)%Z)
    then inr (true, Lax.apply_match mode i run text (find text (word s)) s st)
    else Lax.for_settings mode i run text rest st.
Proof.
  cbn [Lax.for_settings]. rewrite !bool_decide_eq_false_2 by done.
  by cbn [bind ret].
Qed.

Lemma for_settings_as_all i run text settings st :
  Lax.for_settings mode i run text settings st
  = Lax.for_settings "all" i run text settings st.
Proof.
  induction settings as [|s rest IH]; [done|].
  rewrite for_settings_other_cons. cbn [Lax.for_settings].
  change (bool_decide ("all" = "once")) with false.
  change (bool_decide ("all" = "per_page")) with false. cbn [bind ret].
  rewrite IH, apply_match_other. done.
Qed.

Lemma loop_body_as_all sorted i run st :
  Lax.loop_body mode sorted i run st = Lax.loop_body "all" sorted i run st.
Proof.
  unfold Lax.loop_body. destruct (run_text run); [done|].
  by rewrite for_settings_as_all.
Qed.

Lemma while_runs_as_all fuel sorted i st :
  Lax.while_runs fuel mode sorted i st = Lax.while_runs fuel "all" sorted i st.
Proof.
  revert i st. induction fuel as [|fuel IH]; intros i st; [done|].
  cbn [Lax.while_runs]. destruct (runs (para st) !! i) as [run|]; [|done].
  rewrite loop_body_as_all.
  destruct (Lax.loop_body "all" sorted i run st) as [e|[i' st']]; [done|].
  cbn [bind]. apply IH.
Qed.

Lemma for_paragraphs_as_all fuel sorted doc ga pg :
  Lax.for_paragraphs fuel mode sorted doc ga pg
  = Lax.for_paragraphs fuel "all" sorted doc ga pg.
Proof.
  revert ga pg. induction doc as [|p doc IH]; intros ga pg; [done|].
  cbn [Lax.for_paragraphs]. rewrite while_runs_as_all.
  destruct (Lax.while_runs fuel "all" sorted 0 (State p ga pg)) as [e|st]; [done|].
  cbn [bind]. by rewrite IH.
Qed.

(** The [for] loop in these modes: which setting is applied depends on
    the text alone, and the trackers come back as they went in. *)
Lemma for_settings_other_cases i run text settings p :
  ((∀ s, s ∈ settings → find text (word s) = (-1)%Z)
   ∧ ∀ ga pg, Lax.for_settings mode i run text settings (State p ga pg)
              = inr (false, State p ga pg))
  ∨ (∃ s, s ∈ settings ∧ find text (word s) ≠ (-1)%Z
       ∧ ∀ ga pg, Lax.for_settings mode i run text settings (State p ga pg)
           = inr (true, State (replace_run i
                    (Lax.split_run run text (find text (word s)) (word s) (ruby s))
                    p) ga pg)).
Proof.
  induction settings as [|s rest IH].
  - left. split; [|done]. intros s Hs. by apply elem_of_nil in Hs.
  - destruct (decide (find text (word s) = (-1)%Z)) as [Hf|Hf].
    + destruct IH as [[Hall E] | (s0 & Hs0 & Hf0 & E)].
      * left. split.
        -- intros s0 [->|Hs0]%elem_of_cons; eauto.
        -- intros ga pg. rewrite for_settings_other_cons.
           rewrite bool_decide_eq_false_2 by (intros ?; done). apply E.
      * right. exists s0. split_and!; [set_solver | done |].
        intros ga pg. rewrite for_settings_other_cons.
        rewrite bool_decide_eq_false_2 by (intros ?; done). apply E.
    + right. exists s. split_and!; [set_solver | done |].
      intros ga pg. rewrite for_settings_other_cons.
      rewrite bool_decide_eq_true_2 by done. by rewrite apply_match_other.
Qed.

Lemma loop_body_other_cases sorted i run p :
  (∀ ga pg, Lax.loop_body mode sorted i run (State p ga pg)
            = inr (S i, State p ga (if has_page_break run
                                    then all_false sorted else pg)))
  ∧ (∀ s, s ∈ sorted → run_text run ≠ [] →
          find (run_text run) (word s) = (-1)%Z)
  ∨ ∃ p', ∀ ga pg, Lax.loop_body mode sorted i run (State p ga pg)
            = inr (0, State p' ga (if has_page_break run
                                   then all_false sorted else pg)).
Proof.
  unfold Lax.loop_body. cbn [para global_applied items_applied_on_page].
  destruct (run_text run) as [|c text] eqn:Et.
  - left. split; [done|]. intros s _ Hne. done.
  - destruct (for_settings_other_cases i run (c :: text) sorted p)
      as [[Hall E] | (s & Hs & Hf & E)].
    + left. split; [|by eauto]. intros ga pg. by rewrite E.
    + right. eexists. intros ga pg. by rewrite E.
Qed.

Lemma while_runs_other sorted fuel : ∀ i p,
  clean_upto sorted i p →
  (∀ ga pg, Lax.while_runs fuel mode sorted i (State p ga pg) = inl Diverges)
  ∨ ∃ p', clean_upto sorted (length (runs p')) p'
      ∧ ∀ ga pg, ∃ pg', (pg' = pg ∨ pg' = all_false sorted)
          ∧ Lax.while_runs fuel mode sorted i (State p ga pg)
            = inr (State p' ga pg').
Proof.
  induction fuel as [|fuel IH]; intros i p Hc; cbn [Lax.while_runs para].
  - destruct (runs p !! i) as [run|] eqn:E; [by left|].
    right. exists p. split; [|by eauto].
    intros j run s Hj. apply Hc. apply lookup_ge_None in E. lia.
  - destruct (runs p !! i) as [run|] eqn:E.
    + destruct (loop_body_other_cases sorted i run p) as [[Eb Hno] | [p' Eb]].
      * destruct (IH (S i) p) as [Hd | (p' & Hc' & Hw)].
        { intros j run' s Hj Hr Hs Hne.
          destruct (decide (j = i)) as [->|]; [|apply (Hc j run'); auto; lia].
          rewrite E in Hr. injection Hr as <-. by apply Hno. }
        -- left. intros ga pg. rewrite Eb. cbn [bind]. apply Hd.
        -- right. exists p'. split; [done|]. intros ga pg. rewrite Eb.
           cbn [bind].
           destruct (Hw ga (if has_page_break run then all_false sorted else pg))
             as (pg' & Hpg & ->).
           exists pg'. split; [|done].
           destruct (has_page_break run); tauto.
      * destruct (IH 0 p') as [Hd | (p'' & Hc' & Hw)].
        { intros j ??; lia. }
        -- left. intros ga pg. rewrite Eb. cbn [bind]. apply Hd.
        -- right. exists p''. split; [done|]. intros ga pg. rewrite Eb.
           cbn [bind].
           destruct (Hw ga (if has_page_break run then all_false sorted else pg))
             as (pg' & Hpg & ->).
           exists pg'. split; [|done].
           destruct (has_page_break run); tauto.
    + right. exists p. split; [|by eauto].
      intros j run s Hj. apply Hc. apply lookup_ge_None in E. lia.
Qed.

Lemma for_paragraphs_other sorted fuel doc :
  (∀ ga pg, Lax.for_paragraphs fuel mode sorted doc ga pg = inl Diverges)
  ∨ ∃ doc', Forall (λ p', clean_upto sorted (length (runs p')) p') doc'
      ∧ ∀ ga pg, ∃ pg', (pg' = pg ∨ pg' = all_false sorted)
          ∧ Lax.for_paragraphs fuel mode sorted doc ga pg = inr (doc', ga, pg').
Proof.
  induction doc as [|p doc IH]; cbn [Lax.for_paragraphs].
  - right. exists []. split; [constructor|]. by eauto.
  - destruct (while_runs_other sorted fuel 0 p) as [Hd | (p' & Hc & Hw)].
    { intros j ??; lia. }
    + left. intros ga pg. by rewrite Hd.
    + destruct IH as [Hd | (doc' & Hcs & Hrest)].
      * left. intros ga pg. destruct (Hw ga pg) as (pg' & _ & ->).
        cbn [bind global_applied items_applied_on_page]. by rewrite Hd.
      * right. exists (p' :: doc'). split; [by constructor|].
        intros ga pg. destruct (Hw ga pg) as (pg1 & Hpg1 & ->).
        cbn [bind global_applied items_applied_on_page para].
        destruct (Hrest ga pg1) as (pg2 & Hpg2 & ->). cbn [bind ret].
        exists pg2. split; [|done]. intuition congruence.
Qed.

End OtherModes.
Section OnceFacts.

Implicit Types (st : state) (p pre post : paragraph)
  (sorted settings : list setting) (ga pg : dict) (w : str).

Lemma annotations_of_app w p q :
  annotations_of w (p ++ q) = annotations_of w p + annotations_of w q.
Proof. unfold annotations_of. by rewrite filter_app, length_app. Qed.

Lemma annotations_of_cons_run w c p :
  tag c = "w:r" → annotations_of w (c :: p) = annotations_of w p.
Proof.
  intros H. unfold annotations_of. rewrite filter_cons.
  rewrite decide_False; [done|]. intros [Ht _]. congruence.
Qed.

Lemma annotations_of_split_run w run text idx w' r :
  tag run = "w:r" →
  annotations_of w (Lax.split_run run text idx w' r)
  = if decide (w = w') then 1 else 0.
Proof.
  intros Ht. rewrite split_run_shape. cbn [app].
  rewrite annotations_of_cons_run by by rewrite tag_set_run_text.
  assert (annotations_of w
            match slice_from text (idx + len w') with
            | [] => []
            | after =>
                [Elem "w:r" [] None
                   (option_list (rPr run)
                    ++ [Elem "w:t"
                          (if bool_decide (head after = Some 32%N)
                              || bool_decide (last after = Some 32%N)
                           then [("xml:space", u "preserve")] else [])
                          (Some after) []])]
            end = 0) as Hafter.
  { destruct (slice_from text (idx + len w')); [done|].
    by rewrite annotations_of_cons_run. }
  unfold annotations_of in *. rewrite filter_cons.
  destruct (decide (is_annotation_of w (Lax.create_ruby_element w' r)))
    as [[_ Hb]|Hn]; cbn [length]; rewrite Hafter.
  - rewrite ruby_base_text_create in Hb. by rewrite decide_True.
  - rewrite decide_False; [done|]. intros ->. apply Hn.
    split; [done | apply ruby_base_text_create].
Qed.







(** *** Termination in [once] mode, whatever the words *)




End OnceFacts.
Section SkipFacts.

Implicit Types (st : state) (p pre post : paragraph)
  (sorted settings : list setting) (ga pg : dict).


End SkipFacts.

Section OnceSingle.

Context (w r : str).

Implicit Types (st : state) (p pre post : paragraph) (ga pg : dict)
  (doc : document).








End OnceSingle.
Section MarkedFacts.

Implicit Types (st : state) (p : paragraph) (sorted : list setting)
  (ga pg : dict) (w : str).



End MarkedFacts.

Section ReturnFacts.

(** With no empty word the lax loops return a document, the same for every
    fuel above some bound. *)
Lemma engine_returns_nonempty (doc : document) (settings : list setting)
    (mode : string) :
  (∀ s, s ∈ settings → word s ≠ []) →
  ∃ fuel0 doc', ∀ fuel, fuel0 ≤ fuel →
    Lax.apply_ruby_to_document fuel doc settings mode = inr doc'.
Proof.
  intros Hne.
  destruct (for_paragraphs_terminates mode (sorted_desc settings))
    with (doc := doc) (ga := all_false settings)
         (pg := all_false (sorted_desc settings))
    as (fuel0 & [[doc' ga'] pg'] & Hd).
  - intros st Hk. apply while_runs_terminates_nonempty; [|done].
    intros s Hs. apply Hne. by apply elem_of_sorted_desc.
  - apply keys_ok_initial.
  - exists fuel0, doc'. intros fuel Hle.
    apply apply_ruby_to_document_inr. exists ga', pg'.
    unfold Lax.run_engine. eapply for_paragraphs_mono; eauto.
Qed.

End ReturnFacts.

(** ** Splits, idle runs and counting in the lax loops *)

(** A decidable closed statement, settled by evaluating its decision. *)
Ltac by_computation :=
  match goal with
  | |- ?P => apply (bool_decide_unpack P); vm_compute; exact I
  end.

Section StepShape.

Implicit Types (st : state) (p pre post : paragraph)
  (sorted settings : list setting) (ga pg : dict).

Lemma eligible_same_word mode st w w' :
  w = w' → eligible mode st w → eligible mode st w'.
Proof. by intros ->. Qed.

(** What one pass of the loop body does to the paragraph: nothing, or the
    split of the run at hand for the first setting of the list with its
    word. *)
Lemma loop_body_shape mode sorted i run st i' st' :
  keys_ok sorted st →
  runs (para st) !! i = Some run →
  Lax.loop_body mode sorted i run st = inr (i', st') →
  para st' = para st
  ∨ ∃ pre post s earlier later,
      sorted = earlier ++ s :: later
      ∧ (∀ s', s' ∈ earlier → word s' ≠ word s)
      ∧ para st = pre ++ run :: post
      ∧ tag run = "w:r" ∧ run_text run ≠ []
      ∧ find (run_text run) (word s) ≠ (-1)%Z
      ∧ para st'
        = pre ++ Lax.split_run run (run_text run) (find (run_text run) (word s))
                   (word s) (ruby s) ++ post.
Proof.
  intros Hk Hi Hb.
  destruct (loop_body_cases mode sorted i run st Hk)
    as [[E _] | (earlier & s & later & Hs & Hne & Hpre & He & Hf & E)];
    rewrite E in Hb; injection Hb as <- <-; [left; reflexivity|].
  right.
  destruct (splice_texts mode i run s (reset_page sorted run st) Hi Hf)
    as (pre & post & before & after & Hp & _ & Htag & _ & _ & Hpara & _ & _).
  exists pre, post, s, earlier, later. split_and!; try done.
  intros s' Hs' Hw. apply Hf. rewrite <- Hw. apply Hpre; [done|].
  by apply (eligible_same_word _ _ (word s)).
Qed.

End StepShape.

Section StableSort.

Context (P : setting → Prop) `{∀ x, Decision (P x)}.
Context (Hlen : ∀ a b, P a → P b → length (word a) = length (word b)).

Lemma filter_insert_desc x l :
  filter P (insert_desc x l)
  = if decide (P x) then x :: filter P l else filter P l.
Proof.
  induction l as [|y l IH]; cbn [insert_desc].
  - by rewrite filter_cons, filter_nil.
  - destruct (len (word y) <=? len (word x))%Z eqn:E.
    + by rewrite filter_cons.
    + apply Z.leb_gt in E. unfold len in E.
      rewrite (filter_cons _ y), IH, (filter_cons _ y).
      destruct (decide (P x)) as [Hx|Hx]; [|done].
      destruct (decide (P y)) as [Hy|Hy]; [|done].
      pose proof (Hlen _ _ Hx Hy). lia.
Qed.

(** Entries that [P] selects, all of one word length, come out of the
    sort in the order they went in. *)
Lemma filter_sorted_desc l : filter P (sorted_desc l) = filter P l.
Proof.
  induction l as [|x l IH]; [done|].
  change (sorted_desc (x :: l)) with (insert_desc x (sorted_desc l)).
  by rewrite filter_insert_desc, IH, filter_cons.
Qed.

End StableSort.

Section Provenance.

Implicit Types (st : state) (p pre post : paragraph)
  (sorted settings : list setting) (ga pg : dict).

Lemma filter_none {A} (Q : A → Prop) `{∀ x, Decision (Q x)} (l : list A) :
  (∀ x, x ∈ l → ¬ Q x) → filter Q l = [].
Proof.
  induction l as [|a l IH]; intros Hl; [done|].
  rewrite filter_cons, decide_False by (apply Hl; set_solver).
  apply IH. intros x Hx. apply Hl. set_solver.
Qed.

Lemma first_in_sorted_desc settings earlier s later :
  sorted_desc settings = earlier ++ s :: later →
  (∀ s', s' ∈ earlier → word s' ≠ word s) →
  first_with_word settings s.
Proof.
  intros Hs Hfirst. unfold first_with_word.
  rewrite <- (filter_sorted_desc (λ x, word x = word s)).
  - rewrite Hs, filter_app, filter_cons, decide_True by done.
    assert (filter (λ x, word x = word s) earlier = []) as ->; [|done].
    apply filter_none. intros s' Hs'. by apply Hfirst.
  - intros a b Ha Hb. congruence.
Qed.

Lemma runs_split_run run text idx w r :
  tag run = "w:r" →
  runs (Lax.split_run run text idx w r)
  = Lax.set_run_text (slice_to text idx) run
    :: match slice_from text (idx + len w) with
       | [] => []
       | after =>
           [Elem "w:r" [] None
              (option_list (rPr run)
               ++ [Elem "w:t"
                     (if bool_decide (head after = Some 32%N)
                         || bool_decide (last after = Some 32%N)
                      then [("xml:space", u "preserve")] else [])
                     (Some after) []])]
       end.
Proof.
  intros Ht. rewrite split_run_shape. cbn [app]. unfold runs.
  rewrite filter_cons, decide_True by by rewrite tag_set_run_text.
  rewrite filter_cons, decide_False by done.
  destruct (slice_from text (idx + len w)); [done|].
  by rewrite filter_cons, decide_True.
Qed.

Lemma annotation_nodes_app p q :
  annotation_nodes (p ++ q) = annotation_nodes p ++ annotation_nodes q.
Proof. apply filter_app. Qed.

Lemma annotation_nodes_split_run run text idx w r :
  tag run = "w:r" →
  annotation_nodes (Lax.split_run run text idx w r) = [Lax.create_ruby_element w r].
Proof.
  intros Ht. rewrite split_run_shape. cbn [app].
  rewrite annotation_nodes_cons, decide_False
    by (rewrite tag_set_run_text, Ht; done).
  rewrite annotation_nodes_cons, decide_True by done.
  destruct (slice_from text (idx + len w)); [done|].
  by rewrite annotation_nodes_cons, decide_False.
Qed.

Lemma annotation_nodes_cons_run c p :
  tag c = "w:r" → annotation_nodes (c :: p) = annotation_nodes p.
Proof.
  intros H. rewrite annotation_nodes_cons, decide_False; [done|].
  rewrite H. done.
Qed.

Lemma rPr_after_run o (a : list (string * str)) after :
  (∀ c, o = Some c → tag c = "w:rPr") →
  rPr (Elem "w:r" [] None (option_list o ++ [Elem "w:t" a (Some after) []]))
  = o.
Proof.
  intros Ho. destruct o as [c|]; [|done].
  pose proof (Ho c eq_refl) as Hc.
  destruct c as [t a0 x cs]. simpl in Hc. subst t. reflexivity.
Qed.

End Provenance.

Section Idle.

Implicit Types (st : state) (p pre post : paragraph) (doc : document)
  (sorted settings : list setting) (ga pg : dict).

Lemma for_paragraphs_idle mode sorted doc ga :
  Forall (λ p, Forall (unmatchable sorted) (runs p)) doc →
  ∀ pg, keys_ok sorted (State [] ga pg) →
    ∃ pg' fuel0, keys_ok sorted (State [] ga pg')
      ∧ ∀ fuel, fuel0 ≤ fuel →
          Lax.for_paragraphs fuel mode sorted doc ga pg = inr (doc, ga, pg').
Proof.
  induction 1 as [|p doc Hp Hdoc IH]; intros pg Hk.
  - exists pg, 0. split; [done|]. done.
  - destruct (while_runs_idle mode sorted p ga)
      with (k := length (runs p)) (i := 0) (pg := pg) as (pg1 & Hk1 & Hw).
    + intros run pg0 s Hrun Hs Hne _ _.
      rewrite Forall_forall in Hp. destruct (Hp run Hrun) as [Hemp|Hall];
        [done|].
      rewrite Forall_forall in Hall. by apply Hall.
    + lia.
    + done.
    + destruct (IH pg1 Hk1) as (pg2 & f2 & Hk2 & Hd).
      exists pg2, (length (runs p) `max` f2). split; [done|].
      intros fuel Hfuel. cbn [Lax.for_paragraphs]. rewrite Hw by lia.
      cbn [bind global_applied items_applied_on_page para].
      by rewrite Hd by lia.
Qed.

Lemma unmatchable_sorted_desc settings c :
  unmatchable (sorted_desc settings) c ↔ unmatchable settings c.
Proof.
  unfold unmatchable. rewrite !Forall_forall.
  split; (intros [?|H]; [by left | right; intros s Hs; apply H]);
    by apply elem_of_sorted_desc.
Qed.

(** With nothing to match the lax loops return the document they were
    given. *)
Lemma engine_idle doc settings mode :
  Forall (λ p, Forall (unmatchable settings) (runs p)) doc →
  ∃ fuel0, ∀ fuel, fuel0 ≤ fuel →
    Lax.apply_ruby_to_document fuel doc settings mode = inr doc.
Proof.
  intros Hdoc.
  destruct (for_paragraphs_idle mode (sorted_desc settings) doc
              (all_false settings))
    with (pg := all_false (sorted_desc settings)) as (pg' & f0 & _ & H).
  - eapply Forall_impl; [exact Hdoc|]. intros p Hp.
    eapply Forall_impl; [exact Hp|]. intros c. apply unmatchable_sorted_desc.
  - apply (keys_ok_initial settings []).
  - exists f0. intros fuel Hle. unfold Lax.apply_ruby_to_document, Lax.run_engine.
    by rewrite H.
Qed.

Lemma clean_runs_unmatchable sorted p :
  clean_upto sorted (length (runs p)) p → Forall (unmatchable sorted) (runs p).
Proof.
  intros Hc. apply Forall_forall. intros run Hrun.
  apply list_elem_of_lookup in Hrun as [j Hj].
  destruct (decide (run_text run = [])) as [?|Hne]; [by left|]. right.
  apply Forall_forall. intros s Hs. eapply (Hc j run s); eauto.
  by eapply lookup_lt_Some.
Qed.

End Idle.

Section Relations.

Implicit Types (p q pre post : paragraph) (settings : list setting).

Lemma formatting_from_split pre run post text idx w r :
  tag run = "w:r" →
  formatting_from (pre ++ run :: post)
    (pre ++ Lax.split_run run text idx w r ++ post).
Proof.
  intros Ht run'. rewrite !runs_app, runs_split_run by done.
  assert (runs (run :: post) = run :: runs post) as ->.
  { unfold runs. by rewrite filter_cons, decide_True. }
  rewrite !elem_of_app, !elem_of_cons.
  intros [Hin | [[-> | Hin] | Hin]].
  - exists run'. rewrite elem_of_app. eauto.
  - exists run. rewrite elem_of_app, elem_of_cons.
    split; [eauto | apply rPr_set_run_text].
  - exists run. rewrite elem_of_app, elem_of_cons. split; [eauto|].
    destruct (slice_from text (idx + len w)); [by apply elem_of_nil in Hin|].
    apply list_elem_of_singleton in Hin as ->.
    apply rPr_after_run. intros c. apply rPr_tag.
  - exists run'. rewrite elem_of_app, elem_of_cons. eauto.
Qed.

Lemma formatting_from_refl p : formatting_from p p.
Proof. intros run Hrun. eauto. Qed.

Lemma formatting_from_trans p q r :
  formatting_from p q → formatting_from q r → formatting_from p r.
Proof.
  intros H1 H2 run Hrun. destruct (H2 run Hrun) as (run1 & Hrun1 & E1).
  destruct (H1 run1 Hrun1) as (run0 & Hrun0 & E0).
  exists run0. split; [done | congruence].
Qed.

Lemma annotations_from_trans settings p q r :
  annotations_from settings p q → annotations_from settings q r →
  annotations_from settings p r.
Proof.
  intros H1 H2 c Hc. destruct (H2 c Hc) as [Hq|?]; [|by right].
  by apply H1.
Qed.

Lemma grown_by_trans p q r : grown_by p q → grown_by q r → grown_by p r.
Proof.
  intros (k1 & j1 & ? & ? & ? & ?) (k2 & j2 & ? & ? & ? & ?).
  exists (k1 + k2), (j1 + j2). lia.
Qed.

Lemma grown_by_split pre run post text idx w r :
  tag run = "w:r" →
  grown_by (pre ++ run :: post) (pre ++ Lax.split_run run text idx w r ++ post).
Proof.
  intros Ht.
  exists 1, (length (runs (Lax.split_run run text idx w r)) - 1).
  rewrite !annotation_nodes_app, !runs_app, annotation_nodes_split_run by done.
  rewrite annotation_nodes_cons_run by done.
  assert (runs (run :: post) = run :: runs post) as ->.
  { unfold runs. by rewrite filter_cons, decide_True. }
  rewrite runs_split_run by done. rewrite split_run_shape.
  rewrite !length_app. cbn [length].
  destruct (slice_from text (idx + len w)); cbn [length app]; lia.
Qed.

Lemma kept_not_matched settings earlier s later run :
  sorted_desc settings = earlier ++ s :: later →
  tag run = "w:r" → run_text run ≠ [] →
  find (run_text run) (word s) ≠ (-1)%Z → ¬ kept settings run.
Proof.
  intros Hs Ht Hne Hf [Hk | [Hk | Hk]]; [done | done |].
  rewrite Forall_forall in Hk. apply Hf, Hk.
  apply elem_of_sorted_desc. rewrite Hs. set_solver.
Qed.

End Relations.

Section Counting.

Context (w : str) (Hw : w ≠ []).

Implicit Types (s a b : str) (p q : paragraph).

Lemma find_nil_miss : find [] w = (-1)%Z.
Proof. destruct w; [done|reflexivity]. Qed.

Lemma length_after_hit s :
  find s w ≠ (-1)%Z → length (slice_from s (find s w + len w)) < length s.
Proof.
  intros Hf. destruct (find_hit s w Hf) as (Hge & Hs & _).
  apply (f_equal length) in Hs. rewrite !length_app in Hs.
  destruct w; [done|]. simpl in Hs. lia.
Qed.

Lemma count_from_enough f1 : ∀ f2 s,
  length s ≤ f1 → length s ≤ f2 → count_from f1 s w = count_from f2 s w.
Proof.
  induction f1 as [|f1 IH]; intros f2 s H1 H2.
  - destruct s; [|simpl in H1; lia]. destruct f2; [done|].
    cbn [count_from]. by rewrite find_nil_miss.
  - destruct f2 as [|f2].
    + destruct s; [|simpl in H2; lia]. cbn [count_from].
      by rewrite find_nil_miss.
    + cbn [count_from]. case_bool_decide as Hf; [done|]. f_equal.
      pose proof (length_after_hit s Hf). apply IH; lia.
Qed.

Lemma count_miss s : find s w = (-1)%Z → count s w = 0.
Proof.
  intros Hf. unfold count. destruct (length s); [done|].
  cbn [count_from]. by rewrite bool_decide_eq_true_2.
Qed.

Lemma count_nil : count [] w = 0.
Proof. done. Qed.

Lemma count_hit s :
  find s w ≠ (-1)%Z →
  count s w = S (count (slice_from s (find s w + len w)) w).
Proof.
  intros Hf. unfold count at 1.
  pose proof (length_after_hit s Hf) as Hlt.
  destruct (length s) as [|n] eqn:En; [lia|].
  cbn [count_from]. rewrite bool_decide_eq_false_2 by done. f_equal.
  apply count_from_enough; lia.
Qed.

(** A word without newline that shows up after carriage returns are
    turned into newlines was there before. *)
Lemma norm_cr_eq_word x : 10%N ∉ w → norm_cr x = w → x = w.
Proof.
  clear Hw. revert x. induction w as [|d v IH]; intros x Hnl.
  - by destruct x.
  - destruct x as [|c x]; [done|]. simpl. intros [= Hc Hx].
    f_equal; [|apply IH; [set_solver | done]].
    case_decide; [|done]. subst. set_solver.
Qed.

Lemma occurs_norm_cr s : 10%N ∉ w → occurs w (norm_cr s) → occurs w s.
Proof.
  intros Hnl (a & b & Hs).
  exists (take (length a) s), (drop (length a + length w) s).
  assert (norm_cr (take (length w) (drop (length a) s)) = w) as Hmid.
  { unfold norm_cr in *. rewrite <- firstn_map, <- skipn_map, Hs.
    rewrite drop_app_length. by rewrite take_app_length. }
  apply norm_cr_eq_word in Hmid; [|done].
  rewrite <- (take_drop (length a) s) at 1. f_equal.
  rewrite <- (take_drop (length w) (drop (length a) s)) at 1.
  by rewrite Hmid, drop_drop.
Qed.

Lemma count_before s before after :
  10%N ∉ w → s = before ++ w ++ after →
  (∀ a b, s = a ++ w ++ b → length before ≤ length a) →
  count (norm_cr before) w = 0.
Proof.
  intros Hnl Hs Hfirst. apply count_miss, find_miss.
  intros (a & b & Hb)%occurs_norm_cr; [|done].
  specialize (Hfirst a (b ++ w ++ after)).
  rewrite Hs, Hb, <- !app_assoc in Hfirst. specialize (Hfirst eq_refl).
  rewrite !length_app in Hfirst. destruct w; [done|]. simpl in Hfirst. lia.
Qed.

Lemma occurrences_app p q :
  occurrences w (p ++ q) = occurrences w p + occurrences w q.
Proof. unfold occurrences. by rewrite runs_app, fmap_app, sum_list_with_app. Qed.

Lemma occurrences_cons_run run p :
  tag run = "w:r" →
  occurrences w (run :: p) = count (run_text run) w + occurrences w p.
Proof.
  intros Ht. unfold occurrences, runs. rewrite filter_cons.
  by rewrite decide_True.
Qed.

Lemma occurrences_split_run run r :
  tag run = "w:r" → 10%N ∉ w →
  find (run_text run) w ≠ (-1)%Z →
  S (occurrences w (Lax.split_run run (run_text run) (find (run_text run) w) w r))
  = count (run_text run) w.
Proof.
  intros Ht Hnl Hf.
  destruct (find_hit _ _ Hf) as (Hge & Hs & Hfirst).
  rewrite (count_hit _ Hf). f_equal.
  unfold occurrences. rewrite runs_split_run by done.
  rewrite fmap_cons, run_text_set_run_text.
  cbn [sum_list sum_list_with].
  rewrite (count_before (run_text run) _ _ Hnl Hs).
  - destruct (slice_from (run_text run) (find (run_text run) w + len w))
      as [|c after] eqn:E; [done|].
    cbn [fmap list_fmap sum_list sum_list_with].
    rewrite run_text_after_run by apply rPr_tag. unfold id. lia.
  - intros a b Hab. specialize (Hfirst a b Hab).
    unfold slice_to. rewrite length_take. unfold len in Hfirst. lia.
Qed.

Lemma occurrences_clean sorted p :
  (∃ x : setting, x ∈ sorted ∧ word x = w) →
  clean_upto sorted (length (runs p)) p → occurrences w p = 0.
Proof.
  intros (s & Hin & Hs) Hc.
  unfold occurrences.
  assert (Forall (λ run, count (run_text run) w = 0) (runs p)) as Hall.
  { apply Forall_forall. intros run Hrun.
    apply list_elem_of_lookup in Hrun as [j Hj].
    destruct (decide (run_text run = [])) as [->|Hne]; [apply count_nil|].
    apply count_miss. rewrite <- Hs. eapply (Hc j run s); eauto.
    by eapply lookup_lt_Some. }
  clear Hc. induction Hall as [|run l H0 _ IH]; [done|].
  rewrite fmap_cons. cbn [sum_list sum_list_with]. rewrite H0. exact IH.
Qed.

End Counting.

(** ** Rule order and the rule list of the application *)

Section Composition.

Lemma StronglySorted_insert_desc x l :
  StronglySorted (λ a b, length (word b) ≤ length (word a)) l →
  StronglySorted (λ a b, length (word b) ≤ length (word a)) (insert_desc x l).
Proof.
  induction 1 as [|y l Hl IH Hy]; cbn [insert_desc].
  - by repeat constructor.
  - unfold len. case_match eqn:E.
    + apply Z.leb_le in E. constructor; [by constructor|].
      constructor; [lia|]. eapply Forall_impl; [exact Hy|].
      intros z Hz. simpl in Hz. lia.
    + apply Z.leb_gt in E. constructor; [exact IH|].
      apply Forall_forall. intros z Hz.
      rewrite insert_desc_perm in Hz. apply elem_of_cons in Hz as [->|Hz].
      * lia.
      * rewrite Forall_forall in Hy. by apply Hy.
Qed.

Lemma StronglySorted_sorted_desc l :
  StronglySorted (λ a b, length (word b) ≤ length (word a)) (sorted_desc l).
Proof.
  induction l as [|x l IH]; [constructor|].
  by apply StronglySorted_insert_desc.
Qed.

Lemma NoDup_fmap_eq {A B} (f : A → B) (l : list A) x y :
  NoDup (f <$> l) → x ∈ l → y ∈ l → f x = f y → x = y.
Proof.
  induction l as [|z l IH]; [by intros _ ?%elem_of_nil|].
  rewrite fmap_cons, NoDup_cons.
  intros [Hz Hl] [->|Hx]%elem_of_cons [->|Hy]%elem_of_cons Hf; [done|..].
  - exfalso. apply Hz. rewrite Hf. by apply list_elem_of_fmap_2.
  - exfalso. apply Hz. rewrite <- Hf. by apply list_elem_of_fmap_2.
  - by apply IH.
Qed.

Lemma sorted_desc_of_permutation settings settings' :
  settings ≡ₚ settings' →
  NoDup ((λ s, length (word s)) <$> settings) →
  sorted_desc settings = sorted_desc settings'.
Proof.
  intros Hp Hnd.
  apply (StronglySorted_unique_strong
           (λ a b, length (word b) ≤ length (word a)));
    [|apply StronglySorted_sorted_desc..|by rewrite !sorted_desc_perm].
  intros x1 x2 H1 H2 Hle Hge.
  apply (proj1 (elem_of_sorted_desc _ _)) in H1.
  apply (proj1 (elem_of_sorted_desc _ _)) in H2.
  apply (proj2 (elem_of_Permutation_proper _ _ _ Hp)) in H2.
  apply (NoDup_fmap_eq (λ s, length (word s)) settings); [done..|lia].
Qed.

Lemma all_false_of_permutation settings settings' :
  settings ≡ₚ settings' → all_false settings = all_false settings'.
Proof.
  intros Hp. apply map_eq. intros w. rewrite !all_false_lookup.
  assert (w ∈ word <$> settings ↔ w ∈ word <$> settings') as Hiff
    by by rewrite Hp.
  repeat case_decide; tauto.
Qed.

Lemma form_submit_nonempty noun ruby ruby_list :
  Forall (λ item : str * str, item.1 ≠ [] ∧ item.2 ≠ []) ruby_list →
  Forall (λ item : str * str, item.1 ≠ [] ∧ item.2 ≠ [])
    (form_submit noun ruby ruby_list).
Proof.
  intros H. unfold form_submit. destruct noun, ruby; try done.
  apply Forall_app. split; [done|]. by repeat constructor.
Qed.

Lemma form_entries_nonempty submissions :
  Forall (λ item : str * str, item.1 ≠ [] ∧ item.2 ≠ [])
    (form_entries submissions).
Proof.
  unfold form_entries.
  assert (∀ l, Forall (λ item : str * str, item.1 ≠ [] ∧ item.2 ≠ []) l →
            Forall (λ item : str * str, item.1 ≠ [] ∧ item.2 ≠ [])
              (foldl (λ ruby_list entry,
                        form_submit entry.1 entry.2 ruby_list) l submissions))
    as H; [|by apply H].
  induction submissions as [|e sub IH]; intros l Hl; [done|].
  cbn [foldl]. by apply IH, form_submit_nonempty.
Qed.

End Composition.

(** ** The page-break test *)

Section PageBreak.

Implicit Types (w s a b : str) (c run : elem).

Lemma occurs_refl w : occurs w w.
Proof. exists [], []. by rewrite app_nil_r. Qed.

Lemma occurs_app_l w s b : occurs w s → occurs w (s ++ b).
Proof.
  intros (x & y & ->). exists x, (y ++ b). by rewrite <- !app_assoc.
Qed.

Lemma occurs_app_r w a s : occurs w s → occurs w (a ++ s).
Proof.
  intros (x & y & ->). exists (a ++ x), y. by rewrite <- !app_assoc.
Qed.

Lemma occurs_trans w s t : occurs w s → occurs s t → occurs w t.
Proof. intros H (x & y & ->). by apply occurs_app_r, occurs_app_l. Qed.

Lemma contains_occurs w s : contains w s = true ↔ occurs w s.
Proof.
  unfold contains. rewrite bool_decide_eq_true. split.
  - intros Hf. destruct (find_hit s w Hf) as (_ & Hs & _).
    by eexists _, _.
  - intros Ho Hf. by apply find_miss in Hf.
Qed.

Lemma occurs_flat_map {A} (f : A → str) (x : A) (l : list A) :
  x ∈ l → occurs (f x) (List.flat_map f l).
Proof.
  intros (l1 & l2 & ->)%list_elem_of_split.
  rewrite flat_map_app. cbn [List.flat_map].
  apply occurs_app_r, occurs_app_l, occurs_refl.
Qed.

Lemma tostring_child c t (a : list (string * str)) x (cs : list elem) :
  c ∈ cs → occurs (tostring c) (tostring (Elem t a x cs)).
Proof.
  intros Hc. pose proof (occurs_flat_map tostring c cs Hc) as Ho.
  assert (tostring (Elem t a x cs)
          = u "<" ++ u t ++ List.flat_map attr_to_str a ++ u ">"
            ++ (List.flat_map escape_text (default [] x)
                ++ List.flat_map tostring cs) ++ u "</" ++ u t ++ u ">")
    as ->.
  { destruct cs; [by apply elem_of_nil in Hc|]. by destruct x. }
  do 4 apply occurs_app_r. apply occurs_app_l. by apply occurs_app_r.
Qed.

Lemma tostring_tag c : occurs (u (tag c)) (tostring c).
Proof.
  destruct c as [t a x cs]. cbn [tag].
  assert (∃ rest, tostring (Elem t a x cs) = u "<" ++ u t ++ rest)
    as [rest ->].
  { destruct x, cs; cbn [tostring]; eauto. }
  apply occurs_app_r, occurs_app_l, occurs_refl.
Qed.

Lemma tostring_attr c kv : kv ∈ attrs c → occurs (attr_to_str kv) (tostring c).
Proof.
  destruct c as [t a x cs]. cbn [attrs]. intros Hkv.
  pose proof (occurs_flat_map attr_to_str kv a Hkv) as Ho.
  assert (∃ rest, tostring (Elem t a x cs)
                  = u "<" ++ u t ++ List.flat_map attr_to_str a ++ rest)
    as [rest ->].
  { destruct x, cs; cbn [tostring]; eauto. }
  do 2 apply occurs_app_r. by apply occurs_app_l.
Qed.

Lemma tostring_text c x :
  etext c = Some x → occurs (List.flat_map escape_text x) (tostring c).
Proof.
  destruct c as [t a y cs]. cbn [etext]. intros ->. cbn [tostring default].
  do 4 apply occurs_app_r. do 2 apply occurs_app_l. apply occurs_refl.
Qed.

Lemma escape_text_occurs w x :
  List.flat_map escape_text w = w → occurs w x →
  occurs w (List.flat_map escape_text x).
Proof.
  intros Hw (a & b & ->). rewrite !flat_map_app, Hw.
  apply occurs_app_r, occurs_app_l, occurs_refl.
Qed.

Lemma has_page_break_iff run :
  has_page_break run = true
  ↔ occurs marker_rendered (tostring run) ∨ occurs marker_page (tostring run).
Proof.
  unfold has_page_break. cbv zeta.
  by rewrite orb_true_iff, !contains_occurs.
Qed.

End PageBreak.

(** * The engine and the lax loops

    The engine does what the lax loops do until a split assigns a string
    XML cannot hold; there it ends in [ValueError]. *)

Section Bridge.

Implicit Types (st : state) (p : paragraph) (sorted settings : list setting)
  (ga pg : dict) (s : setting) (e r run : elem).

Lemma xml_compatible_app (a b : str) :
  xml_compatible (a ++ b) = xml_compatible a && xml_compatible b.
Proof. apply forallb_app. Qed.

Lemma xml_compatible_forall (t : str) :
  xml_compatible t = true ↔ ∀ c, c ∈ t → xml_char c = true.
Proof.
  unfold xml_compatible. rewrite forallb_forall.
  split; intros H c Hc; apply H; by apply list_elem_of_In.
Qed.

Lemma xml_compatible_take (t : str) n :
  xml_compatible t = true → xml_compatible (take n t) = true.
Proof.
  rewrite !xml_compatible_forall. intros H c Hc. apply H.
  apply list_elem_of_lookup in Hc as [j Hj].
  apply lookup_take_Some in Hj as [Hj _]. by eapply list_elem_of_lookup_2.
Qed.

Lemma xml_compatible_drop (t : str) n :
  xml_compatible t = true → xml_compatible (drop n t) = true.
Proof.
  rewrite !xml_compatible_forall. intros H c Hc. apply H.
  apply list_elem_of_lookup in Hc as [j Hj].
  rewrite lookup_drop in Hj. by eapply list_elem_of_lookup_2.
Qed.

Lemma xml_compatible_norm_cr (t : str) :
  xml_compatible t = true → xml_compatible (norm_cr t) = true.
Proof.
  intros H. apply xml_compatible_forall. intros c Hc. unfold norm_cr in Hc.
  apply (proj1 (list_elem_of_In _ _)), in_map_iff in Hc as (d & <- & Hd).
  case_decide; [reflexivity|].
  apply (proj1 (xml_compatible_forall t) H). by apply list_elem_of_In.
Qed.

(** *** The setters *)

Lemma set_etext_spec (t : str) e :
  set_etext t e
  = if xml_compatible t then inr (Lax.set_etext t e) else inl ValueError.
Proof. reflexivity. Qed.

Lemma add_t_spec (t : str) r :
  add_t t r = if xml_compatible t then inr (Lax.add_t t r) else inl ValueError.
Proof. unfold add_t, set_etext. by destruct (xml_compatible t). Qed.

Lemma flush_spec (bfr : str) r :
  flush bfr r
  = if xml_compatible bfr then inr (Lax.flush bfr r) else inl ValueError.
Proof. destruct bfr; [done|]. apply add_t_spec. Qed.

Lemma add_text_spec (text bfr : str) r :
  add_text text bfr r
  = if xml_compatible (bfr ++ text) then inr (Lax.add_text text bfr r)
    else inl ValueError.
Proof.
  revert bfr r. induction text as [|c text IH]; intros bfr r.
  - rewrite app_nil_r. apply flush_spec.
  - cbn [add_text Lax.add_text]. rewrite xml_compatible_app.
    destruct (decide (c = 9%N)) as [->|Hc9].
    { rewrite flush_spec. destruct (xml_compatible bfr); [|done].
      cbn [bind]. by rewrite IH. }
    destruct (decide (c = 13%N ∨ c = 10%N)) as [Hc|Hc].
    { rewrite flush_spec. destruct (xml_compatible bfr); [|done].
      cbn [bind]. rewrite IH. by destruct Hc as [-> | ->]. }
    rewrite IH, <- app_assoc. by rewrite xml_compatible_app.
Qed.

Lemma set_run_text_spec (text : str) r :
  set_run_text text r
  = if xml_compatible text then inr (Lax.set_run_text text r)
    else inl ValueError.
Proof. apply (add_text_spec text []). Qed.

Lemma create_ruby_element_spec (text ruby_text : str) :
  create_ruby_element text ruby_text
  = if xml_compatible ruby_text && xml_compatible text
    then inr (Lax.create_ruby_element text ruby_text) else inl ValueError.
Proof.
  unfold create_ruby_element, set_etext.
  by destruct (xml_compatible ruby_text), (xml_compatible text).
Qed.

Lemma create_ruby_element_node (text ruby_text : str) :
  Lax.create_ruby_element text ruby_text = Ex.ruby_ text ruby_text.
Proof. reflexivity. Qed.

(** *** The split and the loops *)

Lemma split_run_spec run (text : str) idx (w t : str) :
  split_run run text idx w t
  = if splittable text idx w t then inr (Lax.split_run run text idx w t)
    else inl ValueError.
Proof.
  unfold split_run, splittable. cbv zeta.
  rewrite set_run_text_spec, create_ruby_element_spec.
  destruct (xml_compatible (slice_to text idx)); [|done]. cbn [bind andb].
  destruct (xml_compatible t); [|done].
  destruct (xml_compatible w); [|done]. cbn [bind andb].
  unfold Lax.split_run. cbv zeta.
  destruct (slice_from text (idx + len w)) as [|c after]; [done|].
  rewrite set_etext_spec. by destruct (xml_compatible (c :: after)).
Qed.

Lemma apply_match_spec mode i run (text : str) idx s st :
  apply_match mode i run text idx s st
  = if splittable text idx (word s) (ruby s)
    then inr (Lax.apply_match mode i run text idx s st) else inl ValueError.
Proof.
  unfold apply_match. cbv zeta. rewrite split_run_spec.
  by destruct (splittable text idx (word s) (ruby s)).
Qed.

(** The engine's [for] loop gives what the lax one gives, or meets a
    matching rule whose split raises. *)
Lemma for_settings_sim mode i run (text : str) settings st :
  for_settings mode i run text settings st
  = Lax.for_settings mode i run text settings st
  ∨ (for_settings mode i run text settings st = inl ValueError
     ∧ ∃ s, s ∈ settings ∧ find text (word s) ≠ (-1)%Z
            ∧ splittable text (find text (word s)) (word s) (ruby s) = false).
Proof.
  induction settings as [|s rest IH]; [by left|].
  assert (∀ s', (∃ s0, s0 ∈ rest ∧ s' = s0) → s' ∈ s :: rest) as Hin.
  { intros s' (s0 & H0 & ->). by apply elem_of_cons; right. }
  assert (for_settings mode i run text rest st
          = Lax.for_settings mode i run text rest st
          ∨ (for_settings mode i run text rest st = inl ValueError
             ∧ ∃ s0, s0 ∈ s :: rest ∧ find text (word s0) ≠ (-1)%Z
                 ∧ splittable text (find text (word s0)) (word s0) (ruby s0)
                   = false)) as IH'.
  { destruct IH as [IH | (E & s0 & H0 & Hf & Hs)]; [by left | right].
    split; [done|]. exists s0. split; [|done]. apply elem_of_cons. by right. }
  cbn [for_settings Lax.for_settings].
  destruct (if bool_decide (mode = "once")
            then getitem (global_applied st) (word s) else ret false)
    as [e|[|]]; cbn [bind]; [by left | exact IH' |].
  destruct (if bool_decide (mode = "per_page")
            then getitem (items_applied_on_page st) (word s) else ret false)
    as [e|[|]]; cbn [bind]; [by left | exact IH' |].
  case_bool_decide as Hf; [|exact IH'].
  rewrite apply_match_spec.
  destruct (splittable text (find text (word s)) (word s) (ruby s)) eqn:Hs;
    [by left | right].
  split; [done|]. exists s. split; [|done]. apply elem_of_cons. by left.
Qed.

Lemma loop_body_sim mode sorted i run st :
  loop_body mode sorted i run st = Lax.loop_body mode sorted i run st
  ∨ (loop_body mode sorted i run st = inl ValueError
     ∧ run_text run ≠ []
     ∧ ∃ s, s ∈ sorted ∧ find (run_text run) (word s) ≠ (-1)%Z
            ∧ splittable (run_text run) (find (run_text run) (word s))
                (word s) (ruby s) = false).
Proof.
  unfold loop_body, Lax.loop_body. cbv zeta.
  destruct (run_text run) as [|c text] eqn:Et; [by left|].
  destruct (for_settings_sim mode i run (c :: text) sorted
              (State (para st) (global_applied st)
                 (if has_page_break run then all_false sorted
                  else items_applied_on_page st)))
    as [-> | (-> & Hs)]; [by left | right]. by split.
Qed.

Lemma while_runs_sim mode sorted fuel : ∀ i st,
  while_runs fuel mode sorted i st = Lax.while_runs fuel mode sorted i st
  ∨ while_runs fuel mode sorted i st = inl ValueError.
Proof.
  induction fuel as [|fuel IH]; intros i st;
    cbn [while_runs Lax.while_runs];
    destruct (runs (para st) !! i) as [run|]; try by left.
  destruct (loop_body_sim mode sorted i run st) as [-> | (-> & _)];
    [|by right].
  destruct (Lax.loop_body mode sorted i run st) as [e|[i' st']];
    [by left|]. cbn [bind]. apply IH.
Qed.

(** Where every match the lax loop can meet is splittable, the engine and
    the lax loop agree. *)
Lemma while_runs_agree mode sorted (Inv : state → Prop) :
  (∀ i run st i' st', Inv st → runs (para st) !! i = Some run →
     Lax.loop_body mode sorted i run st = inr (i', st') → Inv st') →
  (∀ i run st s, Inv st → runs (para st) !! i = Some run → s ∈ sorted →
     run_text run ≠ [] → find (run_text run) (word s) ≠ (-1)%Z →
     splittable (run_text run) (find (run_text run) (word s))
       (word s) (ruby s) = true) →
  ∀ fuel i st, Inv st →
    while_runs fuel mode sorted i st = Lax.while_runs fuel mode sorted i st.
Proof.
  intros Hpres Hok. induction fuel as [|fuel IH]; intros i st HI;
    cbn [while_runs Lax.while_runs];
    destruct (runs (para st) !! i) as [run|] eqn:Ei; try done.
  destruct (loop_body_sim mode sorted i run st)
    as [-> | (_ & Hne & s & Hs & Hf & Hbad)].
  - destruct (Lax.loop_body mode sorted i run st) as [e|[i' st']] eqn:Eb;
      [done|]. cbn [bind]. apply IH. eapply Hpres; eauto.
  - rewrite (Hok i run st s) in Hbad; done.
Qed.

Lemma for_paragraphs_sim mode sorted fuel doc : ∀ ga pg,
  for_paragraphs fuel mode sorted doc ga pg
  = Lax.for_paragraphs fuel mode sorted doc ga pg
  ∨ for_paragraphs fuel mode sorted doc ga pg = inl ValueError.
Proof.
  induction doc as [|p doc IH]; intros ga pg; [by left|].
  cbn [for_paragraphs Lax.for_paragraphs].
  destruct (while_runs_sim mode sorted fuel 0 (State p ga pg)) as [-> | ->];
    [|by right].
  destruct (Lax.while_runs fuel mode sorted 0 (State p ga pg)) as [e|st];
    [by left|]. cbn [bind].
  destruct (IH (global_applied st) (items_applied_on_page st)) as [-> | ->];
    [by left | by right].
Qed.

Lemma for_paragraphs_agree mode sorted (P : paragraph → Prop) :
  (∀ i run st i' st', keys_ok sorted st → P (para st) →
     runs (para st) !! i = Some run →
     Lax.loop_body mode sorted i run st = inr (i', st') → P (para st')) →
  (∀ i run st s, P (para st) → runs (para st) !! i = Some run → s ∈ sorted →
     run_text run ≠ [] → find (run_text run) (word s) ≠ (-1)%Z →
     splittable (run_text run) (find (run_text run) (word s))
       (word s) (ruby s) = true) →
  ∀ fuel doc ga pg, Forall P doc → keys_ok sorted (State [] ga pg) →
    for_paragraphs fuel mode sorted doc ga pg
    = Lax.for_paragraphs fuel mode sorted doc ga pg.
Proof.
  intros Hpres Hok fuel doc.
  induction doc as [|p doc IH]; intros ga pg HP Hk; [done|].
  apply Forall_cons in HP as [Hp HP].
  cbn [for_paragraphs Lax.for_paragraphs].
  rewrite (while_runs_agree mode sorted
             (λ st, keys_ok sorted st ∧ P (para st))).
  - destruct (Lax.while_runs fuel mode sorted 0 (State p ga pg))
      as [e|st] eqn:Ew; [done|]. cbn [bind].
    rewrite IH; [done | done |].
    by apply (while_runs_keys_ok mode sorted fuel 0 (State p ga pg) st).
  - intros i run st i' st' [Hk1 HP1] Hi Hb. split.
    + by eapply loop_body_keys_ok.
    + by eapply Hpres.
  - intros i run st s [_ HP1]. by apply Hok.
  - by split.
Qed.

Lemma apply_ruby_to_document_sim fuel doc settings mode :
  apply_ruby_to_document fuel doc settings mode
  = Lax.apply_ruby_to_document fuel doc settings mode
  ∨ apply_ruby_to_document fuel doc settings mode = inl ValueError.
Proof.
  unfold apply_ruby_to_document, Lax.apply_ruby_to_document,
    run_engine, Lax.run_engine. cbv zeta.
  destruct (for_paragraphs_sim mode (sorted_desc settings) fuel doc
              (all_false settings) (all_false (sorted_desc settings)))
    as [-> | ->]; [by left | by right].
Qed.


Lemma apply_ruby_to_document_agree mode settings (P : paragraph → Prop) :
  (∀ i run st i' st', keys_ok (sorted_desc settings) st → P (para st) →
     runs (para st) !! i = Some run →
     Lax.loop_body mode (sorted_desc settings) i run st = inr (i', st') →
     P (para st')) →
  (∀ i run st s, P (para st) → runs (para st) !! i = Some run →
     s ∈ settings →
     run_text run ≠ [] → find (run_text run) (word s) ≠ (-1)%Z →
     splittable (run_text run) (find (run_text run) (word s))
       (word s) (ruby s) = true) →
  ∀ fuel doc, Forall P doc →
    apply_ruby_to_document fuel doc settings mode
    = Lax.apply_ruby_to_document fuel doc settings mode.
Proof.
  intros Hpres Hok fuel doc HP.
  unfold apply_ruby_to_document, Lax.apply_ruby_to_document,
    run_engine, Lax.run_engine. cbv zeta.
  rewrite (for_paragraphs_agree mode (sorted_desc settings) P); try done.
  - intros i run st s HP1 Hi Hs. apply (Hok i run st s HP1 Hi).
    by apply elem_of_sorted_desc.
  - apply (keys_ok_initial settings []).
Qed.

End Bridge.

(** * The loops of the engine *)

Section EngineSteps.

Implicit Types (st : state) (p : paragraph)
  (sorted settings : list setting) (ga pg : dict) (s : setting) (run : elem).

(** One turn of the [for] loop, with the two lookups resolved. *)
Lemma for_settings_step mode i run (text : str) s rest st b1 b2 :
  global_applied st !! word s = Some b1 →
  items_applied_on_page st !! word s = Some b2 →
  for_settings mode i run text (s :: rest) st
  = if (bool_decide (mode = "once") && b1)
       || (bool_decide (mode = "per_page") && b2)
    then for_settings mode i run text rest st
    else if bool_decide (find text (word s) ≠ (-1)%Z)
         then let* st' := apply_match mode i run text
                            (find text (word s)) s st in
              ret (true, st')
         else for_settings mode i run text rest st.
Proof.
  intros Hb1 Hb2. cbn [for_settings]. unfold getitem. rewrite Hb1, Hb2.
  destruct (bool_decide (mode = "once")), (bool_decide (mode = "per_page")),
    b1, b2; done.
Qed.

(** The scan: no eligible setting has its word in the text, or the first
    eligible setting whose word is there is the one applied. *)
Lemma for_settings_scan mode i run (text : str) settings st :
  keys_ok settings st →
  (for_settings mode i run text settings st = inr (false, st)
   ∧ ∀ s, s ∈ settings → eligible mode st (word s) →
          find text (word s) = (-1)%Z)
  ∨ (∃ pre s post, settings = pre ++ s :: post
       ∧ (∀ s', s' ∈ pre → eligible mode st (word s') →
                find text (word s') = (-1)%Z)
       ∧ eligible mode st (word s) ∧ find text (word s) ≠ (-1)%Z
       ∧ for_settings mode i run text settings st
         = let* st' := apply_match mode i run text
                         (find text (word s)) s st in
           ret (true, st')).
Proof.
  induction settings as [|s rest IH]; intros Hk.
  - left. split; [done|]. intros s Hs. by apply elem_of_nil in Hs.
  - destruct (Hk s) as [[b1 Hb1] [b2 Hb2]]; [set_solver|].
    specialize (IH (keys_ok_cons _ _ _ Hk)).
    rewrite (for_settings_step _ _ _ _ _ _ _ _ _ Hb1 Hb2).
    pose proof (eligible_bool mode st (word s) b1 b2 Hb1 Hb2) as Hel.
    destruct ((bool_decide (mode = "once") && b1)
              || (bool_decide (mode = "per_page") && b2)) eqn:Eskip;
      [|destruct (decide (find text (word s) = (-1)%Z)) as [Hf|Hf];
        [rewrite bool_decide_eq_false_2 by (intros ?; done)
        |rewrite bool_decide_eq_true_2 by done]].
    + destruct IH as [[-> Hall] | (pre & s0 & post & -> & Hpre & He & Hf & ->)].
      * left. split; [done|]. intros s0 [->|Hs0]%elem_of_cons; [|eauto].
        intros He%Hel. congruence.
      * right. exists (s :: pre), s0, post. split_and!; try done.
        intros s' [->|Hs']%elem_of_cons; [|eauto]. intros He'%Hel. congruence.
    + destruct IH as [[-> Hall] | (pre & s0 & post & -> & Hpre & He & Hf' & ->)].
      * left. split; [done|]. intros s0 [->|Hs0]%elem_of_cons; eauto.
      * right. exists (s :: pre), s0, post. split_and!; try done.
        intros s' [->|Hs']%elem_of_cons; eauto.
    + right. exists [], s, rest. split_and!; try done.
      * intros s' Hs'. by apply elem_of_nil in Hs'.
      * by apply Hel.
Qed.

(** The two ways through the loop body, the second with its two
    outcomes: the split is made, or an assignment of it raises. *)
Lemma loop_body_step mode sorted i run st :
  keys_ok sorted st →
  (loop_body mode sorted i run st = inr (S i, reset_page sorted run st)
   ∧ (run_text run = []
      ∨ ∀ s, s ∈ sorted → eligible mode (reset_page sorted run st) (word s) →
             find (run_text run) (word s) = (-1)%Z))
  ∨ (∃ pre s post, sorted = pre ++ s :: post
       ∧ run_text run ≠ []
       ∧ (∀ s', s' ∈ pre →
                eligible mode (reset_page sorted run st) (word s') →
                find (run_text run) (word s') = (-1)%Z)
       ∧ eligible mode (reset_page sorted run st) (word s)
       ∧ find (run_text run) (word s) ≠ (-1)%Z
       ∧ loop_body mode sorted i run st
         = if splittable (run_text run) (find (run_text run) (word s))
                (word s) (ruby s)
           then inr (0, Lax.apply_match mode i run (run_text run)
                          (find (run_text run) (word s)) s
                          (reset_page sorted run st))
           else inl ValueError).
Proof.
  intros Hk. apply (keys_ok_reset_page _ run) in Hk.
  unfold loop_body. fold (reset_page sorted run st).
  destruct (run_text run) as [|c text] eqn:Et; [left; eauto|].
  destruct (for_settings_scan mode i run (c :: text) sorted _ Hk)
    as [[-> Hall] | (pre & s & post & -> & Hpre & He & Hf & ->)].
  - left. eauto.
  - right. exists pre, s, post. split_and!; try done.
    rewrite apply_match_spec. by destruct (splittable _ _ _ _).
Qed.

Lemma loop_body_preserves_keys mode sorted i run st i' st' :
  keys_ok sorted st →
  loop_body mode sorted i run st = inr (i', st') → keys_ok sorted st'.
Proof.
  intros Hk Hb.
  destruct (loop_body_sim mode sorted i run st) as [E | [E _]];
    rewrite E in Hb; [|done]. by eapply loop_body_keys_ok.
Qed.

(** What one completed pass of the loop body does to the paragraph:
    nothing, or the split of the run at hand, every string of which XML
    can hold, for the first setting of the list with its word. *)
Lemma loop_body_split mode sorted i run st i' st' :
  keys_ok sorted st →
  runs (para st) !! i = Some run →
  loop_body mode sorted i run st = inr (i', st') →
  para st' = para st
  ∨ ∃ pre post s earlier later,
      sorted = earlier ++ s :: later
      ∧ (∀ s', s' ∈ earlier → word s' ≠ word s)
      ∧ para st = pre ++ run :: post
      ∧ tag run = "w:r" ∧ run_text run ≠ []
      ∧ find (run_text run) (word s) ≠ (-1)%Z
      ∧ splittable (run_text run) (find (run_text run) (word s))
          (word s) (ruby s) = true
      ∧ para st'
        = pre ++ Lax.split_run run (run_text run)
                   (find (run_text run) (word s)) (word s) (ruby s) ++ post.
Proof.
  intros Hk Hi Hb.
  destruct (loop_body_step mode sorted i run st Hk)
    as [[E _] | (earlier & s & later & Hs & Hne & Hpre & He & Hf & E)];
    rewrite E in Hb; [injection Hb as <- <-; left; reflexivity|].
  destruct (splittable _ _ _ _) eqn:Hsp; [|done]. injection Hb as <- <-.
  right.
  destruct (splice_texts mode i run s (reset_page sorted run st) Hi Hf)
    as (pre & post & before & after & Hp & _ & Htag & _ & _ & Hpara & _ & _).
  exists pre, post, s, earlier, later. split_and!; try done.
  intros s' Hs' Hw. apply Hf. rewrite <- Hw. apply Hpre; [done|].
  by apply (eligible_same_word _ _ (word s)).
Qed.

(** A relation between paragraphs that is reflexive, transitive and holds
    across every completed split holds between a paragraph and what the
    loop makes of it. *)
Lemma while_runs_related mode sorted (R : paragraph → paragraph → Prop) :
  (∀ p, R p p) → (∀ p q r, R p q → R q r → R p r) →
  (∀ pre run post s earlier later,
     sorted = earlier ++ s :: later →
     (∀ s', s' ∈ earlier → word s' ≠ word s) →
     tag run = "w:r" → run_text run ≠ [] →
     find (run_text run) (word s) ≠ (-1)%Z →
     splittable (run_text run) (find (run_text run) (word s))
       (word s) (ruby s) = true →
     R (pre ++ run :: post)
       (pre ++ Lax.split_run run (run_text run) (find (run_text run) (word s))
                 (word s) (ruby s) ++ post)) →
  ∀ fuel i st st', keys_ok sorted st →
    while_runs fuel mode sorted i st = inr st' →
    keys_ok sorted st' ∧ R (para st) (para st').
Proof.
  intros Hrefl Htrans Hstep.
  induction fuel as [|fuel IH]; intros i st st' Hk; cbn [while_runs];
    destruct (runs (para st) !! i) as [run|] eqn:Ei;
    try done; try (intros [= <-]; by split).
  destruct (loop_body mode sorted i run st) as [e|[i1 st1]] eqn:Eb; [done|].
  cbn [bind]. intros Hw.
  pose proof (loop_body_preserves_keys _ _ _ _ _ _ _ Hk Eb) as Hk1.
  destruct (IH i1 st1 st' Hk1 Hw) as [Hk' HR]. split; [done|].
  destruct (loop_body_split _ _ _ _ _ _ _ Hk Ei Eb)
    as [E | (pre & post & s & earlier & later
             & Hs & Hfirst & Hp & Ht & Hne & Hf & Hsp & E)].
  - by rewrite <- E.
  - eapply Htrans; [|exact HR]. rewrite Hp, E. by eapply Hstep.
Qed.

Lemma for_paragraphs_inr mode sorted fuel p doc ga pg res :
  for_paragraphs fuel mode sorted (p :: doc) ga pg = inr res →
  ∃ st doc' ga' pg',
    while_runs fuel mode sorted 0 (State p ga pg) = inr st
    ∧ for_paragraphs fuel mode sorted doc
        (global_applied st) (items_applied_on_page st) = inr (doc', ga', pg')
    ∧ res = (para st :: doc', ga', pg').
Proof.
  cbn [for_paragraphs].
  destruct (while_runs fuel mode sorted 0 (State p ga pg)) as [e|st]; [done|].
  cbn [bind].
  destruct (for_paragraphs fuel mode sorted doc _ _)
    as [e|[[doc' ga'] pg']] eqn:E; [done|].
  cbn [bind ret]. intros [= <-]. exists st, doc', ga', pg'. done.
Qed.

Lemma run_engine_inr fuel doc settings mode doc' :
  apply_ruby_to_document fuel doc settings mode = inr doc' ↔
  ∃ ga pg, run_engine fuel doc settings mode = inr (doc', ga, pg).
Proof.
  unfold apply_ruby_to_document.
  destruct (run_engine fuel doc settings mode) as [e|[[d ga] pg]]; cbn [bind ret].
  - split; [done | by intros (? & ? & ?)].
  - split; [intros [= <-]; eauto | by intros (? & ? & [= -> _ _])].
Qed.

Lemma for_paragraphs_related mode sorted (R : paragraph → paragraph → Prop) :
  (∀ fuel i st st', keys_ok sorted st →
     while_runs fuel mode sorted i st = inr st' →
     keys_ok sorted st' ∧ R (para st) (para st')) →
  ∀ fuel doc ga pg doc' ga' pg', keys_ok sorted (State [] ga pg) →
    for_paragraphs fuel mode sorted doc ga pg = inr (doc', ga', pg') →
    Forall2 R doc doc'.
Proof.
  intros Hpar fuel doc.
  induction doc as [|p doc IH]; intros ga pg doc' ga' pg' Hk.
  - intros [= <- _ _]. constructor.
  - intros (st & doc'' & ga'' & pg'' & Hw & Hd & [= -> -> ->])%for_paragraphs_inr.
    destruct (Hpar fuel 0 (State p ga pg) st Hk Hw) as [Hk' HR].
    constructor; [exact HR|]. eapply IH; [|exact Hd]. exact Hk'.
Qed.

(** The same for the engine. *)
Lemma engine_related (R : paragraph → paragraph → Prop) settings :
  (∀ p, R p p) → (∀ p q r, R p q → R q r → R p r) →
  (∀ pre run post s earlier later,
     sorted_desc settings = earlier ++ s :: later →
     (∀ s', s' ∈ earlier → word s' ≠ word s) →
     tag run = "w:r" → run_text run ≠ [] →
     find (run_text run) (word s) ≠ (-1)%Z →
     splittable (run_text run) (find (run_text run) (word s))
       (word s) (ruby s) = true →
     R (pre ++ run :: post)
       (pre ++ Lax.split_run run (run_text run) (find (run_text run) (word s))
                 (word s) (ruby s) ++ post)) →
  ∀ fuel doc mode doc',
    apply_ruby_to_document fuel doc settings mode = inr doc' →
    Forall2 R doc doc'.
Proof.
  intros Hrefl Htrans Hstep fuel doc mode doc'
    (ga & pg & Hrun)%run_engine_inr.
  unfold run_engine in Hrun.
  eapply (for_paragraphs_related mode (sorted_desc settings) R);
    [|apply (keys_ok_initial settings [])|exact Hrun].
  intros f i st st'. by apply while_runs_related.
Qed.

(** *** Fuel

    An outcome other than [Diverges] does not change when more fuel is
    given. *)
Lemma while_runs_stable mode sorted fuel : ∀ fuel' i st,
  fuel ≤ fuel' →
  while_runs fuel mode sorted i st ≠ inl Diverges →
  while_runs fuel' mode sorted i st = while_runs fuel mode sorted i st.
Proof.
  induction fuel as [|fuel IH]; intros fuel' i st Hle.
  - destruct fuel'; cbn [while_runs];
      destruct (runs (para st) !! i); done.
  - destruct fuel' as [|fuel']; [lia|]. cbn [while_runs].
    destruct (runs (para st) !! i) as [run|]; [|done].
    destruct (loop_body mode sorted i run st) as [e|[i1 st1]]; [done|].
    cbn [bind]. apply IH. lia.
Qed.

Lemma for_paragraphs_stable mode sorted fuel fuel' doc : ∀ ga pg,
  fuel ≤ fuel' →
  for_paragraphs fuel mode sorted doc ga pg ≠ inl Diverges →
  for_paragraphs fuel' mode sorted doc ga pg
  = for_paragraphs fuel mode sorted doc ga pg.
Proof.
  induction doc as [|p doc IH]; intros ga pg Hle; [done|].
  cbn [for_paragraphs]. intros Hnd.
  rewrite (while_runs_stable mode sorted fuel fuel') by
    (try done; intros E; by rewrite E in Hnd).
  destruct (while_runs fuel mode sorted 0 (State p ga pg)) as [e|st];
    [done|]. cbn [bind] in *.
  rewrite IH; [done | done |].
  intros E. by rewrite E in Hnd.
Qed.

Lemma apply_ruby_to_document_stable fuel fuel' doc settings mode :
  fuel ≤ fuel' →
  apply_ruby_to_document fuel doc settings mode ≠ inl Diverges →
  apply_ruby_to_document fuel' doc settings mode
  = apply_ruby_to_document fuel doc settings mode.
Proof.
  unfold apply_ruby_to_document, run_engine. cbv zeta. intros Hle Hnd.
  rewrite (for_paragraphs_stable _ _ fuel fuel'); [done | done |].
  intros E. by rewrite E in Hnd.
Qed.

(** *** Where the engine and the lax loops agree *)

Lemma splittable_segments (text : str) (w t : str) :
  xml_compatible text = true → xml_compatible t = true →
  find text w ≠ (-1)%Z → splittable text (find text w) w t = true.
Proof.
  intros Htext Ht Hf. destruct (find_hit text w Hf) as (_ & Hsplit & _).
  unfold splittable. rewrite Ht.
  unfold slice_to, slice_from in *.
  rewrite xml_compatible_take, xml_compatible_drop by done.
  rewrite Hsplit, !xml_compatible_app in Htext.
  apply andb_true_iff in Htext as [_ [Hw _]%andb_true_iff].
  by rewrite Hw.
Qed.

Lemma xml_runs_split pre run post (w t : str) :
  tag run = "w:r" → find (run_text run) w ≠ (-1)%Z →
  xml_runs (pre ++ run :: post) →
  xml_runs (pre ++ Lax.split_run run (run_text run) (find (run_text run) w)
                     w t ++ post).
Proof.
  intros Ht Hf. unfold xml_runs.
  rewrite !runs_app, (runs_split_run run) by done.
  rewrite !Forall_app. unfold runs at 2. rewrite filter_cons, decide_True by done.
  rewrite Forall_cons. intros (Hpre & Hrun & Hpost).
  split_and!; [done | | done].
  constructor.
  - rewrite run_text_set_run_text.
    by apply xml_compatible_norm_cr, xml_compatible_take.
  - destruct (slice_from (run_text run) (find (run_text run) w + len w))
      as [|c after] eqn:E; [constructor|].
    repeat constructor. rewrite run_text_after_run by apply rPr_tag.
    rewrite <- E. by apply xml_compatible_drop.
Qed.

(** With readings and run texts that XML can hold no split raises. *)
Lemma engine_agree_xml fuel doc settings mode :
  xml_readings settings → xml_texts doc →
  apply_ruby_to_document fuel doc settings mode
  = Lax.apply_ruby_to_document fuel doc settings mode.
Proof.
  intros Hr Hd.
  apply (apply_ruby_to_document_agree mode settings xml_runs); [| |done].
  - intros i run st i' st' Hk HP Hi Hb.
    destruct (loop_body_shape _ _ _ _ _ _ _ Hk Hi Hb)
      as [-> | (pre & post & s & earlier & later
                & _ & _ & Hp & Ht & _ & Hf & ->)]; [done|].
    rewrite Hp in HP. by apply xml_runs_split.
  - intros i run st s HP Hi Hs Hne Hf.
    apply splittable_segments; [| |done].
    + unfold xml_runs in HP. rewrite Forall_forall in HP. apply HP.
      by eapply list_elem_of_lookup_2.
    + unfold xml_readings in Hr. rewrite Forall_forall in Hr. by apply Hr.
Qed.

(** With nothing to match no split is made. *)
Lemma engine_agree_idle fuel doc settings mode :
  Forall (λ p, Forall (unmatchable settings) (runs p)) doc →
  apply_ruby_to_document fuel doc settings mode
  = Lax.apply_ruby_to_document fuel doc settings mode.
Proof.
  intros Hd.
  assert (∀ run s, unmatchable settings run → s ∈ settings →
            run_text run ≠ [] → find (run_text run) (word s) ≠ (-1)%Z →
            False) as Hno.
  { intros run s [He | Hall] Hs Hne Hf; [done|].
    rewrite Forall_forall in Hall. by apply Hf, Hall. }
  apply (apply_ruby_to_document_agree mode settings
           (λ p, Forall (unmatchable settings) (runs p))); [| |done].
  - intros i run st i' st' Hk HP Hi Hb.
    destruct (loop_body_shape _ _ _ _ _ _ _ Hk Hi Hb)
      as [-> | (pre & post & s & earlier & later
                & Hs & _ & Hp & Ht & Hne & Hf & ->)]; [done|].
    exfalso. apply (Hno run s); try done.
    + rewrite Forall_forall in HP. apply HP. by eapply list_elem_of_lookup_2.
    + apply elem_of_sorted_desc. rewrite Hs. set_solver.
  - intros i run st s HP Hi Hs Hne Hf. exfalso. apply (Hno run s); try done.
    rewrite Forall_forall in HP. apply HP. by eapply list_elem_of_lookup_2.
Qed.

Lemma engine_no_KeyError fuel doc settings mode k :
  apply_ruby_to_document fuel doc settings mode ≠ inl (KeyError k).
Proof.
  destruct (apply_ruby_to_document_sim fuel doc settings mode) as [-> | ->];
    [|done].
  unfold Lax.apply_ruby_to_document, Lax.run_engine. cbv zeta.
  pose proof (for_paragraphs_no_KeyError mode (sorted_desc settings) fuel doc
                (all_false settings) (all_false (sorted_desc settings)) k
                (keys_ok_initial settings [])) as H.
  destruct (Lax.for_paragraphs fuel mode (sorted_desc settings) doc _ _)
    as [e|[[d ga] pg]]; cbn [bind ret]; [congruence | done].
Qed.

Lemma for_paragraphs_app fuel mode sorted (d1 d2 : document) ga pg :
  for_paragraphs fuel mode sorted (d1 ++ d2) ga pg
  = let* '(a, ga1, pg1) := for_paragraphs fuel mode sorted d1 ga pg in
    let* '(b, ga2, pg2) := for_paragraphs fuel mode sorted d2 ga1 pg1 in
    ret (a ++ b, ga2, pg2).
Proof.
  revert ga pg. induction d1 as [|p d1 IH]; intros ga pg.
  - cbn [app for_paragraphs bind ret].
    by destruct (for_paragraphs fuel mode sorted d2 ga pg) as [e|[[b g] q]].
  - cbn [app for_paragraphs].
    destruct (while_runs fuel mode sorted 0 (State p ga pg)) as [e|st];
      [done|].
    cbn [bind]. rewrite IH.
    destruct (for_paragraphs fuel mode sorted d1 _ _) as [e|[[a g1] q1]];
      [done|].
    cbn [bind ret].
    by destruct (for_paragraphs fuel mode sorted d2 g1 q1) as [e|[[b g2] q2]].
Qed.

End EngineSteps.

Section Settling.

Implicit Types (doc : document) (settings : list setting).

(** Once the lax loops return, the engine has settled: from that fuel on
    it returns the same document, or it ends in [ValueError]. *)
Lemma engine_settles fuel0 doc settings mode doc' :
  Lax.apply_ruby_to_document fuel0 doc settings mode = inr doc' →
  (∀ fuel, fuel0 ≤ fuel →
     apply_ruby_to_document fuel doc settings mode = inr doc')
  ∨ (∀ fuel, fuel0 ≤ fuel →
       apply_ruby_to_document fuel doc settings mode = inl ValueError).
Proof.
  intros HL.
  destruct (apply_ruby_to_document_sim fuel0 doc settings mode) as [E | E];
    [rewrite HL in E; left | right];
    intros fuel Hle;
    (rewrite (apply_ruby_to_document_stable fuel0 fuel); [done | done |]);
    by rewrite E.
Qed.

End Settling.

Section OtherModesEngine.

Context (mode : string) (Honce : mode ≠ "once") (Hpage : mode ≠ "per_page").

Implicit Types (st : state) (p : paragraph) (sorted settings : list setting)
  (ga pg : dict).

Lemma apply_match_as_all i run (text : str) idx s st :
  apply_match mode i run text idx s st
  = apply_match "all" i run text idx s st.
Proof.
  unfold apply_match. rewrite !bool_decide_eq_false_2 by done. done.
Qed.

Lemma for_settings_engine_as_all i run (text : str) settings st :
  for_settings mode i run text settings st
  = for_settings "all" i run text settings st.
Proof.
  induction settings as [|s rest IH]; [done|].
  cbn [for_settings]. rewrite !bool_decide_eq_false_2 by done.
  change (bool_decide ("all" = "once")) with false.
  change (bool_decide ("all" = "per_page")) with false. cbn [bind ret].
  by rewrite IH, apply_match_as_all.
Qed.

Lemma loop_body_engine_as_all sorted i run st :
  loop_body mode sorted i run st = loop_body "all" sorted i run st.
Proof.
  unfold loop_body. destruct (run_text run); [done|].
  by rewrite for_settings_engine_as_all.
Qed.

Lemma while_runs_engine_as_all fuel sorted i st :
  while_runs fuel mode sorted i st = while_runs fuel "all" sorted i st.
Proof.
  revert i st. induction fuel as [|fuel IH]; intros i st; [done|].
  cbn [while_runs]. destruct (runs (para st) !! i) as [run|]; [|done].
  rewrite loop_body_engine_as_all.
  destruct (loop_body "all" sorted i run st) as [e|[i' st']]; [done|].
  cbn [bind]. apply IH.
Qed.

Lemma for_paragraphs_engine_as_all fuel sorted doc ga pg :
  for_paragraphs fuel mode sorted doc ga pg
  = for_paragraphs fuel "all" sorted doc ga pg.
Proof.
  revert ga pg. induction doc as [|p doc IH]; intros ga pg; [done|].
  cbn [for_paragraphs]. rewrite while_runs_engine_as_all.
  destruct (while_runs fuel "all" sorted 0 (State p ga pg)) as [e|st]; [done|].
  cbn [bind]. by rewrite IH.
Qed.

(** In these modes the trackers are not read: what the loops make of a
    paragraph, or the error they end in, is the same whatever trackers
    they start from, and the document-wide tracker comes back as it
    went in. *)
Lemma for_settings_blind i run (text : str) settings p :
  ∃ res : M (bool * paragraph), ∀ ga pg,
    for_settings mode i run text settings (State p ga pg)
    = match res with
      | inl e => inl e
      | inr (b, q) => inr (b, State q ga pg)
      end.
Proof.
  induction settings as [|s rest [res IH]]; [by exists (inr (false, p))|].
  destruct (decide (find text (word s) = (-1)%Z)) as [Hf|Hf].
  - exists res. intros ga pg. cbn [for_settings].
    rewrite !bool_decide_eq_false_2 by (try done; by intros ?).
    cbn [bind ret]. apply IH.
  - exists (if splittable text (find text (word s)) (word s) (ruby s)
            then inr (true, replace_run i
                       (Lax.split_run run text (find text (word s))
                          (word s) (ruby s)) p)
            else inl ValueError).
    intros ga pg. cbn [for_settings].
    rewrite !(bool_decide_eq_false_2 (mode = _)) by done.
    cbn [bind ret]. rewrite bool_decide_eq_true_2 by done.
    rewrite apply_match_spec.
    destruct (splittable _ _ _ _); [|done]. cbn [bind ret].
    by rewrite (apply_match_other mode Honce Hpage).
Qed.

Lemma loop_body_blind sorted i run p :
  ∃ res : M (nat * paragraph), ∀ ga pg,
    loop_body mode sorted i run (State p ga pg)
    = match res with
      | inl e => inl e
      | inr (i', q) =>
          inr (i', State q ga (if has_page_break run then all_false sorted
                               else pg))
      end.
Proof.
  unfold loop_body. cbv zeta. cbn [para global_applied items_applied_on_page].
  destruct (run_text run) as [|c text] eqn:Et.
  { by exists (inr (S i, p)). }
  destruct (for_settings_blind i run (c :: text) sorted p) as [res H].
  exists (match res with
          | inl e => inl e
          | inr (b, q) => inr (if b then 0 else S i, q)
          end).
  intros ga pg. rewrite H. by destruct res as [e|[[|] q]].
Qed.

Lemma while_runs_blind sorted fuel : ∀ i p,
  ∃ res : M paragraph, ∀ ga pg,
    match res with
    | inl e => while_runs fuel mode sorted i (State p ga pg) = inl e
    | inr q => ∃ pg', (pg' = pg ∨ pg' = all_false sorted)
                 ∧ while_runs fuel mode sorted i (State p ga pg)
                   = inr (State q ga pg')
    end.
Proof.
  induction fuel as [|fuel IH]; intros i p.
  - destruct (runs p !! i) as [run|] eqn:Ei.
    + exists (inl Diverges). intros ga pg. cbn [while_runs para].
      by rewrite Ei.
    + exists (inr p). intros ga pg. exists pg. cbn [while_runs para].
      rewrite Ei. eauto.
  - destruct (runs p !! i) as [run|] eqn:Ei.
    + destruct (loop_body_blind sorted i run p) as [[e|[i' q]] Hb].
      * exists (inl e). intros ga pg. cbn [while_runs para].
        by rewrite Ei, Hb.
      * destruct (IH i' q) as [res Hres]. exists res. intros ga pg.
        specialize (Hres ga (if has_page_break run then all_false sorted
                             else pg)).
        cbn [while_runs para]. rewrite Ei, Hb. cbn [bind].
        destruct res as [e|q']; [done|].
        destruct Hres as (pg' & Hpg & E). exists pg'. split; [|done].
        destruct (has_page_break run); tauto.
    + exists (inr p). intros ga pg. exists pg. cbn [while_runs para].
      rewrite Ei. eauto.
Qed.

Lemma for_paragraphs_blind sorted fuel doc :
  ∃ res : M document, ∀ ga pg,
    match res with
    | inl e => for_paragraphs fuel mode sorted doc ga pg = inl e
    | inr d => ∃ pg', (pg' = pg ∨ pg' = all_false sorted)
                 ∧ for_paragraphs fuel mode sorted doc ga pg
                   = inr (d, ga, pg')
    end.
Proof.
  induction doc as [|p doc [res IH]].
  { exists (inr []). intros ga pg. exists pg. eauto. }
  destruct (while_runs_blind sorted fuel 0 p) as [[e|q] Hw].
  { exists (inl e). intros ga pg. cbn [for_paragraphs]. by rewrite Hw. }
  destruct res as [e|d].
  - exists (inl e). intros ga pg. cbn [for_paragraphs].
    destruct (Hw ga pg) as (pg1 & _ & ->).
    cbn [bind global_applied items_applied_on_page]. by rewrite IH.
  - exists (inr (q :: d)). intros ga pg. cbn [for_paragraphs].
    destruct (Hw ga pg) as (pg1 & Hpg1 & ->).
    cbn [bind global_applied items_applied_on_page para].
    destruct (IH ga pg1) as (pg2 & Hpg2 & ->). cbn [bind ret].
    exists pg2. split; [|done]. intuition congruence.
Qed.

(** The three outcomes of the paragraph loop in these modes; a returned
    document has nothing left to match. *)
Lemma for_paragraphs_engine_other sorted fuel doc :
  (∀ ga pg, for_paragraphs fuel mode sorted doc ga pg = inl Diverges)
  ∨ (∀ ga pg, for_paragraphs fuel mode sorted doc ga pg = inl ValueError)
  ∨ ∃ doc', Forall (λ p', clean_upto sorted (length (runs p')) p') doc'
      ∧ ∀ ga pg, ∃ pg', (pg' = pg ∨ pg' = all_false sorted)
          ∧ for_paragraphs fuel mode sorted doc ga pg = inr (doc', ga, pg').
Proof.
  destruct (for_paragraphs_blind sorted fuel doc) as [[e|d] H].
  - destruct (for_paragraphs_sim mode sorted fuel doc ∅ ∅) as [E | E].
    + rewrite H in E.
      destruct (for_paragraphs_other mode Honce Hpage sorted fuel doc)
        as [Hd | (doc' & _ & Hr)].
      * rewrite Hd in E. injection E as ->. by left.
      * destruct (Hr ∅ ∅) as (pg' & _ & E'). by rewrite E' in E.
    + rewrite H in E. injection E as ->. right. by left.
  - right. right. exists d. split; [|exact H].
    destruct (H ∅ ∅) as (pg' & _ & E).
    destruct (for_paragraphs_sim mode sorted fuel doc ∅ ∅) as [E' | E'];
      rewrite E in E'; [|done].
    destruct (for_paragraphs_other mode Honce Hpage sorted fuel doc)
      as [Hd | (doc' & Hc & Hr)]; [by rewrite Hd in E'|].
    destruct (Hr ∅ ∅) as (pg'' & _ & E''). rewrite E'' in E'.
    by injection E' as -> _.
Qed.

End OtherModesEngine.

(** * Outcomes of the engine *)

Section TextOfDocuments.



End TextOfDocuments.

Section LaxOutcomes.

Implicit Types (st : state) (sorted settings : list setting) (ga pg : dict).

(** The lax loops end in no exception: they return or run out of fuel. *)
Lemma while_runs_only_diverges mode sorted fuel : ∀ i st e,
  keys_ok sorted st →
  Lax.while_runs fuel mode sorted i st = inl e → e = Diverges.
Proof.
  induction fuel as [|fuel IH]; intros i st e Hk;
    cbn [Lax.while_runs]; destruct (runs (para st) !! i) as [run|];
    try done; [by intros [= <-]|].
  destruct (loop_body_total mode sorted i run st Hk) as (i' & st' & E).
  rewrite E. cbn [bind]. apply IH. eapply loop_body_keys_ok; eauto.
Qed.

Lemma for_paragraphs_only_diverges mode sorted fuel doc : ∀ ga pg e,
  keys_ok sorted (State [] ga pg) →
  Lax.for_paragraphs fuel mode sorted doc ga pg = inl e → e = Diverges.
Proof.
  induction doc as [|p doc IH]; intros ga pg e Hk; [done|].
  cbn [Lax.for_paragraphs].
  destruct (Lax.while_runs fuel mode sorted 0 (State p ga pg)) as [e'|st] eqn:E.
  - cbn [bind]. intros [= <-].
    by eapply (while_runs_only_diverges mode sorted fuel 0 (State p ga pg)).
  - cbn [bind]. apply while_runs_keys_ok in E; [|done].
    specialize (IH (global_applied st) (items_applied_on_page st)).
    destruct (Lax.for_paragraphs fuel mode sorted doc _ _)
      as [e'|[[doc' ga'] pg']]; [|done].
    cbn [bind]. intros [= <-]. by eapply IH.
Qed.

Lemma lax_engine_only_diverges fuel doc settings mode e :
  Lax.apply_ruby_to_document fuel doc settings mode = inl e → e = Diverges.
Proof.
  unfold Lax.apply_ruby_to_document, Lax.run_engine. cbv zeta.
  pose proof (for_paragraphs_only_diverges mode (sorted_desc settings) fuel doc
                (all_false settings) (all_false (sorted_desc settings))) as H.
  destruct (Lax.for_paragraphs fuel mode (sorted_desc settings) doc _ _)
    as [e'|[[d ga] pg]]; cbn [bind ret]; [|done].
  intros [= <-]. eapply H; [apply (keys_ok_initial settings [])|done].
Qed.

(** The engine ends in [ValueError] only when a reading or a run text is
    not XML compatible. *)
Lemma engine_xml_no_ValueError fuel doc settings mode :
  xml_readings settings → xml_texts doc →
  apply_ruby_to_document fuel doc settings mode ≠ inl ValueError.
Proof.
  intros Hr Hd. rewrite engine_agree_xml by done. intros E.
  by apply lax_engine_only_diverges in E.
Qed.

Lemma engine_as_all fuel doc settings mode :
  mode ≠ "once" → mode ≠ "per_page" →
  apply_ruby_to_document fuel doc settings mode
  = apply_ruby_to_document fuel doc settings "all".
Proof.
  intros Ho Hp. unfold apply_ruby_to_document, run_engine.
  by rewrite (for_paragraphs_engine_as_all mode Ho Hp).
Qed.

(** With nothing to match the engine returns the document it was
    given. *)
Lemma engine_returns_idle doc settings mode :
  Forall (λ p, Forall (unmatchable settings) (runs p)) doc →
  ∃ fuel0, ∀ fuel, fuel0 ≤ fuel →
    apply_ruby_to_document fuel doc settings mode = inr doc.
Proof.
  intros Hd. destruct (engine_idle doc settings mode Hd) as [fuel0 H].
  exists fuel0. intros fuel Hle. rewrite engine_agree_idle by done.
  by apply H.
Qed.

(** With XML-compatible readings and run texts and no empty word the
    engine returns a document. *)
Lemma engine_returns_xml doc settings mode :
  (∀ s, s ∈ settings → word s ≠ []) →
  xml_readings settings → xml_texts doc →
  ∃ fuel0 doc', ∀ fuel, fuel0 ≤ fuel →
    apply_ruby_to_document fuel doc settings mode = inr doc'.
Proof.
  intros Hne Hr Hd.
  destruct (engine_returns_nonempty doc settings mode Hne)
    as (fuel0 & doc' & HL).
  exists fuel0, doc'. intros fuel Hle. rewrite engine_agree_xml by done.
  by apply HL.
Qed.

End LaxOutcomes.

Section OnceOutcomes.

Implicit Types (doc : document) (settings sorted : list setting).





End OnceOutcomes.

Section ExitFacts.

(** A document returned in a mode other than 'once' and 'per_page' has
    nothing left to match. *)
Lemma engine_other_clean fuel doc settings mode doc' :
  mode ≠ "once" → mode ≠ "per_page" →
  apply_ruby_to_document fuel doc settings mode = inr doc' →
  Forall (λ p', clean_upto (sorted_desc settings) (length (runs p')) p') doc'.
Proof.
  intros Ho Hp (ga & pg & Hrun)%run_engine_inr.
  unfold run_engine in Hrun. cbv zeta in Hrun.
  destruct (for_paragraphs_engine_other mode Ho Hp (sorted_desc settings)
              fuel doc)
    as [Hd | [Hv | (doc'' & Hc & H)]];
    [by rewrite Hd in Hrun | by rewrite Hv in Hrun |].
  destruct (H (all_false settings) (all_false (sorted_desc settings)))
    as (pg' & _ & E).
  rewrite E in Hrun. by injection Hrun as <- _ _.
Qed.

End ExitFacts.

(** * Properties of the engine *)

(** ** The annotation builder *)

(** C8, counterexample. For the reading U+0001, and for the word U+0000,
    the builder returns no node: the assignment of the text raises
    [ValueError].  It does so whenever the reading or the word is not XML
    compatible. *)
Lemma builder_refuses_what_xml_cannot_hold :
  create_ruby_element Ex.kagi [1%N] = inl ValueError
  ∧ create_ruby_element [0%N] Ex.kagi_yomi = inl ValueError
  ∧ ∀ text ruby_text,
      xml_compatible ruby_text && xml_compatible text = false →
      create_ruby_element text ruby_text = inl ValueError.
Proof.
  split_and!; [reflexivity | reflexivity |].
  intros text ruby_text H. by rewrite create_ruby_element_spec, H.
Qed.

(** C8, as amended. For every word and reading that are XML compatible,
    [create_ruby_element] returns a [w:ruby] container with exactly
    three children in this order: the properties block [w:rubyPr], then
    the reading sub-node [w:rt] holding one run whose text is the
    reading, then the base sub-node [w:rubyBase] holding one run whose
    text is the word. *)
Theorem create_ruby_element_shape (text ruby_text : str) :
  xml_compatible text = true → xml_compatible ruby_text = true →
  ∃ node,
    create_ruby_element text ruby_text = inr node
    ∧ node
      = Elem "w:ruby" [] None
          [ Elem "w:rubyPr" [] None
              [Elem "w:rubyAlign" [("w:val", u "distributeSpace")] None []];
            Elem "w:rt" [] None
              [Elem "w:r" [] None [Elem "w:t" [] (Some ruby_text) []]];
            Elem "w:rubyBase" [] None
              [Elem "w:r" [] None [Elem "w:t" [] (Some text) []]] ]
    ∧ tag <$> children node = ["w:rubyPr"; "w:rt"; "w:rubyBase"]
    ∧ ruby_reading_text node = ruby_text
    ∧ ruby_base_text node = text.
Proof.
  intros Ht Hr. exists (Lax.create_ruby_element text ruby_text).
  rewrite create_ruby_element_spec, Ht, Hr.
  split_and!; [done | done | done | | apply ruby_base_text_create].
  change (ruby_reading_text (Lax.create_ruby_element text ruby_text))
    with (((ruby_text ++ []) ++ []) ++ []).
  by rewrite !app_nil_r.
Qed.

Lemma create_ruby_element_shape_witness :
  xml_compatible Ex.kagi = true ∧ xml_compatible Ex.kagi_yomi = true
  ∧ ∃ node,
      create_ruby_element Ex.kagi Ex.kagi_yomi = inr node
      ∧ tag <$> children node = ["w:rubyPr"; "w:rt"; "w:rubyBase"]
      ∧ ruby_reading_text node = Ex.kagi_yomi
      ∧ ruby_base_text node = Ex.kagi.
Proof.
  split; [reflexivity|]. split; [reflexivity|].
  destruct (create_ruby_element_shape Ex.kagi Ex.kagi_yomi eq_refl eq_refl)
    as (node & H1 & _ & H2 & H3 & H4).
  exists node. split_and!; assumption.
Defined.

(** ** Termination of the rescan loop *)

Section Looping.

Import Ex.

Lemma runs_blocks n : runs (blocks n) = replicate n (r_ []).
Proof.
  induction n as [|n IH]; [done|]. cbn [blocks].
  rewrite runs_app, IH. change (runs [r_ []; empty_ruby]) with [r_ []].
  by rewrite replicate_S_end.
Qed.

Lemma runs_looping n : runs (looping n) = replicate n (r_ []) ++ [r_ [t_ (u "a")]].
Proof. unfold looping. by rewrite runs_app, runs_blocks. Qed.

Lemma looping_step n ga pg :
  loop_body "all" empty_rule n (r_ [t_ (u "a")]) (State (looping n) ga pg)
  = inr (0, State (looping (S n)) ga pg).
Proof.
  pose proof (replace_run_app (blocks n) (r_ [t_ (u "a")]) []
                [r_ []; empty_ruby; r_ [t_ (u "a")]] eq_refl) as H.
  rewrite runs_blocks, length_replicate, app_nil_r in H.
  change (loop_body "all" empty_rule n (r_ [t_ (u "a")])
            (State (looping n) ga pg))
    with (inr (B := nat * state) (A := error)
            (0, State (replace_run n [r_ []; empty_ruby; r_ [t_ (u "a")]]
                         (looping n)) ga pg)).
  unfold looping at 1. rewrite H. unfold looping. cbn [blocks].
  by rewrite <- !app_assoc.
Qed.

Lemma looping_advance n i ga pg :
  loop_body "all" empty_rule i (r_ []) (State (looping n) ga pg)
  = inr (S i, State (looping n) ga pg).
Proof. done. Qed.

Lemma looping_diverges fuel : ∀ n i ga pg, i ≤ n →
  while_runs fuel "all" empty_rule i (State (looping n) ga pg) = inl Diverges.
Proof.
  induction fuel as [|fuel IH]; intros n i ga pg Hi; cbn [while_runs para];
    rewrite runs_looping.
  - destruct (decide (i = n)) as [->|Hne].
    + rewrite lookup_app_r, length_replicate, Nat.sub_diag
        by (rewrite length_replicate; lia). done.
    + rewrite lookup_app_l by (rewrite length_replicate; lia).
      rewrite lookup_replicate_2 by lia. done.
  - destruct (decide (i = n)) as [->|Hne].
    + rewrite lookup_app_r, length_replicate, Nat.sub_diag
        by (rewrite length_replicate; lia).
      cbn [lookup list_lookup]. rewrite looping_step. cbn [bind].
      apply IH. lia.
    + rewrite lookup_app_l by (rewrite length_replicate; lia).
      rewrite lookup_replicate_2 by lia.
      rewrite looping_advance. cbn [bind]. apply IH. lia.
Qed.

End Looping.

(** C6, counterexample. With a rule whose word is empty and mode [all],
    the empty word is found at index 0 of the run "a", and the loop on
    that one-run paragraph never reaches Done: whatever the fuel, the
    engine is still running. *)
Lemma rescan_loop_diverges_on_empty_word :
  find (u "a") [] = 0%Z
  ∧ ∀ fuel,
      apply_ruby_to_document fuel [[Ex.r_ [Ex.t_ (u "a")]]] Ex.empty_rule "all"
      = inl Diverges.
Proof.
  split; [apply find_nil_word|].
  intros fuel. unfold apply_ruby_to_document, run_engine.
  change (sorted_desc Ex.empty_rule) with Ex.empty_rule.
  cbn [for_paragraphs].
  change [Ex.r_ [Ex.t_ (u "a")]] with (Ex.looping 0).
  by rewrite looping_diverges.
Qed.

(** C6, as amended. When no rule has an empty word, the scan/splice/restart
    loop terminates: each completed split strictly shortens the scannable
    text of the paragraph (the matched word now sits in an annotation
    node, which is not a run), so the loop cannot go on for ever.  It
    ends at Done, or in the [ValueError] of a split that assigns a string
    XML cannot hold: for every fuel above some bound the engine gives one
    and the same outcome, a document or that error.  When the readings
    and the run texts are XML compatible no split raises and the engine
    returns a document. *)
Theorem rescan_loop_terminates (doc : document) (settings : list setting)
    (mode : string) :
  Forall (λ s, word s ≠ []) settings →
  (∀ i run s st st',
     s ∈ settings → runs (para st) !! i = Some run →
     find (run_text run) (word s) ≠ (-1)%Z →
     apply_match mode i run (run_text run)
       (find (run_text run) (word s)) s st = inr st' →
     length (visible_text (para st')) < length (visible_text (para st)))
  ∧ (∀ i st, keys_ok (sorted_desc settings) st →
       ∃ fuel, while_runs fuel mode (sorted_desc settings) i st
               ≠ inl Diverges)
  ∧ (∃ fuel0,
       (∃ doc', ∀ fuel, fuel0 ≤ fuel →
          apply_ruby_to_document fuel doc settings mode = inr doc')
       ∨ (∀ fuel, fuel0 ≤ fuel →
            apply_ruby_to_document fuel doc settings mode = inl ValueError))
  ∧ (xml_readings settings → xml_texts doc →
     ∃ fuel0 doc', ∀ fuel, fuel0 ≤ fuel →
       apply_ruby_to_document fuel doc settings mode = inr doc').
Proof.
  intros Hne. rewrite Forall_forall in Hne.
  assert (∀ s, s ∈ sorted_desc settings → word s ≠ []) as Hne'.
  { intros s Hs. apply Hne. by apply elem_of_sorted_desc. }
  destruct (engine_returns_nonempty doc settings mode Hne)
    as (fuel0 & doc' & HL).
  split_and!.
  - intros i run s st st' Hs Hi Hf. rewrite apply_match_spec.
    destruct (splittable _ _ _ _); [|done]. intros [= <-].
    apply splice_shortens; auto.
  - intros i st Hk.
    destruct (while_runs_terminates_nonempty mode (sorted_desc settings)
                st i Hne' Hk) as (fuel & st' & Hw).
    exists fuel.
    destruct (while_runs_sim mode (sorted_desc settings) fuel i st)
      as [-> | ->]; [by rewrite Hw | done].
  - exists fuel0.
    destruct (engine_settles fuel0 doc settings mode doc')
      as [H | H]; [by apply HL | left; by exists doc' | by right].
  - intros Hr Hd. exists fuel0, doc'. intros fuel Hle.
    rewrite engine_agree_xml by done. by apply HL.
Qed.

Lemma rescan_loop_terminates_witness :
  Forall (λ s, word s ≠ []) Ex.kagi_rule
  ∧ ∃ fuel0,
      (∃ doc', ∀ fuel, fuel0 ≤ fuel →
         apply_ruby_to_document fuel
           [[Ex.r_ [Ex.t_ (Ex.kagi ++ u "X" ++ Ex.kagi)]]] Ex.kagi_rule "all"
         = inr doc')
      ∨ (∀ fuel, fuel0 ≤ fuel →
           apply_ruby_to_document fuel
             [[Ex.r_ [Ex.t_ (Ex.kagi ++ u "X" ++ Ex.kagi)]]] Ex.kagi_rule "all"
           = inl ValueError).
Proof.
  assert (Forall (λ s, word s ≠ []) Ex.kagi_rule) as H
    by (repeat constructor; done).
  split; [exact H|].
  exact (proj1 (proj2 (proj2 (rescan_loop_terminates
           [[Ex.r_ [Ex.t_ (Ex.kagi ++ u "X" ++ Ex.kagi)]]]
           Ex.kagi_rule "all" H)))).
Defined.

(** ** Configuration errors *)

(** C2, counterexample. With an empty rule list the engine raises
    nothing and returns the document as it is; with a mode it does not
    know, it raises nothing either and annotates the document. *)
Lemma no_configuration_error_raised :
  apply_ruby_to_document 1 [[Ex.r_ [Ex.t_ Ex.kagi]]] [] "all"
  = inr [[Ex.r_ [Ex.t_ Ex.kagi]]]
  ∧ apply_ruby_to_document 2 [[Ex.r_ [Ex.t_ Ex.kagi]]] Ex.kagi_rule "sometimes"
    = inr [[Ex.r_ []; Ex.kagi_ruby]].
Proof. split; vm_compute; reflexivity. Qed.

(** C2, as amended. The engine has no configuration check and raises no
    configuration error.  It never raises [KeyError].  The one exception
    it can end in is the [ValueError] of a split that assigns a string
    XML cannot hold; that happens in the middle of processing, after
    earlier splits were made, and never when the readings and the run
    texts are XML compatible.  With an empty rule list it returns the
    document unchanged (every fuel that covers the longest paragraph
    gives that result); a rule with an empty reading is applied like any
    other; a mode it does not know is processed like 'all'.  The empty
    rule list is refused by the caller, the button handler of [app.py],
    which then does not call the engine. *)
Theorem engine_has_no_configuration_error :
  (∀ fuel doc settings mode k,
     apply_ruby_to_document fuel doc settings mode ≠ inl (KeyError k))
  ∧ (∀ fuel doc settings mode,
       xml_readings settings → xml_texts doc →
       apply_ruby_to_document fuel doc settings mode ≠ inl ValueError)
  ∧ (apply_ruby_to_document 5 [[Ex.r_ [Ex.t_ (u "a" ++ Ex.kagi)]]]
       [Setting (u "a") (u "x")] "all"
     = inr [[Ex.r_ []; Ex.ruby_ (u "a") (u "x"); Ex.r_ [Ex.t_ Ex.kagi]]]
     ∧ apply_ruby_to_document 5 [[Ex.r_ [Ex.t_ (u "a" ++ Ex.kagi)]]]
         [Setting (u "a") (u "x"); Setting Ex.kagi [1%N]] "all"
       = inl ValueError)
  ∧ (∀ doc mode, ∃ fuel0, ∀ fuel, fuel0 ≤ fuel →
       apply_ruby_to_document fuel doc [] mode = inr doc)
  ∧ apply_ruby_to_document 2 [[Ex.r_ [Ex.t_ Ex.kagi]]] [Setting Ex.kagi []] "all"
    = inr [[Ex.r_ []; Ex.ruby_ Ex.kagi []]]
  ∧ (∀ fuel doc settings mode, mode ≠ "once" → mode ≠ "per_page" →
       apply_ruby_to_document fuel doc settings mode
       = apply_ruby_to_document fuel doc settings "all")
  ∧ (∀ fuel doc mode, on_convert fuel (Some doc) [] mode = ErrorEmptySettings).
Proof.
  split_and!.
  - intros fuel doc settings mode k. apply engine_no_KeyError.
  - intros fuel doc settings mode. apply engine_xml_no_ValueError.
  - vm_compute. reflexivity.
  - vm_compute. reflexivity.
  - intros doc mode. apply engine_returns_idle.
    apply Forall_forall. intros p _. apply Forall_forall. intros c _.
    right. constructor.
  - vm_compute. reflexivity.
  - intros fuel doc settings mode. apply engine_as_all.
  - done.
Qed.

(** ** Text preservation *)

(** C3, the code at a failing input.  A run "a\r鍵" (a carriage return
    in a [w:t], before the match): after processing the scannable text
    is "a\n", which is not the original text "a\r鍵" with the annotated
    word 鍵 taken out; the truncated run holds "a" and a [w:br] where
    the carriage return was.  The same carriage return after the match
    is kept: the run made for the after-text of "鍵b\r" holds "b\r"
    as it was. *)
Theorem text_not_preserved_at_carriage_return :
  (∃ p', apply_ruby_to_document 3 [[Ex.r_ [Ex.t_ ([97; 13]%N ++ Ex.kagi)]]]
           Ex.kagi_rule "all" = inr [p']
     ∧ p' = [Ex.r_ [Ex.t_ (u "a"); OxmlElement "w:br"]; Ex.kagi_ruby]
     ∧ ruby_base_text <$> annotation_nodes p' = [Ex.kagi]
     ∧ visible_text p' = [97; 10]%N
     ∧ ¬ removal (visible_text [Ex.r_ [Ex.t_ ([97; 13]%N ++ Ex.kagi)]])
           (ruby_base_text <$> annotation_nodes p') (visible_text p'))
  ∧ apply_ruby_to_document 3 [[Ex.r_ [Ex.t_ (Ex.kagi ++ [98; 13]%N)]]]
      Ex.kagi_rule "all"
    = inr [[Ex.r_ []; Ex.kagi_ruby; Ex.r_ [Ex.t_ [98; 13]%N]]]
  ∧ visible_text [Ex.r_ []; Ex.kagi_ruby; Ex.r_ [Ex.t_ [98; 13]%N]]
    = [98; 13]%N.
Proof.
  split; [|split; vm_compute; reflexivity].
  eexists. split; [vm_compute; reflexivity|].
  split; [vm_compute; reflexivity|].
  split; [vm_compute; reflexivity|]. split; [vm_compute; reflexivity|].
  change (visible_text [Ex.r_ [Ex.t_ ([97; 13]%N ++ Ex.kagi)]])
    with [97; 13; 38261]%N.
  match goal with |- ¬ removal _ ?ws ?res =>
    change ws with [[38261%N]]; change res with [97; 10]%N end.
  intros H. inversion H as [|t w orig ws res Hrem Ho Hw Hr]; subst.
  inversion Hrem; subst.
  destruct t as [|a [|b [|c t]]]; simplify_eq/=.
Qed.

(** ** Longest match first *)

(** C4. The candidates are tried longest word first ([sorted_desc] is a
    permutation of the settings in which no entry is followed by a longer
    one), and the first candidate in that order that is eligible and
    whose word occurs in the run's text is the one applied; so the word
    applied is at least as long as every other eligible word occurring
    in the text.  With the rules 命→いのち and 運命→さだめ, in either order,
    and the text 運命, exactly one annotation is produced, 運命/さだめ. *)
Theorem longest_match_wins (mode : string) (i : nat) (run : elem)
    (text : str) (settings : list setting) (st : state) :
  keys_ok (sorted_desc settings) st →
  sorted_desc settings ≡ₚ settings
  ∧ longest_first (sorted_desc settings)
  ∧ ((for_settings mode i run text (sorted_desc settings) st = inr (false, st)
      ∧ ∀ s, s ∈ settings → eligible mode st (word s) →
             ¬ occurs (word s) text)
     ∨ (∃ pre s post,
          sorted_desc settings = pre ++ s :: post
          ∧ (∀ s', s' ∈ pre → eligible mode st (word s') →
                   ¬ occurs (word s') text)
          ∧ eligible mode st (word s) ∧ occurs (word s) text
          ∧ (∀ s', s' ∈ settings → eligible mode st (word s') →
                   occurs (word s') text →
                   length (word s') ≤ length (word s))
          ∧ for_settings mode i run text (sorted_desc settings) st
            = let* st' := apply_match mode i run text
                            (find text (word s)) s st in
              ret (true, st')))
  ∧ (∀ m, m ∈ ["once"; "per_page"; "all"] →
       apply_ruby_to_document 2 [[Ex.r_ [Ex.t_ Ex.unmei]]] Ex.unmei_rules m
       = inr [[Ex.r_ []; Ex.ruby_ Ex.unmei Ex.sadame_yomi]]
       ∧ apply_ruby_to_document 2 [[Ex.r_ [Ex.t_ Ex.unmei]]]
           (reverse Ex.unmei_rules) m
         = inr [[Ex.r_ []; Ex.ruby_ Ex.unmei Ex.sadame_yomi]]).
Proof.
  intros Hk. split; [apply sorted_desc_perm|].
  split; [apply sorted_desc_longest_first|]. split.
  - destruct (for_settings_scan mode i run text (sorted_desc settings) st Hk)
      as [[E Hall] | (pre & s & post & Hs & Hpre & He & Hf & E)].
    + left. split; [done|]. intros s Hs He.
      apply find_miss, Hall; [by apply elem_of_sorted_desc | done].
    + right. exists pre, s, post. split_and!; try done.
      * intros s' Hs' He'. by apply find_miss, Hpre.
      * apply find_hit in Hf as (_ & Hsplit & _). red. eauto.
      * intros s' Hs' He' Ho.
        apply elem_of_sorted_desc in Hs'. rewrite Hs in Hs'.
        apply elem_of_app in Hs' as [Hs'|Hs'].
        { exfalso. apply (find_miss text (word s')); eauto. }
        apply elem_of_cons in Hs' as [->|Hs']; [done|].
        eapply (sorted_desc_longest_first settings pre s post s'); eauto.
  - intros m Hm. repeat (apply elem_of_cons in Hm as [->|Hm]);
      [split; vm_compute; reflexivity ..|].
    by apply elem_of_nil in Hm.
Qed.

Lemma longest_match_wins_witness :
  keys_ok (sorted_desc Ex.unmei_rules)
    (State [Ex.r_ [Ex.t_ Ex.unmei]] (all_false Ex.unmei_rules)
       (all_false (sorted_desc Ex.unmei_rules)))
  ∧ longest_first (sorted_desc Ex.unmei_rules).
Proof.
  assert (keys_ok (sorted_desc Ex.unmei_rules)
            (State [Ex.r_ [Ex.t_ Ex.unmei]] (all_false Ex.unmei_rules)
               (all_false (sorted_desc Ex.unmei_rules)))) as H.
  { intros s Hs. vm_compute in Hs.
    repeat (apply elem_of_cons in Hs as [->|Hs]);
      [split; vm_compute; eauto ..|].
    by apply elem_of_nil in Hs. }
  split; [exact H|].
  exact (proj1 (proj2 (longest_match_wins "once" 0 (Ex.r_ [Ex.t_ Ex.unmei])
                         Ex.unmei Ex.unmei_rules _ H))).
Defined.

(** ** The run splitter *)

(** C7, counterexample. The text after the match starts with a tab (the
    run holds 鍵, a [w:tab], then "b"), or with an ideographic space
    (U+3000): both are whitespace, yet the run created for the after-text
    is not marked [xml:space="preserve"]. *)
Lemma after_run_not_marked_for_other_whitespace :
  (isspace 9%N = true
   ∧ apply_ruby_to_document 3
       [[Ex.r_ [Ex.t_ Ex.kagi; Ex.tab; Ex.t_ (u "b")]]] Ex.kagi_rule "all"
     = inr [[Ex.r_ []; Ex.kagi_ruby;
             Ex.r_ [Elem "w:t" [] (Some ([9%N] ++ u "b")) []]]])
  ∧ (isspace 12288%N = true
     ∧ apply_ruby_to_document 3
         [[Ex.r_ [Ex.t_ (Ex.kagi ++ [12288%N] ++ u "b")]]] Ex.kagi_rule "all"
       = inr [[Ex.r_ []; Ex.kagi_ruby;
               Ex.r_ [Elem "w:t" [] (Some ([12288%N] ++ u "b")) []]]]).
Proof. split_and!; vm_compute; reflexivity. Qed.

(** C7, as amended. For every split of the [i]-th run of a paragraph,
    the run is replaced, in place, by the truncated run, then the
    annotation node, then, when the text after the match is not empty, a
    new run holding a copy of the original run's [w:rPr] (when it has
    one) and one [w:t] with the after-text; that [w:t] is marked
    [xml:space="preserve"] if and only if the after-text starts or ends
    with the space character U+0020.  When the after-text is empty no run
    is created after the annotation node.  The truncated run keeps its
    [w:rPr].  The split is made exactly when the four strings it assigns
    are XML compatible. *)
Theorem split_creates_after_run (p : paragraph) (i : nat) (run : elem)
    (text : str) (idx : Z) (w r : str) :
  runs p !! i = Some run →
  ∃ pre post,
    p = pre ++ run :: post ∧ length (runs pre) = i
    ∧ (splittable text idx w r = true
       ↔ ∃ new, split_run run text idx w r = inr new)
    ∧ ∀ new, split_run run text idx w r = inr new →
        ∃ run' ruby_elem,
          set_run_text (slice_to text idx) run = inr run'
          ∧ create_ruby_element w r = inr ruby_elem
          ∧ rPr run' = rPr run
          ∧ replace_run i new p
            = pre
              ++ [run'; ruby_elem]
              ++ match slice_from text (idx + len w) with
                 | [] => []
                 | after =>
                     [Elem "w:r" [] None
                        (option_list (rPr run)
                         ++ [Elem "w:t"
                               (if bool_decide (head after = Some 32%N)
                                   || bool_decide (last after = Some 32%N)
                                then [("xml:space", u "preserve")] else [])
                               (Some after) []])]
                 end
              ++ post.
Proof.
  intros Hi.
  destruct (replace_run_split i run p
              (Lax.split_run run text idx w r) Hi)
    as (pre & post & Hp & Hl & Hr).
  exists pre, post. split_and!; [done | done | |].
  - rewrite split_run_spec. destruct (splittable text idx w r).
    + split; [eauto | done].
    + split; [done | by intros [new ?]].
  - intros new. rewrite split_run_spec.
    destruct (splittable text idx w r) eqn:Hsp; [|done]. intros [= <-].
    unfold splittable in Hsp.
    apply andb_true_iff in Hsp as [Hsp Ha].
    apply andb_true_iff in Hsp as [Hsp Hw].
    apply andb_true_iff in Hsp as [Hb Hr'].
    exists (Lax.set_run_text (slice_to text idx) run),
      (Lax.create_ruby_element w r).
    rewrite set_run_text_spec, create_ruby_element_spec, Hb, Hr', Hw.
    split_and!; [done | done | apply rPr_set_run_text |].
    rewrite Hr, split_run_shape. by rewrite <- !app_assoc.
Qed.

Lemma split_creates_after_run_witness :
  runs [Ex.r_ [Ex.bold; Ex.t_ (u "a " ++ Ex.kagi ++ u " b")]] !! 0
  = Some (Ex.r_ [Ex.bold; Ex.t_ (u "a " ++ Ex.kagi ++ u " b")])
  ∧ ∃ pre post,
      [Ex.r_ [Ex.bold; Ex.t_ (u "a " ++ Ex.kagi ++ u " b")]]
      = pre ++ Ex.r_ [Ex.bold; Ex.t_ (u "a " ++ Ex.kagi ++ u " b")] :: post
      ∧ ∃ new,
          split_run (Ex.r_ [Ex.bold; Ex.t_ (u "a " ++ Ex.kagi ++ u " b")])
            (u "a " ++ Ex.kagi ++ u " b") 2 Ex.kagi Ex.kagi_yomi = inr new
          ∧ replace_run 0 new
              [Ex.r_ [Ex.bold; Ex.t_ (u "a " ++ Ex.kagi ++ u " b")]]
            = pre
              ++ [Ex.r_ [Ex.bold;
                         Elem "w:t" [("xml:space", u "preserve")]
                           (Some (u "a ")) []];
                  Ex.kagi_ruby;
                  Ex.r_ [Ex.bold;
                         Elem "w:t" [("xml:space", u "preserve")]
                           (Some (u " b")) []]]
              ++ post.
Proof.
  split; [reflexivity|].
  destruct (split_creates_after_run
              [Ex.r_ [Ex.bold; Ex.t_ (u "a " ++ Ex.kagi ++ u " b")]] 0
              (Ex.r_ [Ex.bold; Ex.t_ (u "a " ++ Ex.kagi ++ u " b")])
              (u "a " ++ Ex.kagi ++ u " b") 2 Ex.kagi Ex.kagi_yomi eq_refl)
    as (pre & post & Hp & _ & Hsp & Hr).
  exists pre, post. split; [exact Hp|].
  destruct (proj1 Hsp eq_refl) as [new Hnew]. exists new.
  split; [exact Hnew|].
  destruct (Hr new Hnew) as (run' & ruby_elem & E1 & E2 & _ & ->).
  vm_compute in E1. injection E1 as <-.
  vm_compute in E2. injection E2 as <-.
  reflexivity.
Defined.

(** C10. When a run is split, the children of the truncated run are its
    [w:rPr] followed by what the text setter writes for the before-text
    alone: [w:t], [w:tab] and [w:br] elements without a [w:type]
    attribute.  The run created for the after-text holds a copy of the
    [w:rPr] and one [w:t].  So no other child of the original run
    survives in either run: in particular no [w:lastRenderedPageBreak]
    and no [w:br] of type page. *)
Theorem split_drops_other_children (run : elem) (text : str) (idx : Z)
    (w r : str) :
  (xml_compatible (slice_to text idx) = true
   ↔ ∃ run', set_run_text (slice_to text idx) run = inr run')
  ∧ (∀ run', set_run_text (slice_to text idx) run = inr run' →
       children run'
       = filter (λ c, tag c = "w:rPr") (children run)
         ++ content_of_text (slice_to text idx))
  ∧ (∀ new e c, split_run run text idx w r = inr new →
       e ∈ new → tag e ≠ "w:ruby" →
       c ∈ children e →
       tag c = "w:rPr"
       ∨ (plain_text_child c ∧ tag c ≠ "w:lastRenderedPageBreak"
          ∧ get_attr "w:type" c = None))
  ∧ apply_ruby_to_document 3
      [[Ex.r_ [Ex.bold; Ex.lrpb; Ex.br_page; Ex.t_ (u "a" ++ Ex.kagi ++ u "b")]]]
      Ex.kagi_rule "all"
    = inr [[Ex.r_ [Ex.bold; Ex.t_ (u "a")]; Ex.kagi_ruby;
            Ex.r_ [Ex.bold; Ex.t_ (u "b")]]].
Proof.
  assert (∀ c, plain_text_child c →
            plain_text_child c ∧ tag c ≠ "w:lastRenderedPageBreak"
            ∧ get_attr "w:type" c = None) as Hplain.
  { intros c Hc. split; [done|].
    destruct Hc as [_ [[Ht [Ha|Ha]]|[[Ht [Ha _]]|[Ht [Ha _]]]]];
      unfold get_attr; rewrite Ht, Ha; done. }
  split_and!; [| | | vm_compute; reflexivity].
  - rewrite set_run_text_spec.
    destruct (xml_compatible (slice_to text idx)).
    + split; [eauto | done].
    + split; [done | by intros [run' ?]].
  - intros run'. rewrite set_run_text_spec.
    destruct (xml_compatible (slice_to text idx)); [|done].
    intros [= <-]. apply children_set_run_text.
  - intros new e c. rewrite split_run_spec.
    destruct (splittable text idx w r); [|done]. intros [= <-] He Hne Hc.
    rewrite split_run_shape in He.
    apply elem_of_app in He as [He|He].
    + apply elem_of_cons in He as [->|He].
      * rewrite children_set_run_text in Hc.
        apply elem_of_app in Hc as [Hc|Hc].
        -- left. by apply list_elem_of_filter in Hc as [? _].
        -- right. apply Hplain.
           eapply Forall_forall in Hc; [exact Hc | apply plain_content_of_text].
      * apply list_elem_of_singleton in He as ->. by destruct Hne.
    + destruct (slice_from text (idx + len w)) as [|a after] eqn:E;
        [by apply elem_of_nil in He|].
      apply list_elem_of_singleton in He as ->. cbn [children] in Hc.
      apply elem_of_app in Hc as [Hc|Hc].
      * left. destruct (rPr run) as [x|] eqn:Ex; [|by apply elem_of_nil in Hc].
        apply list_elem_of_singleton in Hc as ->. by eapply rPr_tag.
      * right. apply list_elem_of_singleton in Hc as ->. apply Hplain.
        split; [done|]. left. split; [done|].
        by destruct (_ || _); [right | left].
Qed.

(** ** Once per page *)

(** C1, the code at two failing inputs.  A rendered page-break marker in
    a run before the run "鍵X鍵": both occurrences on that one page are
    annotated, because every restart of the scan passes the marker again
    and resets the page tracker.  And a run "鍵鍵" that ends with a page
    break, followed by a paragraph "鍵": only one annotation is produced,
    none after the break, because the marker is taken as preceding the
    text of its run and is deleted by the split. *)
Theorem per_page_is_not_once_per_page :
  (apply_ruby_to_document 10
     [[Ex.r_ [Ex.lrpb; Ex.t_ (u "A")];
       Ex.r_ [Ex.t_ (Ex.kagi ++ u "X" ++ Ex.kagi)]]]
     Ex.kagi_rule "per_page"
   = inr [[Ex.r_ [Ex.lrpb; Ex.t_ (u "A")];
           Ex.r_ []; Ex.kagi_ruby; Ex.r_ [Ex.t_ (u "X")]; Ex.kagi_ruby]]
   ∧ count_annotations Ex.kagi
       [[Ex.r_ [Ex.lrpb; Ex.t_ (u "A")];
         Ex.r_ []; Ex.kagi_ruby; Ex.r_ [Ex.t_ (u "X")]; Ex.kagi_ruby]] = 2)
  ∧ (apply_ruby_to_document 10
       [[Ex.r_ [Ex.t_ (Ex.kagi ++ Ex.kagi); Ex.br_page]]; [Ex.r_ [Ex.t_ Ex.kagi]]]
       Ex.kagi_rule "per_page"
     = inr [[Ex.r_ []; Ex.kagi_ruby; Ex.r_ [Ex.t_ Ex.kagi]];
            [Ex.r_ [Ex.t_ Ex.kagi]]]
     ∧ count_annotations Ex.kagi
         [[Ex.r_ []; Ex.kagi_ruby; Ex.r_ [Ex.t_ Ex.kagi]];
          [Ex.r_ [Ex.t_ Ex.kagi]]] = 1).
Proof. split_and!; vm_compute; reflexivity. Qed.

(** ** Modes other than [once] and [per_page] *)

(** C9, counterexample. In mode 'all' with the rules "ab" and "bc", the
    word "bc" occurs in the run "abc", yet it gets no annotation: "ab" is
    annotated first and the split cuts the occurrence of "bc". *)
Lemma overlapping_occurrence_not_annotated :
  occurs (u "bc") (visible_text [Ex.r_ [Ex.t_ (u "abc")]])
  ∧ apply_ruby_to_document 3 [[Ex.r_ [Ex.t_ (u "abc")]]] Ex.overlap_rules "all"
    = inr [[Ex.r_ []; Ex.ruby_ (u "ab") (u "x"); Ex.r_ [Ex.t_ (u "c")]]]
  ∧ count_annotations (u "bc")
      [[Ex.r_ []; Ex.ruby_ (u "ab") (u "x"); Ex.r_ [Ex.t_ (u "c")]]] = 0.
Proof.
  split_and!; [|vm_compute; reflexivity ..].
  exists (u "a"), []. vm_compute. reflexivity.
Qed.

(** C9, as amended. For every mode value other than 'once' and
    'per_page' the engine does what it does for 'all': the two runs are
    equal, outcome and trackers included.  The trackers are neither
    consulted nor updated: whatever trackers the pass starts from, it
    runs out of fuel, or ends in [ValueError], or returns one and the
    same document; the document-wide tracker comes back as it went in,
    and the page tracker is either untouched or reset to its initial
    value.  In a document that is returned no word of the settings is
    left in the text of any non-empty run (an occurrence cut by an
    earlier split gets no annotation of its own).  When no word is empty
    the engine does not run for ever, and it returns a document when the
    readings and the run texts are XML compatible. *)
Theorem other_modes_behave_as_all (mode : string) :
  mode ≠ "once" → mode ≠ "per_page" →
  (∀ fuel doc settings,
     run_engine fuel doc settings mode = run_engine fuel doc settings "all")
  ∧ (∀ fuel doc sorted,
       (∀ ga pg, for_paragraphs fuel mode sorted doc ga pg = inl Diverges)
       ∨ (∀ ga pg, for_paragraphs fuel mode sorted doc ga pg = inl ValueError)
       ∨ ∃ doc', ∀ ga pg, ∃ pg',
           (pg' = pg ∨ pg' = all_false sorted)
           ∧ for_paragraphs fuel mode sorted doc ga pg = inr (doc', ga, pg'))
  ∧ (∀ fuel doc settings doc' ga pg,
       run_engine fuel doc settings mode = inr (doc', ga, pg) →
       ga = all_false settings ∧ pg = all_false (sorted_desc settings)
       ∧ ∀ p' run s, p' ∈ doc' → run ∈ runs p' → s ∈ settings →
           run_text run ≠ [] → ¬ occurs (word s) (run_text run))
  ∧ (∀ doc settings, Forall (λ s, word s ≠ []) settings →
       (∃ fuel0,
          (∃ doc', ∀ fuel, fuel0 ≤ fuel →
             apply_ruby_to_document fuel doc settings mode = inr doc')
          ∨ (∀ fuel, fuel0 ≤ fuel →
               apply_ruby_to_document fuel doc settings mode
               = inl ValueError))
       ∧ (xml_readings settings → xml_texts doc →
          ∃ fuel0 doc', ∀ fuel, fuel0 ≤ fuel →
            apply_ruby_to_document fuel doc settings mode = inr doc')).
Proof.
  intros Ho Hp. split_and!.
  - intros fuel doc settings. unfold run_engine.
    by apply for_paragraphs_engine_as_all.
  - intros fuel doc sorted.
    destruct (for_paragraphs_engine_other mode Ho Hp sorted fuel doc)
      as [Hd | [Hv | (doc' & _ & H)]];
      [by left | right; by left | right; right; eauto].
  - intros fuel doc settings doc' ga pg. unfold run_engine.
    destruct (for_paragraphs_engine_other mode Ho Hp (sorted_desc settings)
                fuel doc)
      as [Hd | [Hv | (doc'' & Hc & H)]];
      [by rewrite Hd | by rewrite Hv |].
    destruct (H (all_false settings) (all_false (sorted_desc settings)))
      as (pg' & Hpg & ->).
    intros [= <- <- <-]. split_and!; [done | by destruct Hpg |].
    intros p' run s Hp' Hrun Hs Hne.
    rewrite Forall_forall in Hc. specialize (Hc p' Hp').
    apply list_elem_of_lookup in Hrun as [j Hj].
    apply find_miss. eapply (Hc j run s); eauto.
    + by eapply lookup_lt_Some.
    + by apply elem_of_sorted_desc.
  - intros doc settings Hne. rewrite Forall_forall in Hne.
    destruct (engine_returns_nonempty doc settings mode Hne)
      as (fuel0 & doc' & HL).
    split.
    + exists fuel0.
      destruct (engine_settles fuel0 doc settings mode doc')
        as [H | H]; [by apply HL | left; by exists doc' | by right].
    + intros Hr Hd. by apply engine_returns_xml.
Qed.

Lemma other_modes_behave_as_all_witness :
  "sometimes" ≠ "once" ∧ "sometimes" ≠ "per_page"
  ∧ ∀ fuel doc settings,
      run_engine fuel doc settings "sometimes"
      = run_engine fuel doc settings "all".
Proof.
  assert ("sometimes" ≠ "once") as H1 by done.
  assert ("sometimes" ≠ "per_page") as H2 by done.
  split; [exact H1|]. split; [exact H2|].
  exact (proj1 (other_modes_behave_as_all "sometimes" H1 H2)).
Defined.

(** ** Once per document *)



(** ** What a run of the engine leaves alone *)

(** X1. When no run with text holds any of the words, the engine returns
    the document exactly as it was given, in every mode. *)
Theorem no_match_leaves_document_unchanged (doc : document)
    (settings : list setting) (mode : string) :
  Forall (λ p, Forall (unmatchable settings) (runs p)) doc →
  ∃ fuel0, ∀ fuel, fuel0 ≤ fuel →
    apply_ruby_to_document fuel doc settings mode = inr doc.
Proof. apply engine_returns_idle. Qed.

Lemma no_match_leaves_document_unchanged_witness :
  Forall (λ p, Forall (unmatchable Ex.kagi_rule) (runs p))
    [[Ex.r_ [Ex.bold; Ex.t_ (u "abc")]; Ex.r_ [Ex.lrpb]]; [Ex.kagi_ruby]]
  ∧ ∃ fuel0, ∀ fuel, fuel0 ≤ fuel →
      apply_ruby_to_document fuel
        [[Ex.r_ [Ex.bold; Ex.t_ (u "abc")]; Ex.r_ [Ex.lrpb]]; [Ex.kagi_ruby]]
        Ex.kagi_rule "per_page"
      = inr [[Ex.r_ [Ex.bold; Ex.t_ (u "abc")]; Ex.r_ [Ex.lrpb]];
             [Ex.kagi_ruby]].
Proof.
  assert (Forall (λ p, Forall (unmatchable Ex.kagi_rule) (runs p))
            [[Ex.r_ [Ex.bold; Ex.t_ (u "abc")]; Ex.r_ [Ex.lrpb]];
             [Ex.kagi_ruby]]) as H.
  { unfold unmatchable. by_computation. }
  split; [exact H|].
  exact (no_match_leaves_document_unchanged _ _ "per_page" H).
Defined.

(** X2. In mode 'all' (and every mode treated like it) a second run of
    the engine on its own output changes nothing: what the first run
    returned is returned again. *)
Theorem all_mode_is_idempotent (doc : document) (settings : list setting)
    (mode : string) (fuel : nat) (doc' : document) :
  mode ≠ "once" → mode ≠ "per_page" →
  apply_ruby_to_document fuel doc settings mode = inr doc' →
  ∃ fuel0, ∀ fuel', fuel0 ≤ fuel' →
    apply_ruby_to_document fuel' doc' settings mode = inr doc'.
Proof.
  intros Ho Hp Hrun.
  pose proof (engine_other_clean _ _ _ _ _ Ho Hp Hrun) as Hc.
  apply engine_returns_idle.
  eapply Forall_impl; [exact Hc|]. intros p Hp'.
  eapply Forall_impl; [exact (clean_runs_unmatchable _ _ Hp')|].
  intros c. apply unmatchable_sorted_desc.
Qed.

Lemma all_mode_is_idempotent_witness :
  "all" ≠ "once" ∧ "all" ≠ "per_page"
  ∧ apply_ruby_to_document 5
      [[Ex.r_ [Ex.bold; Ex.t_ (Ex.kagi ++ u "X" ++ Ex.kagi)]]]
      Ex.kagi_rule "all"
    = inr [[Ex.r_ [Ex.bold]; Ex.kagi_ruby;
            Ex.r_ [Ex.bold; Ex.t_ (u "X")]; Ex.kagi_ruby]]
  ∧ ∃ fuel0, ∀ fuel', fuel0 ≤ fuel' →
      apply_ruby_to_document fuel'
        [[Ex.r_ [Ex.bold]; Ex.kagi_ruby;
          Ex.r_ [Ex.bold; Ex.t_ (u "X")]; Ex.kagi_ruby]]
        Ex.kagi_rule "all"
      = inr [[Ex.r_ [Ex.bold]; Ex.kagi_ruby;
              Ex.r_ [Ex.bold; Ex.t_ (u "X")]; Ex.kagi_ruby]].
Proof.
  assert ("all" ≠ "once") as H1 by done.
  assert ("all" ≠ "per_page") as H2 by done.
  assert (apply_ruby_to_document 5
            [[Ex.r_ [Ex.bold; Ex.t_ (Ex.kagi ++ u "X" ++ Ex.kagi)]]]
            Ex.kagi_rule "all"
          = inr [[Ex.r_ [Ex.bold]; Ex.kagi_ruby;
                  Ex.r_ [Ex.bold; Ex.t_ (u "X")]; Ex.kagi_ruby]]) as H
    by (vm_compute; reflexivity).
  split; [exact H1|]. split; [exact H2|]. split; [exact H|].
  exact (all_mode_is_idempotent _ _ _ _ _ H1 H2 H).
Defined.

(** X3. Every run of a processed paragraph carries the formatting
    properties ([w:rPr]) of a run of the original paragraph: the engine
    introduces no formatting of its own and the runs it creates inherit
    that of the run they were split from. *)
Theorem formatting_is_inherited (doc : document) (settings : list setting)
    (mode : string) (fuel : nat) (doc' : document) :
  apply_ruby_to_document fuel doc settings mode = inr doc' →
  Forall2 formatting_from doc doc'.
Proof.
  apply engine_related.
  - apply formatting_from_refl.
  - apply formatting_from_trans.
  - intros pre run post s earlier later _ _ Ht _ _ _.
    by apply formatting_from_split.
Qed.

Lemma formatting_is_inherited_witness :
  apply_ruby_to_document 5
    [[Ex.r_ [Ex.bold; Ex.t_ (Ex.kagi ++ u "X" ++ Ex.kagi)]]]
    Ex.kagi_rule "all"
  = inr [[Ex.r_ [Ex.bold]; Ex.kagi_ruby;
          Ex.r_ [Ex.bold; Ex.t_ (u "X")]; Ex.kagi_ruby]]
  ∧ Forall2 formatting_from
      [[Ex.r_ [Ex.bold; Ex.t_ (Ex.kagi ++ u "X" ++ Ex.kagi)]]]
      [[Ex.r_ [Ex.bold]; Ex.kagi_ruby;
        Ex.r_ [Ex.bold; Ex.t_ (u "X")]; Ex.kagi_ruby]].
Proof.
  assert (apply_ruby_to_document 5
            [[Ex.r_ [Ex.bold; Ex.t_ (Ex.kagi ++ u "X" ++ Ex.kagi)]]]
            Ex.kagi_rule "all"
          = inr [[Ex.r_ [Ex.bold]; Ex.kagi_ruby;
                  Ex.r_ [Ex.bold; Ex.t_ (u "X")]; Ex.kagi_ruby]]) as H
    by (vm_compute; reflexivity).
  split; [exact H|].
  exact (formatting_is_inherited _ _ _ _ _ H).
Defined.

(** X4. The children of a paragraph that are not runs, and the runs whose
    text is empty or holds none of the words, all come out of the engine
    unchanged and in their original order. *)
Theorem unmatched_children_are_kept (doc : document)
    (settings : list setting) (mode : string) (fuel : nat)
    (doc' : document) :
  apply_ruby_to_document fuel doc settings mode = inr doc' →
  Forall2 (λ p p', filter (kept settings) p `sublist_of` p') doc doc'.
Proof.
  intros H.
  eapply Forall2_impl.
  - apply (engine_related
             (λ p p', filter (kept settings) p
                      `sublist_of` filter (kept settings) p') settings)
      with (fuel := fuel) (mode := mode); [done | | | exact H].
    + intros p q r H1 H2. by etrans.
    + intros pre run post s earlier later Hs _ Ht Hne Hf _.
      rewrite !filter_app, filter_cons.
      rewrite decide_False by by eapply kept_not_matched.
      apply sublist_app; [done|]. by apply sublist_inserts_l.
  - intros p p' Hsub. cbn beta in Hsub. etrans; [exact Hsub|].
    apply sublist_filter.
Qed.

Lemma unmatched_children_are_kept_witness :
  apply_ruby_to_document 10
    [[Ex.lrpb; Ex.r_ [Ex.bold; Ex.t_ (u "a")];
      Ex.r_ [Ex.t_ (Ex.kagi ++ u "X")]; Ex.r_ [Ex.br_page]]]
    Ex.kagi_rule "once"
  = inr [[Ex.lrpb; Ex.r_ [Ex.bold; Ex.t_ (u "a")];
          Ex.r_ []; Ex.kagi_ruby; Ex.r_ [Ex.t_ (u "X")];
          Ex.r_ [Ex.br_page]]]
  ∧ Forall2 (λ p p', filter (kept Ex.kagi_rule) p `sublist_of` p')
      [[Ex.lrpb; Ex.r_ [Ex.bold; Ex.t_ (u "a")];
        Ex.r_ [Ex.t_ (Ex.kagi ++ u "X")]; Ex.r_ [Ex.br_page]]]
      [[Ex.lrpb; Ex.r_ [Ex.bold; Ex.t_ (u "a")];
        Ex.r_ []; Ex.kagi_ruby; Ex.r_ [Ex.t_ (u "X")];
        Ex.r_ [Ex.br_page]]].
Proof.
  assert (apply_ruby_to_document 10
            [[Ex.lrpb; Ex.r_ [Ex.bold; Ex.t_ (u "a")];
              Ex.r_ [Ex.t_ (Ex.kagi ++ u "X")]; Ex.r_ [Ex.br_page]]]
            Ex.kagi_rule "once"
          = inr [[Ex.lrpb; Ex.r_ [Ex.bold; Ex.t_ (u "a")];
                  Ex.r_ []; Ex.kagi_ruby; Ex.r_ [Ex.t_ (u "X")];
                  Ex.r_ [Ex.br_page]]]) as H
    by (vm_compute; reflexivity).
  split; [exact H|].
  exact (unmatched_children_are_kept _ _ _ _ _ H).
Defined.

(** X5. Every annotation node of a processed paragraph was either there
    before or is the node [create_ruby_element] builds for one of the
    settings, and that setting is the first of the list with its word:
    when a word is registered twice, the reading registered first is the
    one used. *)
Theorem annotations_come_from_first_setting (doc : document)
    (settings : list setting) (mode : string) (fuel : nat)
    (doc' : document) :
  apply_ruby_to_document fuel doc settings mode = inr doc' →
  Forall2 (annotations_from settings) doc doc'.
Proof.
  apply engine_related.
  - intros p c Hc. by left.
  - apply annotations_from_trans.
  - intros pre run post s earlier later Hs Hfirst Ht _ _ Hsp c.
    rewrite !annotation_nodes_app, annotation_nodes_split_run by done.
    rewrite annotation_nodes_cons_run by done.
    rewrite !elem_of_app, list_elem_of_singleton.
    intros [Hin | [-> | Hin]]; [left; eauto | | left; eauto].
    right. exists s. split_and!; [|by eapply first_in_sorted_desc|].
    + apply elem_of_sorted_desc. rewrite Hs. set_solver.
    + unfold splittable in Hsp.
      apply andb_true_iff in Hsp as [Hsp _].
      apply andb_true_iff in Hsp as [Hsp Hw].
      apply andb_true_iff in Hsp as [_ Hr].
      by rewrite create_ruby_element_spec, Hr, Hw.
Qed.

Lemma annotations_come_from_first_setting_witness :
  apply_ruby_to_document 5 [[Ex.r_ [Ex.t_ (u "a" ++ Ex.kagi)]]]
    [Setting Ex.kagi Ex.kagi_yomi; Setting Ex.kagi Ex.sadame_yomi] "all"
  = inr [[Ex.r_ [Ex.t_ (u "a")]; Ex.kagi_ruby]]
  ∧ Forall2
      (annotations_from
         [Setting Ex.kagi Ex.kagi_yomi; Setting Ex.kagi Ex.sadame_yomi])
      [[Ex.r_ [Ex.t_ (u "a" ++ Ex.kagi)]]]
      [[Ex.r_ [Ex.t_ (u "a")]; Ex.kagi_ruby]].
Proof.
  assert (apply_ruby_to_document 5 [[Ex.r_ [Ex.t_ (u "a" ++ Ex.kagi)]]]
            [Setting Ex.kagi Ex.kagi_yomi; Setting Ex.kagi Ex.sadame_yomi]
            "all"
          = inr [[Ex.r_ [Ex.t_ (u "a")]; Ex.kagi_ruby]]) as H
    by (vm_compute; reflexivity).
  split; [exact H|].
  exact (annotations_come_from_first_setting _ _ _ _ _ H).
Defined.

(** X6. Processing a paragraph only adds to it: some number of
    annotation nodes and, for each of them, at most one run; no child is
    removed. *)
Theorem paragraphs_only_grow (doc : document) (settings : list setting)
    (mode : string) (fuel : nat) (doc' : document) :
  apply_ruby_to_document fuel doc settings mode = inr doc' →
  Forall2 grown_by doc doc'.
Proof.
  apply engine_related.
  - intros p. exists 0, 0. lia.
  - apply grown_by_trans.
  - intros pre run post s earlier later _ _ Ht _ _ _. by apply grown_by_split.
Qed.

Lemma paragraphs_only_grow_witness :
  apply_ruby_to_document 5
    [[Ex.r_ [Ex.bold; Ex.t_ (Ex.kagi ++ u "X" ++ Ex.kagi)]]]
    Ex.kagi_rule "all"
  = inr [[Ex.r_ [Ex.bold]; Ex.kagi_ruby;
          Ex.r_ [Ex.bold; Ex.t_ (u "X")]; Ex.kagi_ruby]]
  ∧ Forall2 grown_by
      [[Ex.r_ [Ex.bold; Ex.t_ (Ex.kagi ++ u "X" ++ Ex.kagi)]]]
      [[Ex.r_ [Ex.bold]; Ex.kagi_ruby;
        Ex.r_ [Ex.bold; Ex.t_ (u "X")]; Ex.kagi_ruby]].
Proof.
  assert (apply_ruby_to_document 5
            [[Ex.r_ [Ex.bold; Ex.t_ (Ex.kagi ++ u "X" ++ Ex.kagi)]]]
            Ex.kagi_rule "all"
          = inr [[Ex.r_ [Ex.bold]; Ex.kagi_ruby;
                  Ex.r_ [Ex.bold; Ex.t_ (u "X")]; Ex.kagi_ruby]]) as H
    by (vm_compute; reflexivity).
  split; [exact H|].
  exact (paragraphs_only_grow _ _ _ _ _ H).
Defined.

(** X7. The sort of the settings is stable: for every word length, the
    settings with a word of that length come out in the order they were
    registered in. *)
Theorem sorted_desc_is_stable_sort (settings : list setting) (n : nat) :
  filter (λ s, length (word s) = n) (sorted_desc settings)
  = filter (λ s, length (word s) = n) settings.
Proof. apply filter_sorted_desc. intros a b Ha Hb. congruence. Qed.

(** ** Mode 'all' with one rule *)

(** X8. With a single rule whose word is not empty and holds no newline,
    mode 'all' (and every mode treated like it) adds to each paragraph
    exactly as many annotations of the word as Python's [str.count]
    finds occurrences of it in the texts of the paragraph's runs: the
    non-overlapping occurrences, taken from the left, run by run. *)
Theorem all_mode_annotates_every_occurrence (doc : document) (w r : str)
    (mode : string) (fuel : nat) (doc' : document) :
  mode ≠ "once" → mode ≠ "per_page" → w ≠ [] → 10%N ∉ w →
  apply_ruby_to_document fuel doc [Setting w r] mode = inr doc' →
  Forall2 (λ p p', annotations_of w p' = annotations_of w p + occurrences w p)
    doc doc'.
Proof.
  intros Ho Hp Hw Hnl Hrun.
  assert (Forall2 (λ p p', annotations_of w p' + occurrences w p'
                           = annotations_of w p + occurrences w p) doc doc')
    as Hrel.
  { eapply (engine_related (λ p p', annotations_of w p' + occurrences w p'
                                    = annotations_of w p + occurrences w p));
      [done | intros p q t; lia | | exact Hrun].
    intros pre run post s earlier later Hsort _ Ht _ Hf _.
    assert (s = Setting w r) as ->.
    { change (sorted_desc [Setting w r]) with [Setting w r] in Hsort.
      destruct earlier as [|s0 [|s1 earlier]]; by simplify_eq/=. }
    cbn [word ruby] in *.
    rewrite !annotations_of_app, !occurrences_app.
    rewrite annotations_of_split_run, decide_True by done.
    rewrite annotations_of_cons_run, occurrences_cons_run by done.
    pose proof (occurrences_split_run w Hw run r Ht Hnl Hf). lia. }
  pose proof (engine_other_clean _ _ _ _ _ Ho Hp Hrun) as Hc.
  clear Hrun. induction Hrel as [|p p' doc doc' HR _ IH]; [constructor|].
  apply Forall_cons in Hc as [Hp' Hc]. constructor; [|by apply IH].
  rewrite (occurrences_clean w (sorted_desc [Setting w r]) p') in HR;
    [lia | | exact Hp'].
  exists (Setting w r). split; [|done]. by apply list_elem_of_singleton.
Qed.

Lemma all_mode_annotates_every_occurrence_witness :
  "all" ≠ "once" ∧ "all" ≠ "per_page" ∧ Ex.kagi ≠ [] ∧ (10%N ∉ Ex.kagi)
  ∧ apply_ruby_to_document 5
      [[Ex.r_ [Ex.bold; Ex.t_ (Ex.kagi ++ u "X" ++ Ex.kagi)]]]
      Ex.kagi_rule "all"
    = inr [[Ex.r_ [Ex.bold]; Ex.kagi_ruby;
            Ex.r_ [Ex.bold; Ex.t_ (u "X")]; Ex.kagi_ruby]]
  ∧ Forall2 (λ p p', annotations_of Ex.kagi p'
                     = annotations_of Ex.kagi p + occurrences Ex.kagi p)
      [[Ex.r_ [Ex.bold; Ex.t_ (Ex.kagi ++ u "X" ++ Ex.kagi)]]]
      [[Ex.r_ [Ex.bold]; Ex.kagi_ruby;
        Ex.r_ [Ex.bold; Ex.t_ (u "X")]; Ex.kagi_ruby]].
Proof.
  assert ("all" ≠ "once") as H1 by done.
  assert ("all" ≠ "per_page") as H2 by done.
  assert (Ex.kagi ≠ []) as H3 by done.
  assert (10%N ∉ Ex.kagi) as H4.
  { by_computation. }
  assert (apply_ruby_to_document 5
            [[Ex.r_ [Ex.bold; Ex.t_ (Ex.kagi ++ u "X" ++ Ex.kagi)]]]
            Ex.kagi_rule "all"
          = inr [[Ex.r_ [Ex.bold]; Ex.kagi_ruby;
                  Ex.r_ [Ex.bold; Ex.t_ (u "X")]; Ex.kagi_ruby]]) as H
    by (vm_compute; reflexivity).
  split; [exact H1|]. split; [exact H2|]. split; [exact H3|].
  split; [exact H4|]. split; [exact H|].
  exact (all_mode_annotates_every_occurrence _ _ _ _ _ _ H1 H2 H3 H4 H).
Defined.

(** X9. In mode 'all' (and every mode treated like it) paragraphs are
    processed independently of each other: the engine on a document made
    of two parts gives what it gives on the first part followed by what
    it gives on the second, and fails when it fails on one of them. *)
Theorem all_mode_is_paragraph_local (d1 d2 : document)
    (settings : list setting) (mode : string) (fuel : nat) :
  mode ≠ "once" → mode ≠ "per_page" →
  apply_ruby_to_document fuel (d1 ++ d2) settings mode
  = let* a := apply_ruby_to_document fuel d1 settings mode in
    let* b := apply_ruby_to_document fuel d2 settings mode in
    ret (a ++ b).
Proof.
  intros Ho Hp. unfold apply_ruby_to_document, run_engine. cbv zeta.
  rewrite for_paragraphs_app.
  destruct (for_paragraphs_engine_other mode Ho Hp (sorted_desc settings)
              fuel d1)
    as [Hd1 | [Hv1 | (a & _ & H1)]]; [by rewrite !Hd1 | by rewrite !Hv1 |].
  destruct (H1 (all_false settings) (all_false (sorted_desc settings)))
    as (pg1 & _ & ->).
  cbn [bind ret].
  destruct (for_paragraphs_engine_other mode Ho Hp (sorted_desc settings)
              fuel d2)
    as [Hd2 | [Hv2 | (b & _ & H2)]]; [by rewrite !Hd2 | by rewrite !Hv2 |].
  destruct (H2 (all_false settings) pg1) as (pg2 & _ & ->).
  destruct (H2 (all_false settings) (all_false (sorted_desc settings)))
    as (pg3 & _ & ->).
  reflexivity.
Qed.

Lemma all_mode_is_paragraph_local_witness :
  "all" ≠ "once" ∧ "all" ≠ "per_page"
  ∧ apply_ruby_to_document 5
      ([[Ex.r_ [Ex.t_ Ex.kagi]]] ++ [[Ex.r_ [Ex.t_ (u "X" ++ Ex.kagi)]]])
      Ex.kagi_rule "all"
    = let* a := apply_ruby_to_document 5 [[Ex.r_ [Ex.t_ Ex.kagi]]]
                  Ex.kagi_rule "all" in
      let* b := apply_ruby_to_document 5
                  [[Ex.r_ [Ex.t_ (u "X" ++ Ex.kagi)]]] Ex.kagi_rule "all" in
      ret (a ++ b).
Proof.
  assert ("all" ≠ "once") as H1 by done.
  assert ("all" ≠ "per_page") as H2 by done.
  split; [exact H1|]. split; [exact H2|].
  exact (all_mode_is_paragraph_local _ _ _ _ _ H1 H2).
Defined.

(** X10. The order in which the rules are given does not matter when
    their words have pairwise different lengths: the engine sorts them
    by length and keys its trackers by word, so that two lists with the
    same rules give the same result, in every mode. *)
Theorem rule_order_is_irrelevant (settings settings' : list setting)
    (doc : document) (mode : string) (fuel : nat) :
  settings ≡ₚ settings' →
  NoDup ((λ s, length (word s)) <$> settings) →
  apply_ruby_to_document fuel doc settings mode
  = apply_ruby_to_document fuel doc settings' mode.
Proof.
  intros Hp Hnd. unfold apply_ruby_to_document, run_engine. cbv zeta.
  rewrite (sorted_desc_of_permutation _ _ Hp Hnd).
  by rewrite (all_false_of_permutation _ _ Hp).
Qed.

Lemma rule_order_is_irrelevant_witness :
  Ex.unmei_rules ≡ₚ reverse Ex.unmei_rules
  ∧ NoDup ((λ s, length (word s)) <$> Ex.unmei_rules)
  ∧ apply_ruby_to_document 5 [[Ex.r_ [Ex.t_ Ex.unmei]]] Ex.unmei_rules "once"
    = apply_ruby_to_document 5 [[Ex.r_ [Ex.t_ Ex.unmei]]]
        (reverse Ex.unmei_rules) "once".
Proof.
  assert (Ex.unmei_rules ≡ₚ reverse Ex.unmei_rules) as H1
    by (symmetry; apply reverse_Permutation).
  assert (NoDup ((λ s, length (word s)) <$> Ex.unmei_rules)) as H2.
  { by_computation. }
  split; [exact H1|]. split; [exact H2|].
  exact (rule_order_is_irrelevant _ _ _ _ _ H1 H2).
Defined.

(** X11. A rule list filled through the add form alone never holds an
    empty word or an empty reading, so the conversion button cannot hang
    on it: with a file uploaded, it reports the empty list, or the
    engine returns a document, or the engine ends in [ValueError], which
    the handler reports.  The last case needs a reading or a run text
    that is not XML compatible. *)
Theorem form_rules_make_conversion_return (submissions : list (str * str))
    (doc : document) (mode : string) :
  Forall (λ item : str * str, item.1 ≠ [] ∧ item.2 ≠ [])
    (form_entries submissions)
  ∧ ((form_entries submissions = []
      ∧ ∀ fuel, on_convert fuel (Some doc) (form_entries submissions) mode
                = ErrorEmptySettings)
     ∨ ∃ fuel0,
         (∃ doc', ∀ fuel, fuel0 ≤ fuel →
            on_convert fuel (Some doc) (form_entries submissions) mode
            = Converted (inr doc'))
         ∨ (∀ fuel, fuel0 ≤ fuel →
              on_convert fuel (Some doc) (form_entries submissions) mode
              = Converted (inl ValueError)))
  ∧ (form_entries submissions ≠ [] →
     Forall (λ item : str * str, xml_compatible item.2 = true)
       (form_entries submissions) →
     xml_texts doc →
     ∃ fuel0 doc', ∀ fuel, fuel0 ≤ fuel →
       on_convert fuel (Some doc) (form_entries submissions) mode
       = Converted (inr doc')).
Proof.
  pose proof (form_entries_nonempty submissions) as Hne.
  split; [exact Hne|].
  destruct (form_entries submissions) as [|e l] eqn:E.
  { split; [left; done | done]. }
  assert (∀ s, s ∈ List.map (λ item : str * str, Setting item.1 item.2) (e :: l)
            → word s ≠ []) as Hw.
  { intros s Hs. apply (proj1 (list_elem_of_In _ _)) in Hs.
    apply in_map_iff in Hs as (item & <- & Hin).
    apply (proj2 (list_elem_of_In _ _)) in Hin.
    rewrite Forall_forall in Hne. by apply Hne. }
  destruct (engine_returns_nonempty doc
              (List.map (λ item : str * str, Setting item.1 item.2) (e :: l))
              mode Hw) as (fuel0 & doc' & HL).
  split.
  - right. exists fuel0.
    destruct (engine_settles fuel0 doc
                (List.map (λ item : str * str, Setting item.1 item.2) (e :: l))
                mode doc') as [H | H]; [by apply HL | left | right].
    + exists doc'. intros fuel Hle. cbn [on_convert]. by rewrite H.
    + intros fuel Hle. cbn [on_convert]. by rewrite H.
  - intros _ Hx Hd. exists fuel0, doc'. intros fuel Hle. cbn [on_convert].
    rewrite engine_agree_xml; [by rewrite HL | | done].
    apply Forall_forall. intros s Hs.
    apply (proj1 (list_elem_of_In _ _)) in Hs.
    apply in_map_iff in Hs as (item & <- & Hin).
    apply (proj1 (Forall_forall _ _) Hx item). by apply list_elem_of_In.
Qed.

(** X12. The page-break test answers yes for a run that holds a rendered
    page-break element, and for a run that holds an element with the
    attribute [w:type="page"], whatever that element is. *)
Theorem page_break_markup_is_detected (run c : elem) :
  c ∈ children run →
  tag c = "w:lastRenderedPageBreak" ∨ ("w:type", u "page") ∈ attrs c →
  has_page_break run = true.
Proof.
  intros Hc Hm. apply has_page_break_iff.
  destruct run as [t a x cs]. cbn [children] in Hc.
  pose proof (tostring_child c t a x cs Hc) as Hsub.
  destruct Hm as [Ht | Ha]; [left | right];
    (eapply occurs_trans; [|exact Hsub]).
  - pose proof (tostring_tag c) as H. by rewrite Ht in H.
  - eapply occurs_trans; [|exact (tostring_attr c _ Ha)].
    by exists (u " "), [].
Qed.

Lemma page_break_markup_is_detected_witness :
  Ex.br_page ∈ children (Ex.r_ [Ex.bold; Ex.br_page])
  ∧ (tag Ex.br_page = "w:lastRenderedPageBreak"
     ∨ ("w:type", u "page") ∈ attrs Ex.br_page)
  ∧ has_page_break (Ex.r_ [Ex.bold; Ex.br_page]) = true.
Proof.
  assert (Ex.br_page ∈ children (Ex.r_ [Ex.bold; Ex.br_page])) as H1.
  { cbn [children Ex.r_]. apply elem_of_cons. right.
    apply elem_of_cons. by left. }
  assert (tag Ex.br_page = "w:lastRenderedPageBreak"
          ∨ ("w:type", u "page") ∈ attrs Ex.br_page) as H2.
  { right. by_computation. }
  split; [exact H1|]. split; [exact H2|].
  exact (page_break_markup_is_detected _ _ H1 H2).
Defined.

(** X13. The page-break test looks at the serialised run, so that text
    counts as well: a run with a child whose text spells one of the two
    marker strings is taken for a page break. *)
Theorem marker_in_text_counts_as_page_break (run c : elem) (x : str) :
  c ∈ children run → etext c = Some x →
  occurs marker_rendered x ∨ occurs marker_page x →
  has_page_break run = true.
Proof.
  intros Hc Hx Hm. apply has_page_break_iff.
  destruct run as [t a y cs]. cbn [children] in Hc.
  pose proof (tostring_child c t a y cs Hc) as Hsub.
  pose proof (tostring_text c x Hx) as Htext.
  destruct Hm as [Hm | Hm]; [left | right];
    (eapply occurs_trans; [|exact Hsub]);
    (eapply occurs_trans; [|exact Htext]);
    by apply escape_text_occurs.
Qed.

Lemma marker_in_text_counts_as_page_break_witness :
  Ex.t_ (u "see w:lastRenderedPageBreak")
    ∈ children (Ex.r_ [Ex.t_ (u "see w:lastRenderedPageBreak")])
  ∧ etext (Ex.t_ (u "see w:lastRenderedPageBreak"))
    = Some (u "see w:lastRenderedPageBreak")
  ∧ (occurs marker_rendered (u "see w:lastRenderedPageBreak")
     ∨ occurs marker_page (u "see w:lastRenderedPageBreak"))
  ∧ has_page_break (Ex.r_ [Ex.t_ (u "see w:lastRenderedPageBreak")]) = true.
Proof.
  assert (Ex.t_ (u "see w:lastRenderedPageBreak")
            ∈ children (Ex.r_ [Ex.t_ (u "see w:lastRenderedPageBreak")]))
    as H1.
  { cbn [children Ex.r_]. apply elem_of_cons. by left. }
  assert (etext (Ex.t_ (u "see w:lastRenderedPageBreak"))
          = Some (u "see w:lastRenderedPageBreak")) as H2 by reflexivity.
  assert (occurs marker_rendered (u "see w:lastRenderedPageBreak")
          ∨ occurs marker_page (u "see w:lastRenderedPageBreak")) as H3.
  { left. by exists (u "see "), []. }
  split; [exact H1|]. split; [exact H2|]. split; [exact H3|].
  exact (marker_in_text_counts_as_page_break _ _ _ H1 H2 H3).
Defined.

(** ** Text of a returned document *)


